(** * Decorator examples: a shallow embedding of decorators-example.py

    The Python file defines a family of function wrappers (decorators):
    [my_decorator], [better_decorator], [timer], [retry], [log_calls],
    [validate_types], [memoize] and [rate_limit].  Each wrapper is
    embedded as a function from callables to callables over an explicit
    machine state; the state holds what the wrappers observe or mutate:
    the wall clock, the output (prints, log records, sleeps, calls of the
    undecorated function), the [cache] dictionary of [memoize] and the
    [calls] list of [rate_limit].

    The library calls the wrappers rest on are embedded with them:
    [str] and [repr] of the values, [inspect.Signature.bind] and
    [apply_defaults] for positional-or-keyword parameters, [sorted],
    [time.time], [time.sleep] and the module's logger.

    The other examples of the file follow: [repeat], the class
    [CountCalls], the [radius] property of [Circle], [timer_context],
    [conditional_decorator], [stateful_decorator] and the memoized
    [fibonacci], which calls itself by its decorated name.

    Clock readings and random draws are floats.  A finite double is kept
    as the rational number it is; the subtraction and the comparison by
    which [rate_limit] forgets old calls, and the literals 0.7 of
    [unreliable_function] and 0.1 of [process_data], are rounded as doubles
    are.  The durations that [timer] and [timer_context] print are kept as
    the difference of the two readings.  What computes further with floats
    ([Circle.area], [Circle.circumference], [Circle.from_diameter]) is
    left out. *)

From Stdlib Require Import ZArith QArith Qround Qpower Lqa String Ascii List Lia Permutation
  DecimalString.
From Stdlib Require OrderedTypeEx DecimalZ DecimalPos.
From stdpp Require Import base gmap strings.
Import ListNotations.

Local Set Warnings "-register-all,-clear-no-such-hyp".
Local Close Scope Q_scope.
Local Open Scope list_scope.
Local Open Scope string_scope.

(** ** Python values *)

(** The values the examples pass around.  Strings are sequences of code
    points below 256; floats appear only as clock readings, random draws
    and durations, outside of these values (see the section on
    floating-point numbers). *)
Inductive value : Type :=
| VNone
| VBool (b : bool)
| VInt (n : Z)
| VStr (s : string)
| VTuple (items : list value)
| VList (items : list value)
| VDict (items : list (value * value)).

(** Classes that appear as expected types, [type(v)] and [isinstance]. *)
Inductive pytype : Type :=
| TObject | TNoneType | TBool | TInt | TFloat | TStr | TTuple | TList | TDict.

Definition pytype_eqb (a b : pytype) : bool :=
  match a, b with
  | TObject, TObject | TNoneType, TNoneType | TBool, TBool | TInt, TInt
  | TFloat, TFloat | TStr, TStr | TTuple, TTuple | TList, TList
  | TDict, TDict => true
  | _, _ => false
  end.

(** [cls.__name__] *)
Definition type_name (t : pytype) : string :=
  match t with
  | TObject => "object"
  | TNoneType => "NoneType"
  | TBool => "bool"
  | TInt => "int"
  | TFloat => "float"
  | TStr => "str"
  | TTuple => "tuple"
  | TList => "list"
  | TDict => "dict"
  end.

(** [type(v)] *)
Definition type_of (v : value) : pytype :=
  match v with
  | VNone => TNoneType
  | VBool _ => TBool
  | VInt _ => TInt
  | VStr _ => TStr
  | VTuple _ => TTuple
  | VList _ => TList
  | VDict _ => TDict
  end.

(** [issubclass(a, b)]: every class derives from [object], and [bool]
    derives from [int]. *)
Definition issubclass (a b : pytype) : bool :=
  match b with
  | TObject => true
  | TInt => pytype_eqb a TInt || pytype_eqb a TBool
  | _ => pytype_eqb a b
  end.

Definition isinstance (v : value) (t : pytype) : bool :=
  issubclass (type_of v) t.

(** ** [str] and [repr] *)

Definition str_of_Z (n : Z) : string := NilZero.string_of_int (Z.to_int n).

Definition dquote : ascii := "034"%char.
Definition squote : ascii := "039"%char.
Definition backslash : ascii := "092"%char.

Definition hex_digit (n : nat) : ascii :=
  nth n (list_ascii_of_string "0123456789abcdef") "0"%char.

Fixpoint contains_char (c : ascii) (s : string) : bool :=
  match s with
  | EmptyString => false
  | String d s' => Ascii.eqb c d || contains_char c s'
  end.

(** [str.isprintable] on one code point below 256. *)
Definition printable (c : ascii) : bool :=
  let n := nat_of_ascii c in
  ((32 <=? n)%nat && (n <? 127)%nat) || ((161 <=? n)%nat && negb (n =? 173)%nat).

(** How [repr] of a string writes one character inside quotes [q]. *)
Definition escape_char (q c : ascii) : string :=
  if Ascii.eqb c q || Ascii.eqb c backslash then String backslash (String c "")
  else if Ascii.eqb c "009"%char then String backslash "t"
  else if Ascii.eqb c "010"%char then String backslash "n"
  else if Ascii.eqb c "013"%char then String backslash "r"
  else if printable c then String c ""
  else String backslash
         (String "x"%char
            (String (hex_digit (nat_of_ascii c / 16))
               (String (hex_digit (nat_of_ascii c mod 16)) ""))).

Fixpoint escape_string (q : ascii) (s : string) : string :=
  match s with
  | EmptyString => ""
  | String c s' => escape_char q c ++ escape_string q s'
  end.

(** [repr] of a [str]: single quotes, unless the text has a single quote
    and no double quote. *)
Definition repr_str (s : string) : string :=
  let q := if contains_char squote s && negb (contains_char dquote s)
           then dquote else squote in
  String q (escape_string q s ++ String q "").

(** [sep.join(parts)] *)
Fixpoint join (sep : string) (parts : list string) : string :=
  match parts with
  | [] => ""
  | [p] => p
  | p :: rest => p ++ sep ++ join sep rest
  end.

(** [repr] of a tuple from the [repr]s of its items: one item keeps a
    trailing comma. *)
Definition tuple_text (items : list string) : string :=
  match items with
  | [p] => "(" ++ p ++ ",)"
  | _ => "(" ++ join ", " items ++ ")"
  end.

Definition list_text (items : list string) : string :=
  "[" ++ join ", " items ++ "]".

Fixpoint repr (v : value) : string :=
  match v with
  | VNone => "None"
  | VBool true => "True"
  | VBool false => "False"
  | VInt n => str_of_Z n
  | VStr s => repr_str s
  | VTuple items => tuple_text (map repr items)
  | VList items => list_text (map repr items)
  | VDict items =>
      "{" ++ join ", " (map (fun kv => repr (fst kv) ++ ": " ++ repr (snd kv)) items) ++ "}"
  end.

(** [str(v)]: the text itself for a string, [repr] for everything else. *)
Definition str (v : value) : string :=
  match v with
  | VStr s => s
  | _ => repr v
  end.

(** ** Exceptions and results *)

(** An instance of (a subclass of) [Exception], which is what the
    [except Exception] clauses of the file catch: its class name and
    [str(e)]. *)
Record exn : Type := Exc { exc_type : string; exc_msg : string }.

Definition TypeError (msg : string) : exn := Exc "TypeError" msg.
Definition ValueError (msg : string) : exn := Exc "ValueError" msg.
Definition Exception (msg : string) : exn := Exc "Exception" msg.

Inductive result (A : Type) : Type :=
| Return (a : A)
| Raise (e : exn).
Arguments Return {A} a.
Arguments Raise {A} e.

(** ** Output *)

(** A printed line; floats inside an f-string are kept as numbers. *)
Inductive piece : Type :=
| Text (s : string)
| Float (x : Q)        (* {x} *)
| Float4 (x : Q).      (* {x:.4f} *)

Inductive event : Type :=
| Printed (line : list piece)                  (* print(...) *)
| Logged (level : Z) (msg : string)            (* a record emitted by logger *)
| Slept (secs : Q)                             (* time.sleep(secs) returned *)
| Invoked (name : string) (args : list value) (kwargs : list (string * value)).
                                               (* an undecorated function was called *)

Definition is_Invoked (ev : event) : bool :=
  match ev with Invoked _ _ _ => true | _ => false end.

Definition is_Slept (ev : event) : bool :=
  match ev with Slept _ => true | _ => false end.

(** How many times undecorated functions were called in a trace. *)
Definition invocations (evs : list event) : nat :=
  length (List.filter is_Invoked evs).

Definition sleeps (evs : list event) : nat :=
  length (List.filter is_Slept evs).

(** ** The machine and its monad *)

(** What a call can read or change.  [world] is whatever the undecorated
    function's body touches; [clock] gives the successive readings of
    [time.time()], [ticks] counts the readings taken so far; [out] is the
    output in chronological order; [cache] and [calls] are the closure
    variables of [memoize] and of [rate_limit]. *)
Record machine (W : Type) : Type := Machine {
  world : W;
  clock : nat -> Q;
  ticks : nat;
  out : list event;
  cache : gmap string value;
  calls : list Q
}.
Arguments Machine {W}.
Arguments world {W}.
Arguments clock {W}.
Arguments ticks {W}.
Arguments out {W}.
Arguments cache {W}.
Arguments calls {W}.

(** Field updates. *)
Definition set_world {W} (w : W) (s : machine W) : machine W :=
  Machine w (clock s) (ticks s) (out s) (cache s) (calls s).
Definition tick {W} (s : machine W) : machine W :=
  Machine (world s) (clock s) (S (ticks s)) (out s) (cache s) (calls s).
Definition write {W} (evs : list event) (s : machine W) : machine W :=
  Machine (world s) (clock s) (ticks s) (out s ++ evs) (cache s) (calls s).
Definition store_cache {W} (c : gmap string value) (s : machine W) : machine W :=
  Machine (world s) (clock s) (ticks s) (out s) c (calls s).
Definition store_calls {W} (l : list Q) (s : machine W) : machine W :=
  Machine (world s) (clock s) (ticks s) (out s) (cache s) l.

(** A computation that returns or raises, threading the machine. *)
Definition M (W A : Type) : Type := machine W -> result A * machine W.

#[export] Instance M_ret {W} : MRet (M W) := fun A a s => (Return a, s).

#[export] Instance M_bind {W} : MBind (M W) := fun A B k c s =>
  match c s with
  | (Return a, s') => k a s'
  | (Raise e, s') => (Raise e, s')
  end.

Section Primitives.
Context {W : Type}.

(** [raise e] *)
Definition raise {A} (e : exn) : M W A := fun s => (Raise e, s).

(** [try: c  except Exception as e: handler e] *)
Definition try_except {A} (c : M W A) (handler : exn -> M W A) : M W A :=
  fun s =>
    match c s with
    | (Return a, s') => (Return a, s')
    | (Raise e, s') => handler e s'
    end.

Definition emit (ev : event) : M W unit := fun s => (Return tt, write [ev] s).

Definition print (line : list piece) : M W unit := emit (Printed line).

(** [time.time()] *)
Definition time_time : M W Q := fun s => (Return (clock s (ticks s)), tick s).

(** [time.sleep(secs)]: a negative length is refused. *)
Definition time_sleep (secs : Q) : M W unit :=
  if Qle_bool 0 secs then emit (Slept secs)
  else raise (ValueError "sleep length must be non-negative").

(** [logging.basicConfig(level=logging.INFO)]: the module's logger
    inherits the root level, so records below INFO are dropped. *)
Definition INFO : Z := 20.
Definition ERROR : Z := 40.

Definition logger_log (level : Z) (msg : string) : M W unit :=
  if (INFO <=? level)%Z then emit (Logged level msg) else mret tt.

Definition logger_error (msg : string) : M W unit := logger_log ERROR msg.

Definition get_cache : M W (gmap string value) := fun s => (Return (cache s), s).
Definition set_cache (c : gmap string value) : M W unit := fun s =>
  (Return tt, store_cache c s).
Definition get_calls : M W (list Q) := fun s => (Return (calls s), s).
Definition set_calls (l : list Q) : M W unit := fun s =>
  (Return tt, store_calls l s).
End Primitives.

(** ** Callables *)

(** A parameter of a signature (positional-or-keyword), with its default. *)
Record param : Type := Param { pname : string; pdefault : option value }.

(** [inspect.signature(f)]: named parameters, or the catch-all
    pair [*args], [**kwargs] of a wrapper that hides what it wraps. *)
Inductive signature : Type :=
| Params (ps : list param)
| StarArgs.

Definition kwargs_t : Type := list (string * value).

(** A function object: its metadata and what a call does.
    [__signature__] is what [inspect.signature] answers, so it follows
    [__wrapped__]. *)
Record callable (W : Type) : Type := Callable {
  __name__ : string;
  __doc__ : option string;
  __signature__ : signature;
  call : list value -> kwargs_t -> M W value
}.
Arguments Callable {W}.
Arguments __name__ {W}.
Arguments __doc__ {W}.
Arguments __signature__ {W}.
Arguments call {W}.

Section Decorators.
Context {W : Type}.

(** [def name(params): body] -- an undecorated function.  A call of it
    is recorded; the body acts on the world only. *)
Definition def (name : string) (doc : option string) (ps : list param)
    (body : list value -> kwargs_t -> W -> result value * W) : callable W :=
  Callable name doc (Params ps)
    (fun args kwargs s =>
       let s1 := write [Invoked name args kwargs] s in
       let (r, w) := body args kwargs (world s1) in
       (r, set_world w s1)).

(** A [wrapper] defined under [@functools.wraps(func)]. *)
Definition functools_wraps (func : callable W)
    (wrapper : list value -> kwargs_t -> M W value) : callable W :=
  Callable (__name__ func) (__doc__ func) (__signature__ func) wrapper.

(** A [wrapper] defined without [functools.wraps]. *)
Definition plain_wrapper
    (wrapper : list value -> kwargs_t -> M W value) : callable W :=
  Callable "wrapper" None StarArgs wrapper.

(** 1. Basic decorator *)
Definition my_decorator (func : callable W) : callable W :=
  plain_wrapper (fun args kwargs =>
    print [Text ("Before calling " ++ __name__ func)];;
    result ← call func args kwargs;
    print [Text ("After calling " ++ __name__ func)];;
    mret result).

(** 2. Decorator with functools.wraps *)
Definition better_decorator (func : callable W) : callable W :=
  functools_wraps func (fun args kwargs =>
    print [Text ("Calling " ++ __name__ func)];;
    call func args kwargs).

(** 3. Timing decorator *)
Definition timer (func : callable W) : callable W :=
  functools_wraps func (fun args kwargs =>
    start_time ← time_time;
    result ← call func args kwargs;
    end_time ← time_time;
    let execution_time := (end_time - start_time)%Q in
    print [Text (__name__ func ++ " took "); Float4 execution_time;
           Text " seconds to execute"];;
    mret result).

(** 5. Retry decorator *)

(** [raise last_exception]: raising [None] is itself a [TypeError]. *)
Definition raise_object {A} (last_exception : option exn) : M W A :=
  match last_exception with
  | Some e => raise e
  | None => raise (TypeError "exceptions must derive from BaseException")
  end.

(** The [for attempt in range(max_attempts)] loop, with [remaining]
    iterations to go. *)
Fixpoint retry_loop (max_attempts : Z) (delay : Q) (func : callable W)
    (args : list value) (kwargs : kwargs_t)
    (remaining : nat) (attempt : Z) (last_exception : option exn) : M W value :=
  match remaining with
  | O => raise_object last_exception
  | S remaining' =>
      try_except (call func args kwargs)
        (fun e =>
           (if (attempt <? max_attempts - 1)%Z
            then print [Text ("Attempt " ++ str_of_Z (attempt + 1) ++ " failed: "
                                ++ exc_msg e ++ ". Retrying in ");
                        Float delay; Text " seconds..."];;
                 time_sleep delay
            else print [Text ("All " ++ str_of_Z max_attempts ++ " attempts failed.")]);;
           retry_loop max_attempts delay func args kwargs
             remaining' (attempt + 1)%Z (Some e))
  end.

Definition retry (max_attempts : Z) (delay : Q) (func : callable W) : callable W :=
  functools_wraps func (fun args kwargs =>
    retry_loop max_attempts delay func args kwargs (Z.to_nat max_attempts) 0%Z None).

(** 6. Logging decorator *)

(** [", ".join(filter(None, parts))] *)
Definition join_nonempty (parts : list string) : string :=
  join ", " (List.filter (fun p => negb (String.eqb p "")) parts).

Definition log_calls (level : Z) (func : callable W) : callable W :=
  functools_wraps func (fun args kwargs =>
    let args_str := join ", " (map str args) in
    let kwargs_str := join ", " (map (fun kv => fst kv ++ "=" ++ str (snd kv)) kwargs) in
    let all_args := join_nonempty [args_str; kwargs_str] in
    logger_log level ("Calling " ++ __name__ func ++ "(" ++ all_args ++ ")");;
    try_except
      (result ← call func args kwargs;
       logger_log level (__name__ func ++ " returned: " ++ str result);;
       mret result)
      (fun e =>
         logger_error (__name__ func ++ " raised " ++ exc_type e ++ ": " ++ exc_msg e);;
         raise e)).
End Decorators.

(** ** [inspect.Signature.bind] and [BoundArguments.apply_defaults] *)

Fixpoint lookup_kw (name : string) (kwargs : kwargs_t) : option value :=
  match kwargs with
  | [] => None
  | (k, v) :: rest => if String.eqb name k then Some v else lookup_kw name rest
  end.

(** [kwargs.pop(name)], the remaining dictionary. *)
Fixpoint remove_kw (name : string) (kwargs : kwargs_t) : kwargs_t :=
  match kwargs with
  | [] => []
  | (k, v) :: rest =>
      if String.eqb name k then remove_kw name rest else (k, v) :: remove_kw name rest
  end.

(** First loop of [_bind]: positional arguments against the parameters
    in order; gives what was bound and the parameters still open. *)
Fixpoint bind_positional (ps : list param) (args : list value) (kwargs : kwargs_t)
    {struct args} : result (kwargs_t * list param) :=
  match args with
  | [] => Return ([], ps)
  | arg_val :: args' =>
      match ps with
      | [] => Raise (TypeError "too many positional arguments")
      | p :: ps' =>
          match lookup_kw (pname p) kwargs with
          | Some _ =>
              Raise (TypeError ("multiple values for argument " ++ repr_str (pname p)))
          | None =>
              match bind_positional ps' args' kwargs with
              | Return (bound, open) => Return ((pname p, arg_val) :: bound, open)
              | Raise e => Raise e
              end
          end
      end
  end.

(** Second loop of [_bind]: the open parameters against the keyword
    arguments; a parameter without a value must have a default. *)
Fixpoint bind_keywords (open : list param) (kwargs : kwargs_t)
    : result (kwargs_t * kwargs_t) :=
  match open with
  | [] => Return ([], kwargs)
  | p :: open' =>
      match lookup_kw (pname p) kwargs with
      | Some arg_val =>
          match bind_keywords open' (remove_kw (pname p) kwargs) with
          | Return (bound, rest) => Return ((pname p, arg_val) :: bound, rest)
          | Raise e => Raise e
          end
      | None =>
          match pdefault p with
          | None =>
              Raise (TypeError ("missing a required argument: " ++ repr_str (pname p)))
          | Some _ => bind_keywords open' kwargs
          end
      end
  end.

Definition dict_of_kwargs (kwargs : kwargs_t) : value :=
  VDict (map (fun kv => (VStr (fst kv), snd kv)) kwargs).

(** [sig.bind( *args, **kwargs).arguments] *)
Definition sig_bind (sig : signature) (args : list value) (kwargs : kwargs_t)
    : result kwargs_t :=
  match sig with
  | Params ps =>
      match bind_positional ps args kwargs with
      | Raise e => Raise e
      | Return (bound1, open) =>
          match bind_keywords open kwargs with
          | Raise e => Raise e
          | Return (bound2, unexpected) =>
              match unexpected with
              | [] => Return (bound1 ++ bound2)%list
              | kv :: _ =>
                  Raise (TypeError ("got an unexpected keyword argument "
                                      ++ repr_str (fst kv)))
              end
          end
      end
  | StarArgs =>
      Return ((match args with [] => [] | _ => [("args", VTuple args)] end)
              ++ (match kwargs with
                  | [] => []
                  | _ => [("kwargs", dict_of_kwargs kwargs)]
                  end))%list
  end.

(** [bound_args.apply_defaults()]: every parameter in signature order,
    with its bound value or else its default. *)
Fixpoint defaults_of (ps : list param) (arguments : kwargs_t) : kwargs_t :=
  match ps with
  | [] => []
  | p :: ps' =>
      match lookup_kw (pname p) arguments with
      | Some v => (pname p, v) :: defaults_of ps' arguments
      | None =>
          match pdefault p with
          | Some d => (pname p, d) :: defaults_of ps' arguments
          | None => defaults_of ps' arguments
          end
      end
  end.

Definition apply_defaults (sig : signature) (arguments : kwargs_t) : kwargs_t :=
  match sig with
  | Params ps => defaults_of ps arguments
  | StarArgs =>
      [("args", match lookup_kw "args" arguments with Some v => v | None => VTuple [] end);
       ("kwargs", match lookup_kw "kwargs" arguments with Some v => v | None => VDict [] end)]
  end.

(** ** Floating-point numbers *)

(** [time.time()] and [random.random()] give floats, IEEE 754 doubles.  A
    finite double is a rational number and is kept as that number; what the
    model adds is the rounding of the operations on them.  The result of an
    operation is the exact result rounded to the nearest double, ties to the
    double with an even significand. *)

(** The nearest integer, ties to the even one. *)
Definition round_half_even (a : Q) : Z :=
  let f := Qfloor a in
  match (a - inject_Z f ?= 1 # 2)%Q with
  | Lt => f
  | Gt => (f + 1)%Z
  | Eq => if Z.even f then f else (f + 1)%Z
  end.

(** For [q] above 0: the integer [e] with [2 ^ e <= q < 2 ^ (e + 1)]. *)
Definition exponent (q : Q) : Z :=
  let e := (Z.log2 (Qnum q) - Z.log2 (Z.pos (Qden q)))%Z in
  match (q ?= 2 ^ e)%Q with
  | Lt => (e - 1)%Z
  | _ => e
  end.

(** The spacing of the doubles around [q]: 53 significant bits, and the
    spacing of the subnormal numbers below [2 ^ -1022]. *)
Definition ulp (q : Q) : Q := (2 ^ (Z.max (exponent q) (-1022) - 52))%Q.

Definition round_positive (q : Q) : Q :=
  (inject_Z (round_half_even (q / ulp q)) * ulp q)%Q.

(** The nearest double, were the exponent unbounded above. *)
Definition round_double (q : Q) : Q :=
  match (q ?= 0)%Q with
  | Eq => 0%Q
  | Gt => round_positive q
  | Lt => (- round_positive (- q))%Q
  end.

(** The result of an operation: a finite double or an infinity. *)
Inductive float : Type :=
| Num (x : Q)
| Inf (negative : bool).

(** Rounding, and overflow past the largest double. *)
Definition float_of (q : Q) : float :=
  let r := round_double q in
  if Qle_bool (2 ^ 1024) r then Inf false
  else if Qle_bool r (- 2 ^ 1024) then Inf true
  else Num r.

(** [x - y] on two doubles. *)
Definition float_sub (x y : Q) : float := float_of (x - y).

(** [d < n] for a float [d] and an [int] [n]; Python compares the two
    numbers exactly. *)
Definition float_lt_int (d : float) (n : Z) : bool :=
  match d with
  | Num x => negb (Qle_bool (inject_Z n) x)
  | Inf negative => negative
  end.

(** A decimal literal of the source: the double nearest to it. *)
Definition float_literal (q : Q) : Q := round_double q.

Arguments round_double : simpl never.
Arguments float_of : simpl never.
Arguments float_sub : simpl never.
Arguments float_literal : simpl never.

(** ** Cache keys of [memoize] *)

(** [sorted(kwargs.items())]: the pairs in ascending order.  The names of
    one call are distinct, so the order of two pairs is the order of
    their names; the sort is stable. *)
Fixpoint insert_item (kv : string * value) (l : kwargs_t) : kwargs_t :=
  match l with
  | [] => [kv]
  | kv' :: l' =>
      if String.leb (fst kv) (fst kv') then kv :: l else kv' :: insert_item kv l'
  end.

Fixpoint sorted (items : kwargs_t) : kwargs_t :=
  match items with
  | [] => []
  | kv :: rest => insert_item kv (sorted rest)
  end.

Definition item_tuple (kv : string * value) : value :=
  VTuple [VStr (fst kv); snd kv].

(** [key = str(args) + str(sorted(kwargs.items()))] *)
Definition cache_key (args : list value) (kwargs : kwargs_t) : string :=
  str (VTuple args) ++ str (VList (map item_tuple (sorted kwargs))).

Section PolicyDecorators.
Context {W : Type}.

Definition lift_result {A} (r : result A) : M W A := fun s => (r, s).

(** 7. Validation decorator *)

(** The error raised for a value of the wrong type. *)
Definition mismatch_error (param_name : string) (expected_type : pytype)
    (value : value) : exn :=
  TypeError (param_name ++ " must be " ++ type_name expected_type
               ++ ", got " ++ type_name (type_of value)).

(** The loop over [expected_types.items()]. *)
Fixpoint check_types (expected_types : list (string * pytype)) (arguments : kwargs_t)
    : M W unit :=
  match expected_types with
  | [] => mret tt
  | (param_name, expected_type) :: rest =>
      match lookup_kw param_name arguments with
      | Some value =>
          if isinstance value expected_type
          then check_types rest arguments
          else raise (mismatch_error param_name expected_type value)
      | None => check_types rest arguments
      end
  end.

Definition validate_types (expected_types : list (string * pytype))
    (func : callable W) : callable W :=
  functools_wraps func (fun args kwargs =>
    let sig := __signature__ func in
    bound_args ← lift_result (sig_bind sig args kwargs);
    let arguments := apply_defaults sig bound_args in
    check_types expected_types arguments;;
    call func args kwargs).

(** 8. Caching/memoization decorator *)

Definition KeyError (key : string) : exn := Exc "KeyError" (repr_str key).

Definition memoize (func : callable W) : callable W :=
  functools_wraps func (fun args kwargs =>
    let key := cache_key args kwargs in
    c ← get_cache;
    match c !! key with
    | None =>
        print [Text ("Computing " ++ __name__ func ++ str (VTuple args))];;
        v ← call func args kwargs;
        c' ← get_cache;
        set_cache (<[key := v]> c')
    | Some _ =>
        print [Text ("Cache hit for " ++ __name__ func ++ str (VTuple args))]
    end;;
    c'' ← get_cache;
    match c'' !! key with
    | Some v => mret v
    | None => raise (KeyError key)
    end).

(** [wrapper.cache_clear()] *)
Definition cache_clear : M W unit := set_cache ∅.


(** 9. Rate limiting decorator *)

Definition Qlt_bool (x y : Q) : bool := negb (Qle_bool y x).

(** [[call_time for call_time in calls if now - call_time < time_window]]:
    the age is a float subtraction, the window an [int]. *)
Definition prune (now : Q) (time_window : Z) (cs : list Q) : list Q :=
  List.filter (fun call_time => float_lt_int (float_sub now call_time) time_window) cs.

Definition RateLimitExceeded (max_calls time_window : Z) : exn :=
  Exception ("Rate limit exceeded: " ++ str_of_Z max_calls ++ " calls per "
               ++ str_of_Z time_window ++ " seconds").

Definition rate_limit (max_calls time_window : Z) (func : callable W) : callable W :=
  functools_wraps func (fun args kwargs =>
    now ← time_time;
    cs ← get_calls;
    set_calls (prune now time_window cs);;
    cs ← get_calls;
    if (max_calls <=? Z.of_nat (length cs))%Z
    then raise (RateLimitExceeded max_calls time_window)
    else
      cs ← get_calls;
      set_calls (cs ++ [now]);;
      call func args kwargs).
End PolicyDecorators.

(** ** The decorated functions of the file *)

Section Functions.
Context {W : Type}.

(** What a function body sees: its parameters bound to the arguments
    of the call.  (For arguments that do not fit the parameters the
    interpreter raises a [TypeError] too, worded differently from
    [inspect]'s.) *)
Definition with_locals (ps : list param) (args : list value) (kwargs : kwargs_t)
    (body : kwargs_t -> W -> result value * W) (w : W) : result value * W :=
  match sig_bind (Params ps) args kwargs with
  | Return bound => body (apply_defaults (Params ps) bound) w
  | Raise e => (Raise e, w)
  end.

Definition local (locals : kwargs_t) (name : string) : value :=
  match lookup_kw name locals with
  | Some v => v
  | None => VNone
  end.

Definition greet_body (args : list value) (kwargs : kwargs_t) : W -> result value * W :=
  with_locals [Param "name" None] args kwargs (fun locals w =>
    (Return (VStr ("Hello, " ++ str (local locals "name") ++ "!")), w)).

Definition greet_def : callable W :=
  def "greet" (Some "Greets a person by name") [Param "name" None] greet_body.

Definition greet : callable W := better_decorator greet_def.

Definition create_user_params : list param :=
  [Param "name" None; Param "age" None; Param "email" None].

Definition create_user_body (args : list value) (kwargs : kwargs_t)
    : W -> result value * W :=
  with_locals create_user_params args kwargs (fun locals w =>
    (Return (VDict [(VStr "name", local locals "name");
                    (VStr "age", local locals "age");
                    (VStr "email", local locals "email")]), w)).

Definition create_user_def : callable W :=
  def "create_user" (Some "Create a user with validated inputs") create_user_params
    create_user_body.

Definition create_user : callable W :=
  validate_types [("name", TStr); ("age", TInt); ("email", TStr)] create_user_def.

Definition api_call_body (args : list value) (kwargs : kwargs_t)
    : W -> result value * W :=
  with_locals [] args kwargs (fun locals w => (Return (VStr "API response"), w)).

Definition api_call_def : callable W :=
  def "api_call" (Some "Simulated API call") [] api_call_body.

Definition api_call : callable W := rate_limit 3 10 api_call_def.

(** [x * y] on the values of the model. *)
Definition as_index (v : value) : option Z :=
  match v with
  | VInt n => Some n
  | VBool b => Some (if b then 1 else 0)%Z
  | _ => None
  end.

Fixpoint repeat_string (s : string) (n : nat) : string :=
  match n with
  | O => ""
  | S n' => s ++ repeat_string s n'
  end.

Definition repeat_seq (v : value) (n : Z) : option value :=
  match v with
  | VStr s => Some (VStr (repeat_string s (Z.to_nat n)))
  | VTuple items => Some (VTuple (concat (repeat items (Z.to_nat n))))
  | VList items => Some (VList (concat (repeat items (Z.to_nat n))))
  | _ => None
  end.

Definition py_mul (x y : value) : result value :=
  match as_index x, as_index y with
  | Some a, Some b => Return (VInt (a * b))
  | _, _ =>
      match repeat_seq x 0 with
      | Some _ =>
          match as_index y with
          | Some n => match repeat_seq x n with Some v => Return v | None => Return VNone end
          | None => Raise (TypeError ("can't multiply sequence by non-int of type '"
                                        ++ type_name (type_of y) ++ "'"))
          end
      | None =>
          match repeat_seq y 0 with
          | Some _ =>
              match as_index x with
              | Some n =>
                  match repeat_seq y n with Some v => Return v | None => Return VNone end
              | None => Raise (TypeError ("can't multiply sequence by non-int of type '"
                                            ++ type_name (type_of x) ++ "'"))
              end
          | None =>
              Raise (TypeError ("unsupported operand type(s) for *: '"
                                  ++ type_name (type_of x) ++ "' and '"
                                  ++ type_name (type_of y) ++ "'"))
          end
      end
  end.

Definition multiply_params : list param := [Param "x" None; Param "y" None].

Definition multiply_body (args : list value) (kwargs : kwargs_t)
    : W -> result value * W :=
  with_locals multiply_params args kwargs (fun locals w =>
    (py_mul (local locals "x") (local locals "y"), w)).

Definition multiply_def : callable W :=
  def "multiply" (Some "Multiply two numbers with multiple decorators") multiply_params
    multiply_body.

(** 14. Multiple decorators: [@timer @log_calls() @validate_types(x=int, y=int)] *)
Definition multiply : callable W :=
  timer (log_calls INFO (validate_types [("x", TInt); ("y", TInt)] multiply_def)).
End Functions.

(** [say_hello] prints from its body; the lines it prints are its world. *)
Definition say_hello_body (args : list value) (kwargs : kwargs_t)
    : list string -> result value * list string :=
  with_locals [Param "name" None] args kwargs (fun locals w =>
    (Return VNone,
     app w [String.append "Hello, " (String.append (str (local locals "name")) "!")])).

Definition say_hello_def : callable (list string) :=
  def "say_hello" None [Param "name" None] say_hello_body.

Definition say_hello : callable (list string) := my_decorator say_hello_def.

(** A machine at start-up: nothing printed, nothing cached, no call
    recorded, the clock not yet read. *)
Definition boot {W} (w : W) (clk : nat -> Q) : machine W :=
  Machine w clk 0 [] ∅ [].


(** [unreliable_function] draws from [random.random()]; the draws still
    to come are its world. *)
Record rng : Type := Rng { draws : nat -> Q; drawn : nat }.

Definition unreliable_function_body (args : list value) (kwargs : kwargs_t)
    : rng -> result value * rng :=
  with_locals [] args kwargs (fun locals w =>
    let r := draws w (drawn w) in
    let w' := Rng (draws w) (S (drawn w)) in
    if Qlt_bool r (float_literal (7 # 10)) then (Raise (Exception "Random failure!"), w')
    else (Return (VStr "Success!"), w')).

Definition unreliable_function_def : callable rng :=
  def "unreliable_function" (Some "Function that fails randomly") []
    unreliable_function_body.

Definition unreliable_function : callable rng :=
  retry 3 (1 # 2) unreliable_function_def.

(** Two draws below 0.7, then draws above it; and draws that are all
    below it. *)
Definition flaky_draws (n : nat) : Q := if (n <? 2)%nat then 0%Q else 1%Q.

Definition two_failures : machine rng := boot (Rng flaky_draws 0) (fun _ => 0%Q).

Definition only_failures : machine rng := boot (Rng (fun _ => 0%Q) 0) (fun _ => 0%Q).

(** A clock read once a second; a machine at start-up on it; and one on
    which three calls at seconds 0, 1 and 2 are recorded. *)
Definition seconds (n : nat) : Q := inject_Z (Z.of_nat n).

Definition fresh : machine unit := boot tt seconds.

Definition busy : machine unit := Machine tt seconds 3 [] ∅ [0%Q; 1%Q; 2%Q].


(** ** Sequences of calls *)

Section Runs.
Context {W : Type}.

(** The calls [cs] made one after the other on [f], each by a caller
    that goes on whatever the previous call did; gives every outcome
    and the machine at the end. *)
Fixpoint call_seq (f : callable W) (cs : list (list value * kwargs_t))
    (s : machine W) : list (result value) * machine W :=
  match cs with
  | [] => ([], s)
  | c :: cs' =>
      let (r, s1) := call f (fst c) (snd c) s in
      let (rs, s2) := call_seq f cs' s1 in
      (r :: rs, s2)
  end.

(** The world after [n] runs of a function body on the same arguments,
    and the outcome of the run that follows them. *)
Fixpoint world_after (body : W -> result value * W) (n : nat) (w : W) : W :=
  match n with
  | O => w
  | S n' => world_after body n' (snd (body w))
  end.

Definition outcome_at (body : W -> result value * W) (n : nat) (w : W) : result value :=
  fst (body (world_after body n w)).

Definition fails {A} (r : result A) : Prop := exists e, r = Raise e.

(** The events a call added to the output. *)
Definition added (s s' : machine W) (evs : list event) : Prop :=
  out s' = (out s ++ evs)%list.
End Runs.

(** The cache keys of a sequence of calls. *)
Definition keys_of (cs : list (list value * kwargs_t)) : list string :=
  map (fun c => cache_key (fst c) (snd c)) cs.



(** The body of a function returns, whatever the world, on each of the
    calls [cs]. *)
Definition returns_on {W} (body : list value -> kwargs_t -> W -> result value * W)
    (cs : list (list value * kwargs_t)) : Prop :=
  forall c, In c cs -> forall w, exists v, fst (body (fst c) (snd c) w) = Return v.

(** The summed lengths of some texts. *)
Definition sum_len (l : list string) : nat :=
  fold_right (fun p n => (String.length p + n)%nat) 0%nat l.

(** A configured parameter whose bound value is not of the expected type. *)
Definition mismatched (expected_types : list (string * pytype)) (arguments : kwargs_t)
    (p : string) (t : pytype) (v : value) : Prop :=
  In (p, t) expected_types /\ lookup_kw p arguments = Some v /\ isinstance v t = false.

(** The admission rule of [rate_limit] on the call window alone: whether
    a call at [now] is let through, and the window after it. *)
Definition window_step (max_calls time_window : Z) (now : Q) (cs : list Q)
    : bool * list Q :=
  let alive := prune now time_window cs in
  if (max_calls <=? Z.of_nat (length alive))%Z then (false, alive)
  else (true, (alive ++ [now])%list).


(** How the window [A] left by a call refused at [now] relates to the
    window [B] there would be without that call: they are equal, or [A] is
    [B] pruned at [now] and still holds [max_calls] entries. *)
Definition window_inv (max_calls time_window : Z) (now : Q) (A B : list Q) : Prop :=
  A = B \/ (A = prune now time_window B /\ (max_calls <= Z.of_nat (length A))%Z).


(** ** Reading a [repr] back *)

(** The characters of a decimal number. *)
Definition is_numchar (c : ascii) : bool :=
  let n := nat_of_ascii c in
  ((48 <=? n)%nat && (n <=? 57)%nat) || (n =? 45)%nat.

Fixpoint string_forall (p : ascii -> bool) (s : string) : bool :=
  match s with
  | EmptyString => true
  | String c s' => p c && string_forall p s'
  end.

(** A text that cannot continue a number. *)
Definition stops (r : string) : bool :=
  match r with
  | EmptyString => true
  | String c _ => negb (is_numchar c)
  end.

Fixpoint is_prefix (a b : string) : bool :=
  match a, b with
  | EmptyString, _ => true
  | String c a', String d b' => Ascii.eqb c d && is_prefix a' b'
  | String _ _, EmptyString => false
  end.

Definition all_ascii : list ascii := map ascii_of_nat (seq 0 256).

(** No character's escape is the start of another character's. *)
Definition escapes_apart (q : ascii) : bool :=
  forallb (fun c1 =>
    forallb (fun c2 =>
      Ascii.eqb c1 c2 || negb (is_prefix (escape_char q c1) (escape_char q c2)))
      all_ascii) all_ascii.

(** No escape starts with the quote. *)
Definition escapes_quote_free (q : ascii) : bool :=
  forallb (fun c =>
    match escape_char q c with
    | String h _ => negb (Ascii.eqb h q)
    | EmptyString => false
    end) all_ascii.

(** What a text starts: the first character of a [repr] tells the class
    of the value. *)
Inductive kind : Type :=
| KNone | KTrue | KFalse | KNum | KStr | KTuple | KList | KDict.

Definition value_kind (v : value) : kind :=
  match v with
  | VNone => KNone
  | VBool true => KTrue
  | VBool false => KFalse
  | VInt _ => KNum
  | VStr _ => KStr
  | VTuple _ => KTuple
  | VList _ => KList
  | VDict _ => KDict
  end.

Definition char_kind (c : ascii) : option kind :=
  if is_numchar c then Some KNum
  else if Ascii.eqb c "N" then Some KNone
  else if Ascii.eqb c "T" then Some KTrue
  else if Ascii.eqb c "F" then Some KFalse
  else if Ascii.eqb c squote || Ascii.eqb c dquote then Some KStr
  else if Ascii.eqb c "(" then Some KTuple
  else if Ascii.eqb c "[" then Some KList
  else if Ascii.eqb c "{" then Some KDict
  else None.

(** [repr v] can be read back: followed by a text that cannot continue a
    number, it tells [v] and where the text starts. *)
Definition readable (v1 : value) : Prop :=
  forall v2 r1 r2, stops r1 = true -> stops r2 = true ->
    repr v1 ++ r1 = repr v2 ++ r2 -> v1 = v2 /\ r1 = r2.

(** A text that starts with a comma or with the closing character. *)
Definition delimited (close : ascii) (r : string) : Prop :=
  exists t, r = String "," t \/ r = String close t.

(** An item of a comma-separated text can be read back. *)
Definition item_readable {A} (f : A -> string) (close : ascii) (x : A) : Prop :=
  forall y r1 r2, delimited close r1 -> delimited close r2 ->
    f x ++ r1 = f y ++ r2 -> x = y /\ r1 = r2.

(** How [repr] writes one entry of a dictionary. *)
Definition dict_item (kv : value * value) : string :=
  repr (fst kv) ++ ": " ++ repr (snd kv).

(** Induction on values through the lists inside them. *)
Section ValueInd.
Variable P : value -> Prop.
Hypothesis HNone : P VNone.
Hypothesis HBool : forall b, P (VBool b).
Hypothesis HInt : forall n, P (VInt n).
Hypothesis HStr : forall s, P (VStr s).
Hypothesis HTuple : forall l, List.Forall P l -> P (VTuple l).
Hypothesis HList : forall l, List.Forall P l -> P (VList l).
Hypothesis HDict :
  forall l, List.Forall (fun kv => P (fst kv) /\ P (snd kv)) l -> P (VDict l).

Fixpoint value_nested_ind (v : value) : P v :=
  match v with
  | VNone => HNone
  | VBool b => HBool b
  | VInt n => HInt n
  | VStr s => HStr s
  | VTuple l =>
      HTuple l ((fix go (l : list value) : List.Forall P l :=
                   match l with
                   | [] => @List.Forall_nil _ P
                   | x :: l' => @List.Forall_cons _ P x l' (value_nested_ind x) (go l')
                   end) l)
  | VList l =>
      HList l ((fix go (l : list value) : List.Forall P l :=
                  match l with
                  | [] => @List.Forall_nil _ P
                  | x :: l' => @List.Forall_cons _ P x l' (value_nested_ind x) (go l')
                  end) l)
  | VDict l =>
      HDict l ((fix go (l : list (value * value))
                  : List.Forall (fun kv => P (fst kv) /\ P (snd kv)) l :=
                  match l with
                  | [] => @List.Forall_nil _ _
                  | kv :: l' =>
                      @List.Forall_cons _ (fun kv => P (fst kv) /\ P (snd kv)) kv l'
                        (match kv return P (fst kv) /\ P (snd kv) with
                         | (k, v) => conj (value_nested_ind k) (value_nested_ind v)
                         end)
                        (go l')
                  end) l)
  end.
End ValueInd.

(** Two calls with the same positional arguments and the same keyword
    arguments, in whatever order these are written. *)
Definition same_arguments (c1 c2 : list value * kwargs_t) : Prop :=
  fst c1 = fst c2 /\ Permutation (snd c1) (snd c2).

(** ** The other examples of the file *)

(** *** Operators and built-ins their bodies use *)

(** [x < n] for an [int] [n]: numbers compare, anything else is refused. *)
Definition py_lt_int (x : value) (n : Z) : result bool :=
  match as_index x with
  | Some a => Return (a <? n)%Z
  | None => Raise (TypeError ("'<' not supported between instances of '"
                                ++ type_name (type_of x) ++ "' and 'int'"))
  end.

(** [x - n] for an [int] [n]. *)
Definition py_sub_int (x : value) (n : Z) : result value :=
  match as_index x with
  | Some a => Return (VInt (a - n))
  | None => Raise (TypeError ("unsupported operand type(s) for -: '"
                                ++ type_name (type_of x) ++ "' and 'int'"))
  end.

Definition in_dquotes (s : string) : string :=
  String dquote (s ++ String dquote "").

(** [x + y]: numbers add, two sequences of one type are joined. *)
Definition py_add (x y : value) : result value :=
  match as_index x, as_index y with
  | Some a, Some b => Return (VInt (a + b))
  | _, _ =>
      match x, y with
      | VStr a, VStr b => Return (VStr (a ++ b))
      | VTuple a, VTuple b => Return (VTuple (a ++ b)%list)
      | VList a, VList b => Return (VList (a ++ b)%list)
      | VStr _, _ | VTuple _, _ | VList _, _ =>
          Raise (TypeError ("can only concatenate " ++ type_name (type_of x) ++ " (not "
                              ++ in_dquotes (type_name (type_of y)) ++ ") to "
                              ++ type_name (type_of x)))
      | _, _ =>
          Raise (TypeError ("unsupported operand type(s) for +: '"
                              ++ type_name (type_of x) ++ "' and '"
                              ++ type_name (type_of y) ++ "'"))
      end
  end.

(** [len(x)] *)
Definition py_len (x : value) : result value :=
  match x with
  | VStr s => Return (VInt (Z.of_nat (String.length s)))
  | VTuple items | VList items => Return (VInt (Z.of_nat (length items)))
  | VDict items => Return (VInt (Z.of_nat (length items)))
  | _ => Raise (TypeError ("object of type '" ++ type_name (type_of x)
                             ++ "' has no len()"))
  end.

(** [x / n] for a number [x] and an [int] [n]. *)
Definition ZeroDivisionError (msg : string) : exn := Exc "ZeroDivisionError" msg.

Definition py_truediv (x : Q) (n : Z) : result Q :=
  if (n =? 0)%Z then Raise (ZeroDivisionError "float division by zero")
  else Return (x / inject_Z n)%Q.

Section MoreDecorators.
Context {W : Type}.

(** [try: c  finally: finalizer] *)
Definition try_finally {A} (c : M W A) (finalizer : M W unit) : M W A := fun s =>
  let (r, s1) := c s in
  match finalizer s1 with
  | (Return _, s2) => (r, s2)
  | (Raise e, s2) => (Raise e, s2)
  end.

(** [def name(params): body] for a body that sleeps or calls other
    functions of the file: it acts on the whole machine. *)
Definition def_m (name : string) (doc : option string) (ps : list param)
    (body : list value -> kwargs_t -> M W value) : callable W :=
  Callable name doc (Params ps)
    (fun args kwargs => emit (Invoked name args kwargs);; body args kwargs).

Definition with_locals_m (ps : list param) (args : list value) (kwargs : kwargs_t)
    (body : kwargs_t -> M W value) : M W value :=
  locals ← lift_result (sig_bind (Params ps) args kwargs);
  body (apply_defaults (Params ps) locals).

(** 4. Decorator with arguments *)

(** [result] as a local variable of [wrapper]: unbound until the loop
    body has run. *)
Definition UnboundLocalError (name : string) : exn :=
  Exc "UnboundLocalError"
    ("cannot access local variable '" ++ name
       ++ "' where it is not associated with a value").

(** The [for i in range(times)] loop, with [remaining] iterations to go. *)
Fixpoint repeat_loop (func : callable W) (args : list value) (kwargs : kwargs_t)
    (remaining : nat) (result : option value) : M W (option value) :=
  match remaining with
  | O => mret result
  | S remaining' =>
      result ← call func args kwargs;
      repeat_loop func args kwargs remaining' (Some result)
  end.

Definition repeat (times : Z) (func : callable W) : callable W :=
  functools_wraps func (fun args kwargs =>
    result ← repeat_loop func args kwargs (Z.to_nat times) None;
    match result with
    | Some v => mret v
    | None => raise (UnboundLocalError "result")
    end).

(** 12. Context manager.  [with timer_context() as start: block]: the
    generator runs to its [yield], the block runs, and the generator is
    resumed (with the block's error thrown in at the [yield], if any), so
    its [finally] clause runs on both ways out. *)
Definition timer_context {A} (block : Q -> M W A) : M W A :=
  start ← time_time;
  print [Text "Timer started"];;
  try_finally (block start)
    (end_ ← time_time;
     print [Text "Timer ended. Elapsed: "; Float4 (end_ - start)%Q; Text " seconds"]).

(** 13. Decorator factory *)
Definition conditional_decorator (condition : bool) (func : callable W) : callable W :=
  if condition then timer func else func.
End MoreDecorators.

(** *** Wrappers with state of their own *)

(** A computation of an object, or of a closure over a dictionary, with
    private state [St]: the state is threaded beside the machine, and what
    was assigned before an error stays assigned. *)
Definition MS (St W A : Type) : Type :=
  St -> machine W -> result A * St * machine W.

#[export] Instance MS_ret {St W} : MRet (MS St W) := fun A a st s => (Return a, st, s).

#[export] Instance MS_bind {St W} : MBind (MS St W) := fun A B k c st s =>
  match c st s with
  | (Return a, st', s') => k a st' s'
  | (Raise e, st', s') => (Raise e, st', s')
  end.

Definition lift {St W A} (c : M W A) : MS St W A := fun st s =>
  let (r, s') := c s in (r, st, s').

Definition get_state {St W} : MS St W St := fun st s => (Return st, st, s).

Definition put_state {St W} (st' : St) : MS St W unit := fun _ s => (Return tt, st', s).

(** Calls made one after the other on a wrapper with state. *)
Fixpoint calls_in_turn {St W} (f : list value -> kwargs_t -> MS St W value)
    (cs : list (list value * kwargs_t)) (st : St) (s : machine W)
    : list (result value) * St * machine W :=
  match cs with
  | [] => ([], st, s)
  | c :: cs' =>
      let '(r, st1, s1) := f (fst c) (snd c) st s in
      let '(rs, st2, s2) := calls_in_turn f cs' st1 s1 in
      (r :: rs, st2, s2)
  end.

(** 10. Class-based decorator *)
Module CountCalls.

Record t (W : Type) : Type := Self { func : callable W; count : Z }.
Arguments Self {W}.
Arguments func {W}.
Arguments count {W}.

Definition __init__ {W} (func : callable W) : t W := Self func 0.

Definition __call__ {W} (args : list value) (kwargs : kwargs_t) : MS (t W) W value :=
  self ← get_state;
  put_state (Self (func self) (count self + 1));;
  self ← get_state;
  lift (print [Text ("Call " ++ str_of_Z (count self) ++ " of "
                       ++ __name__ (func self))]);;
  lift (call (func self) args kwargs).

Definition reset_count {W} : MS (t W) W unit :=
  self ← get_state;
  put_state (Self (func self) 0).

Definition get_count {W} : MS (t W) W Z :=
  self ← get_state;
  mret (count self).

End CountCalls.

(** 15. Decorator with state: the dictionary [state] of the closure. *)
Module stateful_decorator.

Record state : Type := State { calls : Z; total_time : Q }.

Definition initial : state := State 0 0.

Definition wrapper {W} (func : callable W) (args : list value) (kwargs : kwargs_t)
    : MS state W value :=
  start_time ← lift time_time;
  result ← lift (call func args kwargs);
  end_time ← lift time_time;
  st ← get_state;
  put_state (State (calls st + 1) (total_time st));;
  st ← get_state;
  put_state (State (calls st) (total_time st + (end_time - start_time)));;
  st ← get_state;
  average ← lift (lift_result (py_truediv (total_time st) (calls st)));
  lift (print [Text ("Call #" ++ str_of_Z (calls st) ++ ", Average time: ");
               Float4 average; Text "s"]);;
  mret result.

(** [wrapper.get_stats()] gives a copy of the dictionary. *)
Definition get_stats {W} : MS state W state := get_state.

Definition reset_stats {W} : MS state W unit := put_state (State 0 0).

End stateful_decorator.

(** 11. Property decorators: the radius of a [Circle].  ([area],
    [circumference] and [from_diameter] compute with floats and are left
    out.) *)
Module Circle.

Record t : Type := Self { _radius : value }.

Definition __init__ (radius : value) : t := Self radius.

(** The getter and the setter of the property [radius]. *)
Definition radius (self : t) : value := _radius self.

Definition radius_setter (self : t) (value : value) : result t :=
  match py_lt_int value 0 with
  | Raise e => Raise e
  | Return true => Raise (ValueError "Radius cannot be negative")
  | Return false => Return (Self value)
  end.

Definition unit_circle : t := __init__ (VInt 1).

(** Assignments [circle.radius = v] made one after the other by a caller
    that goes on after a refused one. *)
Fixpoint assign_all (self : t) (vs : list value) : t :=
  match vs with
  | [] => self
  | v :: vs' =>
      match radius_setter self v with
      | Return self' => assign_all self' vs'
      | Raise _ => assign_all self vs'
      end
  end.

End Circle.

(** A number that is not negative. *)
Definition non_negative (v : value) : Prop :=
  exists n, as_index v = Some n /\ (0 <= n)%Z.

(** *** The decorated functions *)

(** [say_hi] prints from its body; the lines it prints are its world. *)
Definition say_hi_body (args : list value) (kwargs : kwargs_t)
    : list string -> result value * list string :=
  with_locals [] args kwargs (fun locals w => (Return VNone, app w ["Hi!"])).

Definition say_hi_def : callable (list string) :=
  def "say_hi" None [] say_hi_body.

Definition say_hi : callable (list string) := repeat 3 say_hi_def.

Section MoreFunctions.
Context {W : Type}.

Definition calculate_area_params : list param :=
  [Param "length" None; Param "width" None].

Definition calculate_area_body (args : list value) (kwargs : kwargs_t)
    : W -> result value * W :=
  with_locals calculate_area_params args kwargs (fun locals w =>
    (py_mul (local locals "length") (local locals "width"), w)).

Definition calculate_area_def : callable W :=
  def "calculate_area" (Some "Calculate rectangle area") calculate_area_params
    calculate_area_body.

Definition calculate_area : callable W := log_calls INFO calculate_area_def.

Definition add_numbers_params : list param := [Param "a" None; Param "b" None].

Definition add_numbers_body (args : list value) (kwargs : kwargs_t)
    : W -> result value * W :=
  with_locals add_numbers_params args kwargs (fun locals w =>
    (py_add (local locals "a") (local locals "b"), w)).

Definition add_numbers_def : callable W :=
  def "add_numbers" (Some "Add two numbers") add_numbers_params add_numbers_body.

Definition add_numbers : CountCalls.t W := CountCalls.__init__ add_numbers_def.

Definition process_data_def : callable W :=
  def_m "process_data" (Some "Process some data") [Param "data" None]
    (fun args kwargs =>
       with_locals_m [Param "data" None] args kwargs (fun locals =>
         time_sleep (float_literal (1 # 10));;
         lift_result (py_len (local locals "data")))).

Definition process_data (args : list value) (kwargs : kwargs_t)
    : MS stateful_decorator.state W value :=
  stateful_decorator.wrapper process_data_def args kwargs.

(** 8. [fibonacci] calls itself by its global name, which is bound to the
    memoized function.  [depth] bounds the nesting of these calls, as the
    interpreter's recursion limit does. *)
Definition RecursionError : exn :=
  Exc "RecursionError" "maximum recursion depth exceeded".

Definition fibonacci_doc : option string :=
  Some "Calculate fibonacci number (expensive recursive version)".

Fixpoint fibonacci (depth : nat) : callable W :=
  match depth with
  | O => Callable "fibonacci" fibonacci_doc (Params [Param "n" None])
           (fun _ _ => raise RecursionError)
  | S depth' =>
      memoize
        (def_m "fibonacci" fibonacci_doc [Param "n" None] (fun args kwargs =>
           with_locals_m [Param "n" None] args kwargs (fun locals =>
             let n := local locals "n" in
             small ← lift_result (py_lt_int n 2);
             if small : bool then mret n
             else
               n1 ← lift_result (py_sub_int n 1);
               a ← call (fibonacci depth') [n1] [];
               n2 ← lift_result (py_sub_int n 2);
               b ← call (fibonacci depth') [n2] [];
               lift_result (py_add a b))))
  end.
End MoreFunctions.

(** The Fibonacci numbers, with [fib n = n] below 2 as in the code. *)
Fixpoint fib_nat (n : nat) : Z :=
  match n with
  | O => 0
  | S n' => match n' with
            | O => 1
            | S n'' => fib_nat n' + fib_nat n''
            end
  end%Z.

Definition fib (n : Z) : Z := if (n <? 2)%Z then n else fib_nat (Z.to_nat n).

(** The cache key of [fibonacci(n)]. *)
Definition fib_key (n : Z) : string := cache_key [VInt n] [].

(** Every entry the cache holds for [fibonacci] is the right number. *)
Definition fib_cache (c : gmap string value) : Prop :=
  forall k v, c !! fib_key k = Some v -> v = VInt (fib k).

(** The seconds slept in a trace are all of one length. *)
Definition sleeps_of (secs : Q) (evs : list event) : Prop :=
  Forall (fun ev => forall x, ev = Slept x -> x = secs) evs.


Definition is_Return {A} (r : result A) : bool :=
  match r with Return _ => true | Raise _ => false end.

(** * Properties *)

(** ** Stepping through the monad *)

Lemma bind_Return {W A B} (c : M W A) (k : A -> M W B) s a s' :
  c s = (Return a, s') -> (c ≫= k) s = k a s'.
Proof. intros H. unfold mbind, M_bind. now rewrite H. Qed.

Lemma bind_Raise {W A B} (c : M W A) (k : A -> M W B) s e s' :
  c s = (Raise e, s') -> (c ≫= k) s = (Raise e, s').
Proof. intros H. unfold mbind, M_bind. now rewrite H. Qed.

Lemma call_def {W} name doc ps (body : list value -> kwargs_t -> W -> result value * W)
    args kwargs (s : machine W) :
  call (def name doc ps body) args kwargs s =
  (fst (body args kwargs (world s)),
   set_world (snd (body args kwargs (world s))) (write [Invoked name args kwargs] s)).
Proof. simpl. now destruct (body args kwargs (world s)). Qed.

(** ** Metadata *)

(** C7, as the code has it: every wrapper built under [functools.wraps]
    carries the name and the documentation string of the function it wraps,
    also through several layers. *)
Theorem wraps_preserves_metadata {W} (func : callable W) :
  (forall deco : callable W -> callable W,
      In deco [better_decorator; timer; memoize]
      \/ (exists m d, deco = retry m d)
      \/ (exists level, deco = log_calls level)
      \/ (exists expected, deco = validate_types expected)
      \/ (exists n w, deco = rate_limit n w) ->
      __name__ (deco func) = __name__ func /\ __doc__ (deco func) = __doc__ func)
  /\ __name__ (@greet W) = "greet"
  /\ __doc__ (@greet W) = Some "Greets a person by name"
  /\ __name__ (@multiply W) = "multiply"
  /\ __doc__ (@multiply W) = Some "Multiply two numbers with multiple decorators".
Proof.
  split; [|repeat split].
  intros deco [Hin | [(m & d & ->) | [(l & ->) | [(e & ->) | (n & w & ->)]]]];
    try (split; reflexivity).
  simpl in Hin. destruct Hin as [<- | [<- | [<- | []]]]; split; reflexivity.
Qed.

(** C7 as stated fails on [my_decorator], which defines its wrapper without
    [functools.wraps]: the wrapped [greet] is called ["wrapper"] and has no
    documentation string. *)
Lemma my_decorator_drops_metadata :
  __name__ (my_decorator (@greet_def unit)) = "wrapper"
  /\ __name__ (my_decorator (@greet_def unit)) <> __name__ (@greet_def unit)
  /\ __doc__ (my_decorator (@greet_def unit)) = None
  /\ __doc__ (my_decorator (@greet_def unit)) <> __doc__ (@greet_def unit).
Proof. repeat split; simpl; congruence. Qed.

(** ** Retry with a single attempt *)

(** C8: with [max_attempts = 1] the wrapped call makes the one call and
    hands back its outcome, a value or the very error; it never sleeps.
    On an error it prints its closing line and nothing else changes. *)
Theorem retry_once_is_pass_through {W} (func : callable W) (delay : Q) args kwargs
    (s : machine W) :
  let (r0, s0) := call func args kwargs s in
  let (r, s') := call (retry 1 delay func) args kwargs s in
  r = r0
  /\ s' = match r0 with
          | Return _ => s0
          | Raise _ => write [Printed [Text "All 1 attempts failed."]] s0
          end
  /\ sleeps (out s') = sleeps (out s0)
  /\ invocations (out s') = invocations (out s0).
Proof.
  simpl. unfold try_except.
  destruct (call func args kwargs s) as [[v | e] s0]; simpl.
  - repeat split.
  - unfold sleeps, invocations. rewrite !List.filter_app. simpl.
    rewrite !length_app. simpl. repeat split; lia.
Qed.

(** ** Binding arguments to parameters *)

Lemma lookup_kw_app name (a b : kwargs_t) :
  lookup_kw name (a ++ b)%list
  = match lookup_kw name a with Some v => Some v | None => lookup_kw name b end.
Proof.
  induction a as [| [k v] a IH]; simpl; [reflexivity|].
  destruct (String.eqb name k); [reflexivity | exact IH].
Qed.

Lemma lookup_kw_None name (a : kwargs_t) :
  ~ In name (map fst a) -> lookup_kw name a = None.
Proof.
  induction a as [| [k v] a IH]; simpl; intros H; [reflexivity|].
  destruct (String.eqb_spec name k) as [-> | Hne]; [tauto|]. apply IH. tauto.
Qed.

Lemma lookup_kw_remove name k (a : kwargs_t) :
  lookup_kw name (remove_kw k a)
  = if String.eqb name k then None else lookup_kw name a.
Proof.
  induction a as [| [k' v] a IH]; simpl.
  - now destruct (String.eqb name k).
  - destruct (String.eqb_spec k k') as [<- | Hkk'].
    + rewrite IH. destruct (String.eqb name k); reflexivity.
    + simpl. rewrite IH.
      destruct (String.eqb_spec name k') as [-> | Hnk'].
      * destruct (String.eqb_spec k' k); [congruence | reflexivity].
      * reflexivity.
Qed.

(** What the first loop binds: the leading parameters to the positional
    arguments, none of them also given by keyword. *)
Lemma bind_positional_spec ps args kwargs bound1 open :
  bind_positional ps args kwargs = Return (bound1, open) ->
  (length args <= length ps)%nat
  /\ map fst bound1 = map pname (firstn (length args) ps)
  /\ map snd bound1 = args
  /\ open = skipn (length args) ps
  /\ (forall name, In name (map fst bound1) -> lookup_kw name kwargs = None).
Proof.
  revert ps bound1 open. induction args as [| a args IH]; intros ps bound1 open H.
  - simpl in H. inversion H; subst. simpl.
    repeat split; try lia; try reflexivity; intros ? [].
  - simpl in H. destruct ps as [| p ps]; [discriminate|].
    destruct (lookup_kw (pname p) kwargs) eqn:Ek; [discriminate|].
    destruct (bind_positional ps args kwargs) as [[b o] | e] eqn:Eb; [|discriminate].
    inversion H; subst. destruct (IH ps b open Eb) as (Hlen & Hf & Hs & Ho & Hk).
    simpl. repeat split; try lia; try congruence.
    intros name [<- | Hin]; auto.
Qed.

(** What the second loop binds: each open parameter given by keyword to
    that value; an open parameter not given has a default; what is left are
    the keywords that name no open parameter. *)
Lemma bind_keywords_spec open : forall kwargs bound2 rest,
  bind_keywords open kwargs = Return (bound2, rest) ->
  (forall name, lookup_kw name bound2
                = if existsb (fun p => String.eqb name (pname p)) open
                  then lookup_kw name kwargs else None)
  /\ (forall p, In p open -> lookup_kw (pname p) kwargs = None -> pdefault p <> None)
  /\ (forall name, lookup_kw name rest
                   = if existsb (fun p => String.eqb name (pname p)) open
                     then None else lookup_kw name kwargs).
Proof.
  induction open as [| p open IH]; intros kwargs bound2 rest H.
  - simpl in H. inversion H; subst. simpl. repeat split; auto; intros ? [].
  - simpl in H. destruct (lookup_kw (pname p) kwargs) as [v |] eqn:Ek.
    + destruct (bind_keywords open (remove_kw (pname p) kwargs)) as [[b r] | e] eqn:Eb;
        [|discriminate].
      inversion H; subst. destruct (IH _ _ _ Eb) as (Hb & Hd & Hr).
      split; [|split].
      * intros name. simpl.
        destruct (String.eqb_spec name (pname p)) as [-> | Hne]; [now rewrite Ek|].
        simpl. rewrite Hb, lookup_kw_remove.
        destruct (String.eqb_spec name (pname p)); [congruence | reflexivity].
      * intros q [<- | Hin] Hq; [congruence|].
        apply Hd; [exact Hin|]. rewrite lookup_kw_remove.
        destruct (String.eqb (pname q) (pname p)); [reflexivity | exact Hq].
      * intros name. simpl. rewrite Hr, lookup_kw_remove.
        destruct (String.eqb_spec name (pname p)) as [-> | Hne]; simpl.
        -- now destruct (existsb _ open).
        -- reflexivity.
    + destruct (pdefault p) as [d |] eqn:Ed; [|discriminate].
      destruct (IH _ _ _ H) as (Hb & Hd & Hr).
      split; [|split].
      * intros name. simpl. rewrite Hb.
        destruct (String.eqb_spec name (pname p)) as [-> | Hne]; simpl; [|reflexivity].
        rewrite Ek. now destruct (existsb _ open).
      * intros q [<- | Hin] Hq; [congruence | auto].
      * intros name. simpl. rewrite Hr.
        destruct (String.eqb_spec name (pname p)) as [-> | Hne]; simpl; [|reflexivity].
        rewrite Ek. now destruct (existsb _ open).
Qed.

Lemma lookup_kw_combine (b : kwargs_t) : forall i name a,
  List.NoDup (map fst b) ->
  nth_error (map fst b) i = Some name -> nth_error (map snd b) i = Some a ->
  lookup_kw name b = Some a.
Proof.
  induction b as [| [k v] b IH]; intros i name a Hnd Hn Ha.
  - destruct i; discriminate.
  - inversion Hnd as [| ? ? Hnot Hnd']; subst. destruct i as [| i]; simpl in *.
    + inversion Hn; inversion Ha; subst. now rewrite String.eqb_refl.
    + destruct (String.eqb_spec name k) as [-> | Hne].
      * exfalso. apply Hnot. eapply nth_error_In; eassumption.
      * eapply IH; eassumption.
Qed.

Lemma lookup_kw_defaults_of ps (A : kwargs_t) p :
  List.NoDup (map pname ps) -> In p ps ->
  lookup_kw (pname p) (defaults_of ps A)
  = match lookup_kw (pname p) A with Some v => Some v | None => pdefault p end.
Proof.
  induction ps as [| q ps IH]; intros Hnd Hin; [destruct Hin|].
  inversion Hnd as [| ? ? Hnot Hnd']; subst.
  assert (Hskip : forall name, ~ In name (map pname ps) ->
                               lookup_kw name (defaults_of ps A) = None).
  { clear. intros name. induction ps as [| r ps IH]; simpl; intros H; [reflexivity|].
    destruct (lookup_kw (pname r) A); [|destruct (pdefault r)]; simpl;
      try (destruct (String.eqb_spec name (pname r)) as [-> | Hne]; [tauto|]);
      apply IH; tauto. }
  destruct Hin as [-> | Hin].
  - simpl. destruct (lookup_kw (pname p) A) as [v |] eqn:E.
    + simpl. now rewrite String.eqb_refl.
    + destruct (pdefault p) as [d |] eqn:Ed.
      * simpl. now rewrite String.eqb_refl.
      * now apply Hskip.
  - assert (Hne : pname p <> pname q).
    { intros Heq. apply Hnot. rewrite <- Heq. now apply in_map. }
    simpl. destruct (lookup_kw (pname q) A); [|destruct (pdefault q)]; simpl;
      try (destruct (String.eqb_spec (pname p) (pname q)); [congruence|]);
      now apply IH.
Qed.

Lemma defaults_of_names ps (A : kwargs_t) :
  (forall p, In p ps -> lookup_kw (pname p) A <> None \/ pdefault p <> None) ->
  map fst (defaults_of ps A) = map pname ps.
Proof.
  induction ps as [| q ps IH]; intros H; simpl; [reflexivity|].
  destruct (lookup_kw (pname q) A) eqn:E.
  - simpl. f_equal. apply IH. intros p Hp. apply H. now right.
  - destruct (pdefault q) eqn:Ed.
    + simpl. f_equal. apply IH. intros p Hp. apply H. now right.
    + destruct (H q (or_introl eq_refl)); congruence.
Qed.

Lemma existsb_pname name (ps : list param) :
  existsb (fun p => String.eqb name (pname p)) ps = true <-> In name (map pname ps).
Proof.
  rewrite existsb_exists, in_map_iff. split.
  - intros (p & Hin & Heq). apply String.eqb_eq in Heq. eauto.
  - intros (p & Heq & Hin). exists p. split; [exact Hin|]. now apply String.eqb_eq.
Qed.

(** After a successful bind and [apply_defaults], every parameter has
    a value, in signature order: the positional argument at its place, or
    else the keyword argument of its name, or else its default. *)
Lemma sig_bind_arguments ps args kwargs bound :
  List.NoDup (map pname ps) ->
  sig_bind (Params ps) args kwargs = Return bound ->
  let arguments := apply_defaults (Params ps) bound in
  map fst arguments = map pname ps
  /\ (forall i p a, nth_error ps i = Some p -> nth_error args i = Some a ->
                    lookup_kw (pname p) arguments = Some a)
  /\ (forall k v, lookup_kw k kwargs = Some v -> lookup_kw k arguments = Some v)
  /\ (forall i p, nth_error ps i = Some p -> (length args <= i)%nat ->
                  lookup_kw (pname p) kwargs = None ->
                  pdefault p <> None /\ lookup_kw (pname p) arguments = pdefault p).
Proof.
  intros Hnd Hbind arguments. unfold sig_bind in Hbind.
  destruct (bind_positional ps args kwargs) as [[b1 open] | e] eqn:E1; [|discriminate].
  destruct (bind_keywords open kwargs) as [[b2 rest] | e] eqn:E2; [|discriminate].
  destruct rest as [| kv rest]; [|discriminate].
  inversion Hbind; subst bound. clear Hbind.
  destruct (bind_positional_spec _ _ _ _ _ E1) as (Hlen & Hf1 & Hs1 & Hopen & Hk1).
  destruct (bind_keywords_spec _ _ _ _ E2) as (Hb2 & Hd2 & Hrest).
  set (n := length args) in *.
  assert (Hsplit : map pname ps = (map fst b1 ++ map pname open)%list).
  { rewrite Hf1, Hopen, <- map_app. now rewrite firstn_skipn. }
  assert (Hnd1 : List.NoDup (map fst b1)).
  { rewrite Hsplit in Hnd. now apply List.NoDup_app_remove_r in Hnd. }
  assert (Hdisj : forall name, In name (map fst b1) -> ~ In name (map pname open)).
  { intros name H1 H2. rewrite Hsplit in Hnd.
    apply NoDup_ListNoDup, NoDup_app in Hnd. destruct Hnd as (_ & Hd & _).
    apply (Hd name); now apply list_elem_of_In. }
  (* the value bound to a parameter before the defaults *)
  assert (Hpos : forall i p a, nth_error ps i = Some p -> nth_error args i = Some a ->
                               lookup_kw (pname p) (b1 ++ b2)%list = Some a).
  { intros i p a Hp Ha. rewrite lookup_kw_app.
    rewrite (lookup_kw_combine b1 i (pname p) a); auto.
    - rewrite Hf1. rewrite <- firstn_map.
      rewrite nth_error_firstn.
      assert (i < n)%nat by (apply nth_error_Some; congruence).
      destruct (Nat.ltb_spec i n); [|lia]. now apply map_nth_error.
    - now rewrite Hs1. }
  assert (Hopenv : forall name, In name (map pname open) ->
                                lookup_kw name (b1 ++ b2)%list = lookup_kw name kwargs).
  { intros name Hin. rewrite lookup_kw_app.
    rewrite (lookup_kw_None name b1) by (intros H1; now apply (Hdisj name)).
    rewrite Hb2. apply existsb_pname in Hin. now rewrite Hin. }
  assert (Hlate : forall i p, nth_error ps i = Some p -> (n <= i)%nat -> In p open).
  { intros i p Hp Hi. rewrite Hopen.
    apply nth_error_In with (n := (i - n)%nat).
    rewrite nth_error_skipn. now replace (n + (i - n))%nat with i by lia. }
  subst arguments. cbn [apply_defaults].
  split; [|split; [|split]].
  - apply defaults_of_names. intros p Hp.
    destruct (In_nth_error _ _ Hp) as [i Hi].
    destruct (Nat.lt_ge_cases i n) as [Hlt | Hge].
    + left. destruct (nth_error args i) as [a |] eqn:Ea.
      * rewrite (Hpos i p a Hi Ea). discriminate.
      * apply nth_error_None in Ea. fold n in Ea. lia.
    + pose proof (Hlate i p Hi Hge) as Ho.
      rewrite (Hopenv (pname p)) by now apply in_map.
      destruct (lookup_kw (pname p) kwargs) eqn:Ek; [left; discriminate|].
      right. now apply Hd2.
  - intros i p a Hp Ha.
    rewrite lookup_kw_defaults_of by (auto; eapply nth_error_In; eassumption).
    now rewrite (Hpos i p a Hp Ha).
  - intros k v Hk.
    assert (Hin : In k (map pname open)).
    { apply existsb_pname. specialize (Hrest k). simpl in Hrest.
      destruct (existsb _ open); [reflexivity | congruence]. }
    apply in_map_iff in Hin. destruct Hin as (p & <- & Hp).
    rewrite lookup_kw_defaults_of.
    + rewrite (Hopenv (pname p)) by now apply in_map. now rewrite Hk.
    + exact Hnd.
    + rewrite <- (firstn_skipn n ps). apply in_or_app. right. now rewrite <- Hopen.
  - intros i p Hp Hi Hk.
    pose proof (Hlate i p Hp Hi) as Ho. split; [now apply Hd2|].
    rewrite lookup_kw_defaults_of by (auto; eapply nth_error_In; eassumption).
    rewrite (Hopenv (pname p)) by now apply in_map. now rewrite Hk.
Qed.

(** ** Validation *)

Lemma check_types_outcome {W} expected arguments (s : machine W) :
  (exists p t v, mismatched expected arguments p t v
                 /\ check_types expected arguments s = (Raise (mismatch_error p t v), s))
  \/ ((forall p t v, In (p, t) expected -> lookup_kw p arguments = Some v ->
                     isinstance v t = true)
      /\ check_types expected arguments s = (Return tt, s)).
Proof.
  induction expected as [| [p t] rest IH]; simpl.
  - right. split; [intros ? ? ? [] | reflexivity].
  - destruct (lookup_kw p arguments) as [v |] eqn:Hv.
    + destruct (isinstance v t) eqn:Hi.
      * destruct IH as [(p' & t' & v' & (Hin & Hl & Hm) & Hc) | [Hall Hc]].
        -- left. exists p', t', v'. split; [|exact Hc].
           split; [right; exact Hin | split; assumption].
        -- right. split; [|exact Hc].
           intros p' t' v' [Heq | Hin] Hl; [|eauto].
           inversion Heq; subst. congruence.
      * left. exists p, t, v. split; [|reflexivity].
        split; [left; reflexivity | split; assumption].
    + destruct IH as [(p' & t' & v' & (Hin & Hl & Hm) & Hc) | [Hall Hc]].
      * left. exists p', t', v'. split; [|exact Hc].
        split; [right; exact Hin | split; assumption].
      * right. split; [|exact Hc].
        intros p' t' v' [Heq | Hin] Hl; [|eauto].
        inversion Heq; subst. congruence.
Qed.

Lemma validate_types_unfold {W} expected (func : callable W) args kwargs s :
  call (validate_types expected func) args kwargs s =
  match sig_bind (__signature__ func) args kwargs with
  | Raise e => (Raise e, s)
  | Return bound =>
      match check_types expected (apply_defaults (__signature__ func) bound) s with
      | (Return _, s') => call func args kwargs s'
      | (Raise e, s') => (Raise e, s')
      end
  end.
Proof.
  simpl. unfold mbind, M_bind, lift_result.
  destruct (sig_bind (__signature__ func) args kwargs); reflexivity.
Qed.

Lemma validate_types_mismatch {W} expected (func : callable W) args kwargs s bound :
  sig_bind (__signature__ func) args kwargs = Return bound ->
  (exists p t v, mismatched expected (apply_defaults (__signature__ func) bound) p t v) ->
  exists p t v,
    mismatched expected (apply_defaults (__signature__ func) bound) p t v
    /\ call (validate_types expected func) args kwargs s = (Raise (mismatch_error p t v), s).
Proof.
  intros Hb (p0 & t0 & v0 & Hin0 & Hl0 & Hm0).
  rewrite validate_types_unfold, Hb.
  destruct (check_types_outcome expected (apply_defaults (__signature__ func) bound) s)
    as [(p & t & v & Hmis & Hc) | [Hall Hc]].
  - exists p, t, v. split; [exact Hmis | now rewrite Hc].
  - specialize (Hall p0 t0 v0 Hin0 Hl0). congruence.
Qed.

(** C5: the wrapper binds the arguments to the parameters and applies the
    defaults before anything else (each parameter gets the positional
    argument at its place, or else the keyword argument of its name, or else
    its default); if binding fails, or some configured
    parameter holds a value that is not an instance of its expected type,
    the call raises and the machine is left as it was (the wrapped function
    is not called); the [TypeError] of a mismatch names the parameter, the
    expected type and the actual type.  When every configured parameter
    matches, the call is the call of the wrapped function.  [create_user]
    accepts name John, age 30, and rejects age thirty naming [age]. *)
Theorem validate_types_checks_before_calling {W} expected (func : callable W)
    args kwargs (s : machine W) :
  (forall e, sig_bind (__signature__ func) args kwargs = Raise e ->
     call (validate_types expected func) args kwargs s = (Raise e, s))
  /\ (forall ps bound,
      __signature__ func = Params ps -> List.NoDup (map pname ps) ->
      sig_bind (Params ps) args kwargs = Return bound ->
      let arguments := apply_defaults (Params ps) bound in
      map fst arguments = map pname ps
      /\ (forall i p a, nth_error ps i = Some p -> nth_error args i = Some a ->
                        lookup_kw (pname p) arguments = Some a)
      /\ (forall k v, lookup_kw k kwargs = Some v -> lookup_kw k arguments = Some v)
      /\ (forall i p, nth_error ps i = Some p -> (length args <= i)%nat ->
                      lookup_kw (pname p) kwargs = None ->
                      pdefault p <> None /\ lookup_kw (pname p) arguments = pdefault p))
  /\ (forall bound, sig_bind (__signature__ func) args kwargs = Return bound ->
      let arguments := apply_defaults (__signature__ func) bound in
      ((exists p t v, mismatched expected arguments p t v) ->
       exists p t v,
         mismatched expected arguments p t v
         /\ call (validate_types expected func) args kwargs s
            = (Raise (TypeError (p ++ " must be " ++ type_name t ++ ", got "
                                   ++ type_name (type_of v))), s))
      /\ ((forall p t v, In (p, t) expected -> lookup_kw p arguments = Some v ->
                         isinstance v t = true) ->
          call (validate_types expected func) args kwargs s = call func args kwargs s))
  /\ call create_user []
       [("name", VStr "John"); ("age", VInt 30); ("email", VStr "x@y.com")] s
     = (Return (VDict [(VStr "name", VStr "John"); (VStr "age", VInt 30);
                       (VStr "email", VStr "x@y.com")]),
        write [Invoked "create_user" []
                 [("name", VStr "John"); ("age", VInt 30); ("email", VStr "x@y.com")]] s)
  /\ call create_user []
       [("name", VStr "John"); ("age", VStr "thirty"); ("email", VStr "x@y.com")] s
     = (Raise (TypeError "age must be int, got str"), s).
Proof.
  split; [|split; [|split; [|split]]].
  - intros e He. now rewrite validate_types_unfold, He.
  - intros ps bound _ Hnd Hb. now apply sig_bind_arguments.
  - intros bound Hb arguments. split.
    + intros Hex. apply (validate_types_mismatch expected func args kwargs s bound Hb Hex).
    + intros Hall. rewrite validate_types_unfold, Hb.
      destruct (check_types_outcome expected arguments s)
        as [(p & t & v & (Hin & Hl & Hm) & Hc) | [_ Hc]].
      * specialize (Hall p t v Hin Hl). congruence.
      * fold arguments. now rewrite Hc.
  - reflexivity.
  - reflexivity.
Qed.

(** ** Timing, logging and validation stacked *)

Lemma timer_unfold {W} (func : callable W) args kwargs s :
  call (timer func) args kwargs s =
  match call func args kwargs (tick s) with
  | (Return v, s1) =>
      (Return v,
       write [Printed [Text (__name__ func ++ " took ");
                       Float4 (clock s1 (ticks s1) - clock s (ticks s))%Q;
                       Text " seconds to execute"]] (tick s1))
  | (Raise e, s1) => (Raise e, s1)
  end.
Proof.
  simpl. unfold mbind, M_bind, time_time.
  destruct (call func args kwargs (tick s)) as [[v | e] s1]; reflexivity.
Qed.

Lemma log_calls_raise {W} level (func : callable W) args kwargs s msg e s1 :
  msg = "Calling " ++ __name__ func ++ "("
          ++ join_nonempty [join ", " (map str args);
                            join ", " (map (fun kv => fst kv ++ "=" ++ str (snd kv)) kwargs)]
          ++ ")" ->
  call func args kwargs (snd (logger_log level msg s)) = (Raise e, s1) ->
  call (log_calls level func) args kwargs s =
  (Raise e, write [Logged ERROR (__name__ func ++ " raised " ++ exc_type e ++ ": "
                                   ++ exc_msg e)] s1).
Proof.
  intros -> Hc. simpl. unfold mbind, M_bind, try_except.
  destruct (logger_log level _ s) as [[[] | e0] s0] eqn:Hl.
  - simpl in Hc. rewrite Hc. reflexivity.
  - unfold logger_log in Hl. destruct (INFO <=? level)%Z; discriminate.
Qed.

Lemma logger_log_out {W} level msg (s : machine W) :
  snd (logger_log level msg s) = s
  \/ snd (logger_log level msg s) = write [Logged level msg] s.
Proof. unfold logger_log. destruct (INFO <=? level)%Z; simpl; auto. Qed.

(** C2, as the code has it.  [timer] reads the clock, makes the call, and
    only when the call returns reads the clock again and prints the
    duration; an error of the call goes through it unchanged and nothing is
    printed.  Stacked outside [log_calls] outside [validate_types], a type
    mismatch therefore leaves the wrapped function uncalled, is logged as an
    ERROR record, reaches the caller unchanged, and no duration is
    reported. *)
Theorem stacked_mismatch_is_logged_but_not_timed {W} (func : callable W)
    args kwargs (s : machine W) :
  (forall e s1, call func args kwargs (tick s) = (Raise e, s1) ->
     call (timer func) args kwargs s = (Raise e, s1))
  /\ (forall v s1, call func args kwargs (tick s) = (Return v, s1) ->
      call (timer func) args kwargs s =
      (Return v,
       write [Printed [Text (__name__ func ++ " took ");
                       Float4 (clock s1 (ticks s1) - clock s (ticks s))%Q;
                       Text " seconds to execute"]] (tick s1)))
  /\ (forall expected level bound,
      sig_bind (__signature__ func) args kwargs = Return bound ->
      (exists p t v,
          mismatched expected (apply_defaults (__signature__ func) bound) p t v) ->
      exists p t v evs,
        mismatched expected (apply_defaults (__signature__ func) bound) p t v
        /\ call (timer (log_calls level (validate_types expected func))) args kwargs s
           = (Raise (mismatch_error p t v), write evs (tick s))
        /\ In (Logged ERROR (__name__ func ++ " raised TypeError: "
                               ++ exc_msg (mismatch_error p t v))) evs
        /\ invocations evs = 0
        /\ (forall line, ~ In (Printed line) evs)).
Proof.
  split; [|split].
  - intros e s1 H. now rewrite timer_unfold, H.
  - intros v s1 H. now rewrite timer_unfold, H.
  - intros expected level bound Hb Hex.
    set (msg := "Calling " ++ __name__ func ++ "("
          ++ join_nonempty [join ", " (map str args);
                            join ", " (map (fun kv => fst kv ++ "=" ++ str (snd kv)) kwargs)]
          ++ ")").
    destruct (validate_types_mismatch expected func args kwargs
                (snd (logger_log level msg (tick s))) bound Hb Hex)
      as (p & t & v & Hmis & Hc).
    pose proof (log_calls_raise level (validate_types expected func) args kwargs
                  (tick s) msg _ _ eq_refl Hc) as Hlog.
    exists p, t, v.
    destruct (logger_log_out level msg (tick s)) as [Heq | Heq]; rewrite Heq in Hlog.
    + exists [Logged ERROR (__name__ func ++ " raised TypeError: "
                              ++ exc_msg (mismatch_error p t v))].
      split; [exact Hmis|]. split; [|split; [|split]].
      * rewrite timer_unfold. simpl __name__ in *. now rewrite Hlog.
      * left; reflexivity.
      * reflexivity.
      * intros line [H | []]. discriminate.
    + exists [Logged level msg;
              Logged ERROR (__name__ func ++ " raised TypeError: "
                              ++ exc_msg (mismatch_error p t v))].
      split; [exact Hmis|]. split; [|split; [|split]].
      * rewrite timer_unfold. simpl __name__ in *. rewrite Hlog.
        unfold write. simpl. now rewrite <- app_assoc.
      * right; left; reflexivity.
      * reflexivity.
      * intros line [H | [H | []]]; discriminate.
Qed.

(** C2 as stated fails on [multiply] called with a string for [x]: the
    error is logged and reaches the caller, but [timer] never reads the
    clock a second time and prints no duration. *)
Lemma multiply_mismatch_reports_no_duration :
  let (r, s) := call multiply [VStr "4"; VInt 5] []
                  (boot tt (fun n => inject_Z (Z.of_nat n))) in
  r = Raise (TypeError "x must be int, got str")
  /\ out s = [Logged 20 "Calling multiply(4, 5)";
              Logged 40 "multiply raised TypeError: x must be int, got str"]
  /\ ticks s = 1%nat
  /\ ~ exists line, In (Printed line) (out s).
Proof.
  vm_compute. repeat split.
  intros [line [H | [H | []]]]; discriminate.
Qed.

(** ** Rounding to the nearest double is monotone *)

Lemma round_half_even_bounds a :
  (Qfloor a <= round_half_even a <= Qfloor a + 1)%Z.
Proof.
  unfold round_half_even. cbv zeta.
  destruct (a - inject_Z (Qfloor a) ?= 1 # 2)%Q; [destruct (Z.even (Qfloor a))| |]; lia.
Qed.

Lemma round_half_even_inject k : round_half_even (inject_Z k) = k.
Proof.
  unfold round_half_even. cbv zeta. rewrite Qfloor_Z.
  destruct (Qcompare_spec (inject_Z k - inject_Z k) (1 # 2)) as [H | H | H];
    [exfalso; lra | reflexivity | exfalso; lra].
Qed.

Lemma round_half_even_mono a b :
  (a <= b)%Q -> (round_half_even a <= round_half_even b)%Z.
Proof.
  intros Hab.
  pose proof (Qfloor_resp_le a b Hab) as Hf.
  destruct (Z.eq_dec (Qfloor a) (Qfloor b)) as [Heq | Hne].
  - unfold round_half_even. cbv zeta. rewrite <- Heq.
    destruct (Qcompare_spec (a - inject_Z (Qfloor a)) (1 # 2)) as [Ha | Ha | Ha];
      destruct (Qcompare_spec (b - inject_Z (Qfloor a)) (1 # 2)) as [Hb | Hb | Hb];
      try (destruct (Z.even (Qfloor a))); try lia; exfalso; lra.
  - pose proof (round_half_even_bounds a). pose proof (round_half_even_bounds b). lia.
Qed.

Lemma two_power_pos e : (0 < 2 ^ e)%Q.
Proof. apply Qpower_0_lt. reflexivity. Qed.

Lemma two_power_plus a b : (2 ^ (a + b) == 2 ^ a * 2 ^ b)%Q.
Proof. apply Qpower_plus. discriminate. Qed.

Lemma two_power_le a b : (a <= b)%Z -> (2 ^ a <= 2 ^ b)%Q.
Proof. intros H. apply Qpower_le_compat_l; [exact H | discriminate]. Qed.

Lemma two_power_inject k : (0 <= k)%Z -> (inject_Z (2 ^ k) == 2 ^ k)%Q.
Proof. intros H. now rewrite Zpower_Qpower. Qed.

(** [exponent q] is the binary exponent of [q]. *)
Lemma exponent_spec q :
  (0 < q)%Q -> (2 ^ exponent q <= q)%Q /\ (q < 2 ^ (exponent q + 1))%Q.
Proof.
  intros Hq. unfold exponent. cbv zeta.
  destruct q as [n d]. cbn [Qnum Qden].
  assert (Hn : (0 < n)%Z).
  { unfold Qlt in Hq. cbn in Hq. lia. }
  set (ln := Z.log2 n). set (ld := Z.log2 (Z.pos d)). set (e := (ln - ld)%Z).
  pose proof (Z.log2_spec n Hn) as [Hn1 Hn2]. fold ln in Hn1, Hn2.
  pose proof (Z.log2_spec (Z.pos d) ltac:(lia)) as [Hd1 Hd2]. fold ld in Hd1, Hd2.
  pose proof (Z.log2_nonneg n) as Hln. fold ln in Hln.
  pose proof (Z.log2_nonneg (Z.pos d)) as Hld. fold ld in Hld.
  assert (HN1 : (2 ^ ln <= inject_Z n)%Q).
  { rewrite <- two_power_inject by exact Hln. now rewrite <- Zle_Qle. }
  assert (HN2 : (inject_Z n < 2 ^ (ln + 1))%Q).
  { rewrite <- two_power_inject by lia. now rewrite <- Zlt_Qlt. }
  assert (HD1 : (2 ^ ld <= inject_Z (Z.pos d))%Q).
  { rewrite <- two_power_inject by exact Hld. now rewrite <- Zle_Qle. }
  assert (HD2 : (inject_Z (Z.pos d) < 2 ^ (ld + 1))%Q).
  { rewrite <- two_power_inject by lia. now rewrite <- Zlt_Qlt. }
  assert (HD0 : (0 < inject_Z (Z.pos d))%Q) by (unfold Qlt; cbn; lia).
  assert (Hq' : (n # d == inject_Z n / inject_Z (Z.pos d))%Q) by apply Qmake_Qdiv.
  pose proof (two_power_pos ln) as Pln. pose proof (two_power_pos ld) as Pld.
  pose proof (two_power_pos e) as Pe.
  assert (E1 : (2 ^ (ln + 1) == 2 ^ ln * 2)%Q) by (rewrite two_power_plus; reflexivity).
  assert (E2 : (2 ^ (ld + 1) == 2 ^ ld * 2)%Q) by (rewrite two_power_plus; reflexivity).
  assert (E3 : (2 ^ ln == 2 ^ e * 2 ^ ld)%Q).
  { rewrite <- two_power_plus. unfold e. now replace (ln - ld + ld)%Z with ln by lia. }
  assert (E4 : (2 ^ (e + 1) == 2 ^ e * 2)%Q) by (rewrite two_power_plus; reflexivity).
  assert (E5 : (2 ^ e == 2 ^ (e - 1) * 2)%Q).
  { rewrite <- (two_power_plus (e - 1) 1). now replace (e - 1 + 1)%Z with e by lia. }
  pose proof (two_power_pos (e - 1)) as Pe1.
  (* q * D = N *)
  assert (HqD : ((n # d) * inject_Z (Z.pos d) == inject_Z n)%Q).
  { rewrite Hq'. field. lra. }
  assert (Hup : (n # d < 2 ^ (e + 1))%Q).
  { apply (Qmult_lt_r _ _ (inject_Z (Z.pos d)) HD0). rewrite HqD.
    rewrite E4. nra. }
  assert (Hlow : (2 ^ (e - 1) < n # d)%Q).
  { apply (Qmult_lt_r _ _ (inject_Z (Z.pos d)) HD0). rewrite HqD. nra. }
  destruct (Qcompare_spec (n # d) (2 ^ e)) as [Hc | Hc | Hc].
  - split; [rewrite Hc; apply Qle_refl | exact Hup].
  - replace (e - 1 + 1)%Z with e by lia. split; [apply Qlt_le_weak; exact Hlow | exact Hc].
  - split; [apply Qlt_le_weak; exact Hc | exact Hup].
Qed.

Lemma exponent_mono x y :
  (0 < x)%Q -> (x <= y)%Q -> (exponent x <= exponent y)%Z.
Proof.
  intros Hx Hxy.
  destruct (exponent_spec x Hx) as [Hx1 _].
  destruct (exponent_spec y ltac:(lra)) as [_ Hy2].
  assert (H : (2 ^ exponent x < 2 ^ (exponent y + 1))%Q) by lra.
  apply Qpower_lt_compat_l_inv in H; [lia | reflexivity].
Qed.

Lemma ulp_pos q : (0 < ulp q)%Q.
Proof. apply two_power_pos. Qed.

Lemma round_positive_nonneg q : (0 < q)%Q -> (0 <= round_positive q)%Q.
Proof.
  intros Hq. unfold round_positive. pose proof (ulp_pos q) as Hu.
  assert (H0 : (0 <= q / ulp q)%Q).
  { apply Qle_shift_div_l; [exact Hu | lra]. }
  pose proof (round_half_even_mono _ _ H0) as Hm.
  change 0%Q with (inject_Z 0) in Hm. rewrite round_half_even_inject in Hm.
  apply Qmult_le_0_compat; [|lra].
  change 0%Q with (inject_Z 0). now rewrite <- Zle_Qle.
Qed.

Lemma round_positive_mono x y :
  (0 < x)%Q -> (x <= y)%Q -> (round_positive x <= round_positive y)%Q.
Proof.
  intros Hx Hxy. assert (Hy : (0 < y)%Q) by lra.
  pose proof (exponent_mono x y Hx Hxy) as He.
  destruct (exponent_spec x Hx) as [Hx1 Hx2].
  destruct (exponent_spec y Hy) as [Hy1 Hy2].
  unfold round_positive, ulp.
  set (ex := Z.max (exponent x) (-1022)). set (ey := Z.max (exponent y) (-1022)).
  pose proof (two_power_pos (ex - 52)) as Pux. pose proof (two_power_pos (ey - 52)) as Puy.
  destruct (Z.eq_dec ex ey) as [Heq | Hne].
  - rewrite <- Heq.
    apply Qmult_le_compat_r; [|lra].
    rewrite <- Zle_Qle. apply round_half_even_mono.
    apply Qmult_le_compat_r; [exact Hxy|].
    apply Qlt_le_weak. now apply Qinv_lt_0_compat.
  - assert (Hlt : (ex < ey)%Z) by (subst ex ey; lia).
    assert (Hey : ey = exponent y) by (subst ex ey; lia).
    (* the rounded [x] stays at or below the next power of two *)
    assert (P1 : (inject_Z (round_half_even (x / 2 ^ (ex - 52))) * 2 ^ (ex - 52)
                  <= 2 ^ (ex + 1))%Q).
    { assert (Hb : (x / 2 ^ (ex - 52) <= inject_Z (2 ^ 53))%Q).
      { apply Qle_shift_div_r; [exact Pux|].
        rewrite two_power_inject by lia. rewrite <- two_power_plus.
        replace (53 + (ex - 52))%Z with (ex + 1)%Z by lia.
        assert (Hp : (2 ^ (exponent x + 1) <= 2 ^ (ex + 1))%Q)
          by (apply two_power_le; subst ex; lia).
        lra. }
      apply round_half_even_mono in Hb. rewrite round_half_even_inject in Hb.
      rewrite Zle_Qle in Hb. rewrite two_power_inject in Hb by lia.
      assert (Hs : (2 ^ (ex + 1) == 2 ^ 53 * 2 ^ (ex - 52))%Q).
      { rewrite <- two_power_plus. now replace (53 + (ex - 52))%Z with (ex + 1)%Z by lia. }
      rewrite Hs. apply Qmult_le_compat_r; [exact Hb | lra]. }
    (* the rounded [y] stays at or above the power of two below it *)
    assert (P2 : (2 ^ ey
                  <= inject_Z (round_half_even (y / 2 ^ (ey - 52))) * 2 ^ (ey - 52))%Q).
    { assert (Hb : (inject_Z (2 ^ 52) <= y / 2 ^ (ey - 52))%Q).
      { apply Qle_shift_div_l; [exact Puy|].
        rewrite two_power_inject by lia. rewrite <- two_power_plus.
        replace (52 + (ey - 52))%Z with ey by lia. rewrite Hey. exact Hy1. }
      apply round_half_even_mono in Hb. rewrite round_half_even_inject in Hb.
      rewrite Zle_Qle in Hb. rewrite two_power_inject in Hb by lia.
      assert (Hs : (2 ^ ey == 2 ^ 52 * 2 ^ (ey - 52))%Q).
      { rewrite <- two_power_plus. now replace (52 + (ey - 52))%Z with ey by lia. }
      rewrite Hs. apply Qmult_le_compat_r; [exact Hb | lra]. }
    pose proof (two_power_le (ex + 1) ey ltac:(lia)) as P3.
    lra.
Qed.

Lemma round_double_mono x y : (x <= y)%Q -> (round_double x <= round_double y)%Q.
Proof.
  intros Hxy. unfold round_double.
  destruct (Qcompare_spec x 0) as [Hx | Hx | Hx];
    destruct (Qcompare_spec y 0) as [Hy | Hy | Hy]; try (exfalso; lra); try lra.
  - pose proof (round_positive_nonneg y Hy). lra.
  - pose proof (round_positive_nonneg (- x) ltac:(lra)). lra.
  - pose proof (round_positive_mono (- y) (- x) ltac:(lra) ltac:(lra)). lra.
  - pose proof (round_positive_nonneg (- x) ltac:(lra)).
    pose proof (round_positive_nonneg y Hy). lra.
  - now apply round_positive_mono.
Qed.

Lemma round_double_0 : round_double 0 = 0%Q.
Proof. reflexivity. Qed.

(** An age that rounds below [n] does so all the more when it is smaller. *)
Lemma float_lt_int_mono a b n :
  (a <= b)%Q ->
  float_lt_int (float_of b) n = true -> float_lt_int (float_of a) n = true.
Proof.
  intros Hab. pose proof (round_double_mono a b Hab) as Hr.
  unfold float_of. cbv zeta.
  destruct (Qle_bool (2 ^ 1024) (round_double b)) eqn:B1; [discriminate|].
  assert (Hb1 : ~ (2 ^ 1024 <= round_double b)%Q).
  { intros H. apply Qle_bool_iff in H. congruence. }
  destruct (Qle_bool (2 ^ 1024) (round_double a)) eqn:A1.
  { apply Qle_bool_iff in A1. exfalso. apply Hb1. lra. }
  destruct (Qle_bool (round_double b) (- 2 ^ 1024)) eqn:B2.
  - apply Qle_bool_iff in B2. intros _.
    assert (A2 : Qle_bool (round_double a) (- 2 ^ 1024) = true)
      by (apply Qle_bool_iff; lra).
    now rewrite A2.
  - destruct (Qle_bool (round_double a) (- 2 ^ 1024)); [reflexivity|].
    cbn [float_lt_int]. rewrite !Bool.negb_true_iff. intros Hn.
    destruct (Qle_bool (inject_Z n) (round_double a)) eqn:An; [|reflexivity].
    apply Qle_bool_iff in An.
    assert (Bn : Qle_bool (inject_Z n) (round_double b) = true)
      by (apply Qle_bool_iff; lra).
    congruence.
Qed.

(** An age that is not negative does not round below an [int] that is not
    positive. *)
Lemma float_lt_int_nonneg a n :
  (0 <= a)%Q -> (n <= 0)%Z -> float_lt_int (float_of a) n = false.
Proof.
  intros Ha Hn. pose proof (round_double_mono 0 a Ha) as Hr.
  rewrite round_double_0 in Hr.
  unfold float_of. cbv zeta.
  destruct (Qle_bool (2 ^ 1024) (round_double a)); [reflexivity|].
  destruct (Qle_bool (round_double a) (- 2 ^ 1024)) eqn:A2.
  - apply Qle_bool_iff in A2. exfalso.
    pose proof (two_power_pos 1024). lra.
  - cbn [float_lt_int]. apply Bool.negb_false_iff. apply Qle_bool_iff.
    assert (Hz : (inject_Z n <= 0)%Q) by (unfold Qle; cbn; lia).
    lra.
Qed.

(** From here on the rounding is computed, not unfolded. *)
Opaque round_double float_of float_literal.

(** ** Rate limiting *)

Lemma Qlt_bool_iff x y : Qlt_bool x y = true <-> (x < y)%Q.
Proof.
  unfold Qlt_bool. rewrite negb_true_iff. split.
  - intros H. apply Qnot_le_lt. intros Hle. apply Qle_bool_iff in Hle. congruence.
  - intros H. destruct (Qle_bool y x) eqn:E; [|reflexivity].
    apply Qle_bool_iff in E. exfalso. apply (Qlt_not_le _ _ H E).
Qed.

Lemma Qlt_bool_false_iff x y : Qlt_bool x y = false <-> (y <= x)%Q.
Proof.
  unfold Qlt_bool. rewrite negb_false_iff. apply Qle_bool_iff.
Qed.

Lemma prune_In now time_window cs t :
  In t (prune now time_window cs) <->
  In t cs /\ float_lt_int (float_sub now t) time_window = true.
Proof. unfold prune. rewrite List.filter_In. reflexivity. Qed.

(** The age of a recorded time, as [prune] computes it, is below the
    window all the more at an earlier [now], and for a later recorded
    time. *)
Lemma age_at_earlier_now now1 now2 t time_window :
  (now1 <= now2)%Q ->
  float_lt_int (float_sub now2 t) time_window = true ->
  float_lt_int (float_sub now1 t) time_window = true.
Proof. intros H. apply float_lt_int_mono. lra. Qed.


Lemma prune_length now time_window cs :
  (length (prune now time_window cs) <= length cs)%nat.
Proof. apply List.filter_length_le. Qed.

Lemma rate_limit_unfold {W} max_calls time_window (func : callable W) args kwargs s :
  call (rate_limit max_calls time_window func) args kwargs s =
  let now := clock s (ticks s) in
  let alive := prune now time_window (calls s) in
  if (max_calls <=? Z.of_nat (length alive))%Z
  then (Raise (RateLimitExceeded max_calls time_window), store_calls alive (tick s))
  else call func args kwargs (store_calls (alive ++ [now]) (tick s)).
Proof.
  simpl. unfold mbind, M_bind. simpl.
  destruct (max_calls <=? _)%Z; reflexivity.
Qed.

(** What a call of the limited function does to the window is
    [window_step]. *)
Lemma rate_limit_window {W} max_calls time_window name doc ps body args kwargs
    (s : machine W) :
  let step := window_step max_calls time_window (clock s (ticks s)) (calls s) in
  calls (snd (call (rate_limit max_calls time_window (def name doc ps body)) args kwargs s))
  = snd step
  /\ (fst step = false <->
      fst (call (rate_limit max_calls time_window (def name doc ps body)) args kwargs s)
      = Raise (RateLimitExceeded max_calls time_window)
      /\ out (snd (call (rate_limit max_calls time_window (def name doc ps body))
                     args kwargs s)) = out s).
Proof.
  rewrite rate_limit_unfold. unfold window_step. cbv zeta.
  destruct (max_calls <=? _)%Z.
  - simpl. split; [reflexivity|]. split; auto.
  - rewrite call_def. simpl. split; [reflexivity|].
    split; [discriminate|]. intros [_ H].
    apply (f_equal (@length event)) in H. rewrite length_app in H. simpl in H. lia.
Qed.





Lemma prune_keep now time_window t cs :
  float_lt_int (float_sub now t) time_window = true ->
  prune now time_window (t :: cs) = t :: prune now time_window cs.
Proof. intros H. unfold prune. cbn [List.filter]. now rewrite H. Qed.

Lemma prune_drop now time_window t cs :
  float_lt_int (float_sub now t) time_window = false ->
  prune now time_window (t :: cs) = prune now time_window cs.
Proof. intros H. unfold prune. cbn [List.filter]. now rewrite H. Qed.




(** C4 as stated fails on [api_call] called at the clock readings 0.1,
    10.1, 10.1 and 10.1: the fourth call comes less than 10 seconds after
    the first, but the float subtraction [10.1 - 0.1] rounds to 10.0, which
    is not below 10, so the first call is pruned and the fourth call is let
    through as well. *)
Lemma rate_limit_admits_a_fourth_call_within_ten_seconds :
  let readings n :=
    if (n =? 0)%nat then float_literal (1 # 10) else float_literal (101 # 10) in
  let (rs, s) := call_seq api_call [([], []); ([], []); ([], []); ([], [])]
                   (boot tt readings) in
  (readings 3%nat - readings 0%nat < 10)%Q
  /\ float_sub (readings 3%nat) (readings 0%nat) = float_of 10
  /\ rs = [Return (VStr "API response"); Return (VStr "API response");
           Return (VStr "API response"); Return (VStr "API response")]
  /\ rs <> [Return (VStr "API response"); Return (VStr "API response");
            Return (VStr "API response"); Raise (RateLimitExceeded 3 10)]
  /\ invocations (out s) = 4%nat.
Proof.
  vm_compute. split; [reflexivity|]. split; [reflexivity|]. split; [reflexivity|].
  split; [discriminate | reflexivity].
Qed.

(** *** A refused call leaves no trace in the window *)

Lemma filter_dropped {A} (p : A -> bool) l :
  (length (List.filter p l) < length l)%nat -> exists y, In y l /\ p y = false.
Proof.
  induction l as [| x l IH]; simpl; [lia|].
  destruct (p x) eqn:E; simpl; intros H.
  - destruct IH as (y & Hy & Hp); [lia|]. exists y. auto.
  - exists x. auto.
Qed.

Lemma filter_filter_imp {A} (p q : A -> bool) l :
  (forall x, In x l -> p x = true -> q x = true) ->
  List.filter p (List.filter q l) = List.filter p l.
Proof.
  induction l as [| x l IH]; simpl; intros H; [reflexivity|].
  destruct (q x) eqn:Eq; simpl.
  - rewrite IH by auto. reflexivity.
  - destruct (p x) eqn:Ep.
    + rewrite (H x) in Eq by auto. discriminate.
    + apply IH. auto.
Qed.

Lemma filter_comm {A} (p q : A -> bool) l :
  List.filter p (List.filter q l) = List.filter q (List.filter p l).
Proof.
  induction l as [| x l IH]; simpl; [reflexivity|].
  destruct (q x) eqn:Eq, (p x) eqn:Ep; simpl; rewrite ?Eq, ?Ep, IH; reflexivity.
Qed.

Lemma window_inv_step max_calls time_window now A B n :
  window_inv max_calls time_window now A B ->
  fst (window_step max_calls time_window n A) = fst (window_step max_calls time_window n B)
  /\ window_inv max_calls time_window now
       (snd (window_step max_calls time_window n A))
       (snd (window_step max_calls time_window n B)).
Proof.
  intros [-> | [HA HN]].
  - split; [reflexivity | left; reflexivity].
  - assert (Hcomm : prune n time_window A = prune now time_window (prune n time_window B)).
    { rewrite HA. unfold prune. apply filter_comm. }
    unfold window_step.
    destruct (max_calls <=? Z.of_nat (length (prune n time_window A)))%Z eqn:EA.
    + (* refused on both sides *)
      apply Z.leb_le in EA.
      assert (EB : (max_calls <=? Z.of_nat (length (prune n time_window B)))%Z = true).
      { apply Z.leb_le. rewrite Hcomm in EA.
        pose proof (prune_length now time_window (prune n time_window B)). lia. }
      rewrite EB. simpl. split; [reflexivity|]. right. split; assumption.
    + (* let through: an entry of [A] has aged out, so all older ones have *)
      apply Z.leb_gt in EA.
      destruct (filter_dropped
                  (fun call_time => float_lt_int (float_sub n call_time) time_window) A)
        as (y & Hy & Hdrop).
      { fold (prune n time_window A). lia. }
      rewrite HA in Hy. apply prune_In in Hy. destruct Hy as [_ Hyoung].
      assert (Hlater : (now <= n)%Q).
      { destruct (Qlt_le_dec n now) as [Hlt | Hle]; [|exact Hle]. exfalso.
        pose proof (age_at_earlier_now n now y time_window (Qlt_le_weak _ _ Hlt) Hyoung).
        congruence. }
      assert (Heq : prune n time_window A = prune n time_window B).
      { rewrite HA. unfold prune. apply filter_filter_imp.
        intros x _ Hx. exact (age_at_earlier_now now n x time_window Hlater Hx). }
      rewrite <- Heq.
      apply Z.leb_gt in EA. rewrite EA. simpl.
      split; [reflexivity | left; reflexivity].
Qed.

Lemma call_rate_limit_def {W} max_calls time_window name doc ps body args kwargs
    (s : machine W) :
  call (rate_limit max_calls time_window (def name doc ps body)) args kwargs s =
  match window_step max_calls time_window (clock s (ticks s)) (calls s) with
  | (true, cs) =>
      (fst (body args kwargs (world s)),
       set_world (snd (body args kwargs (world s)))
         (write [Invoked name args kwargs] (store_calls cs (tick s))))
  | (false, cs) =>
      (Raise (RateLimitExceeded max_calls time_window), store_calls cs (tick s))
  end.
Proof.
  rewrite rate_limit_unfold. unfold window_step. cbv zeta.
  destruct (max_calls <=? _)%Z; [reflexivity|]. now rewrite call_def.
Qed.

Lemma call_seq_window_inv {W} max_calls time_window now name doc ps body later :
  forall s1 s2 : machine W,
    s1 = store_calls (calls s1) s2 ->
    window_inv max_calls time_window now (calls s1) (calls s2) ->
    fst (call_seq (rate_limit max_calls time_window (def name doc ps body)) later s1)
    = fst (call_seq (rate_limit max_calls time_window (def name doc ps body)) later s2)
    /\ snd (call_seq (rate_limit max_calls time_window (def name doc ps body)) later s1)
       = store_calls
           (calls (snd (call_seq (rate_limit max_calls time_window (def name doc ps body))
                          later s1)))
           (snd (call_seq (rate_limit max_calls time_window (def name doc ps body))
                   later s2)).
Proof.
  induction later as [| [a k] later IH]; intros s1 s2 Hs Hinv.
  - simpl. split; [reflexivity | exact Hs].
  - cbn [call_seq fst snd].
    rewrite !call_rate_limit_def.
    assert (Hw : world s1 = world s2) by (rewrite Hs; reflexivity).
    assert (Hk : clock s1 = clock s2) by (rewrite Hs; reflexivity).
    assert (Ht : ticks s1 = ticks s2) by (rewrite Hs; reflexivity).
    rewrite Hw, Hk, Ht.
    destruct (window_inv_step max_calls time_window now (calls s1) (calls s2)
                (clock s2 (ticks s2)) Hinv) as [Hfst Hnext].
    destruct (window_step max_calls time_window (clock s2 (ticks s2)) (calls s1))
      as [b1 c1].
    destruct (window_step max_calls time_window (clock s2 (ticks s2)) (calls s2))
      as [b2 c2].
    simpl in Hfst, Hnext. subst b2.
    destruct b1.
    + specialize (IH
        (set_world (snd (body a k (world s2)))
           (write [Invoked name a k] (store_calls c1 (tick s1))))
        (set_world (snd (body a k (world s2)))
           (write [Invoked name a k] (store_calls c2 (tick s2))))).
      destruct IH as [IH1 IH2].
      { rewrite Hs. reflexivity. }
      { exact Hnext. }
      destruct (call_seq _ later (set_world _ (write _ (store_calls c1 (tick s1)))))
        as [rs1 e1].
      destruct (call_seq _ later (set_world _ (write _ (store_calls c2 (tick s2)))))
        as [rs2 e2].
      simpl in *. split; [congruence | exact IH2].
    + specialize (IH (store_calls c1 (tick s1)) (store_calls c2 (tick s2))).
      destruct IH as [IH1 IH2].
      { rewrite Hs. reflexivity. }
      { exact Hnext. }
      destruct (call_seq _ later (store_calls c1 (tick s1))) as [rs1 e1].
      destruct (call_seq _ later (store_calls c2 (tick s2))) as [rs2 e2].
      simpl in *. split; [congruence | exact IH2].
Qed.

(** C10: a call refused by the limit leaves in the window only entries
    that were there before (the window pruned at the time of the call, the
    time itself not appended); the wrapped function is not called.  Whatever
    calls follow, each has the same outcome, and the output and the world end
    the same, as if the refused call had only let the clock advance. *)
Theorem refused_call_consumes_no_quota {W} max_calls time_window name doc ps body
    args kwargs (s : machine W) :
  let f := rate_limit max_calls time_window (def name doc ps body) in
  let now := clock s (ticks s) in
  (max_calls <= Z.of_nat (length (prune now time_window (calls s))))%Z ->
  exists s',
    call f args kwargs s = (Raise (RateLimitExceeded max_calls time_window), s')
    /\ calls s' = prune now time_window (calls s)
    /\ (length (calls s') <= length (calls s))%nat
    /\ (forall t, In t (calls s') -> In t (calls s))
    /\ out s' = out s /\ world s' = world s
    /\ forall later,
        fst (call_seq f later s') = fst (call_seq f later (tick s))
        /\ out (snd (call_seq f later s')) = out (snd (call_seq f later (tick s)))
        /\ world (snd (call_seq f later s')) = world (snd (call_seq f later (tick s))).
Proof.
  intros f now Hfull.
  exists (store_calls (prune now time_window (calls s)) (tick s)).
  split; [|split; [|split; [|split; [|split; [|split]]]]]; try reflexivity.
  - subst f. rewrite rate_limit_unfold. cbv zeta. fold now.
    apply Z.leb_le in Hfull. now rewrite Hfull.
  - apply prune_length.
  - intros t Ht. apply prune_In in Ht. tauto.
  - intros later.
    destruct (call_seq_window_inv max_calls time_window now name doc ps body later
                (store_calls (prune now time_window (calls s)) (tick s)) (tick s))
      as [H1 H2].
    + reflexivity.
    + right. split; [reflexivity | exact Hfull].
    + fold f in H1, H2. split; [exact H1|]. rewrite H2. split; reflexivity.
Qed.

(** ** Retry *)

Lemma outcome_at_S {W} (run : W -> result value * W) n w :
  outcome_at run (S n) w = outcome_at run n (snd (run w)).
Proof. reflexivity. Qed.

Lemma invocations_app evs1 evs2 :
  invocations (evs1 ++ evs2) = (invocations evs1 + invocations evs2)%nat.
Proof. unfold invocations. now rewrite List.filter_app, length_app. Qed.

Lemma sleeps_app evs1 evs2 :
  sleeps (evs1 ++ evs2) = (sleeps evs1 + sleeps evs2)%nat.
Proof. unfold sleeps. now rewrite List.filter_app, length_app. Qed.

Lemma retry_loop_S {W} max_attempts delay (func : callable W) args kwargs
    remaining attempt last s :
  retry_loop max_attempts delay func args kwargs (S remaining) attempt last s =
  match call func args kwargs s with
  | (Return v, s1) => (Return v, s1)
  | (Raise e, s1) =>
      if (attempt <? max_attempts - 1)%Z
      then
        let line := [Text ("Attempt " ++ str_of_Z (attempt + 1) ++ " failed: "
                             ++ exc_msg e ++ ". Retrying in ");
                     Float delay; Text " seconds..."] in
        if Qle_bool 0 delay
        then retry_loop max_attempts delay func args kwargs remaining (attempt + 1)%Z
               (Some e) (write [Slept delay] (write [Printed line] s1))
        else (Raise (ValueError "sleep length must be non-negative"),
              write [Printed line] s1)
      else retry_loop max_attempts delay func args kwargs remaining (attempt + 1)%Z
             (Some e)
             (write [Printed [Text ("All " ++ str_of_Z max_attempts
                                      ++ " attempts failed.")]] s1)
  end.
Proof.
  cbn [retry_loop]. unfold try_except.
  destruct (call func args kwargs s) as [[v | e] s1]; [reflexivity|].
  unfold mbind, M_bind, time_sleep, print, emit.
  destruct (attempt <? max_attempts - 1)%Z; [|reflexivity].
  destruct (Qle_bool 0 delay); reflexivity.
Qed.

Lemma retry_unfold {W} max_attempts delay (func : callable W) args kwargs s :
  call (retry max_attempts delay func) args kwargs s =
  retry_loop max_attempts delay func args kwargs (Z.to_nat max_attempts) 0%Z None s.
Proof. reflexivity. Qed.

(** The loop when the [j+1]-th call from here is the first to return. *)
Lemma retry_loop_returns {W} max_attempts delay name doc ps body args kwargs :
  Qle_bool 0 delay = true ->
  forall remaining j attempt last (s : machine W) v,
    (attempt + Z.of_nat remaining = max_attempts)%Z ->
    (j < remaining)%nat ->
    (forall i, (i < j)%nat -> fails (outcome_at (body args kwargs) i (world s))) ->
    outcome_at (body args kwargs) j (world s) = Return v ->
    exists s' evs,
      retry_loop max_attempts delay (def name doc ps body) args kwargs
        remaining attempt last s = (Return v, s')
      /\ out s' = (out s ++ evs)%list
      /\ invocations evs = S j
      /\ sleeps evs = j
      /\ world s' = world_after (body args kwargs) (S j) (world s).
Proof.
  intros Hd. induction remaining as [| r IH]; intros j attempt last s v Hm Hj Hfail Hret;
    [lia|].
  rewrite retry_loop_S, call_def.
  destruct j as [| j].
  - unfold outcome_at in Hret. simpl in Hret. rewrite Hret.
    eexists. exists [Invoked name args kwargs].
    split; [reflexivity|]. repeat split.
  - destruct (Hfail 0%nat ltac:(lia)) as [e He].
    unfold outcome_at in He. simpl in He. rewrite He.
    assert (Hlt : (attempt <? max_attempts - 1)%Z = true) by (apply Z.ltb_lt; lia).
    rewrite Hlt. cbv zeta. rewrite Hd.
    match goal with |- context [retry_loop _ _ _ _ _ r _ _ ?s1] =>
      destruct (IH j (attempt + 1)%Z (Some e) s1 v) as (s' & evs & Hrun & Hout & Hi & Hs & Hw)
    end.
    + lia.
    + lia.
    + intros i Hi. simpl. rewrite <- outcome_at_S. apply Hfail. lia.
    + simpl. rewrite <- outcome_at_S. exact Hret.
    + exists s'. eexists. split; [exact Hrun|].
      split; [rewrite Hout; simpl; rewrite <- !app_assoc; reflexivity|].
      rewrite !invocations_app, !sleeps_app, Hi, Hs. simpl.
      repeat split. exact Hw.
Qed.

(** The loop when every call that is left fails. *)
Lemma retry_loop_exhausts {W} max_attempts delay name doc ps body args kwargs :
  Qle_bool 0 delay = true ->
  forall remaining attempt last (s : machine W),
    (attempt + Z.of_nat remaining = max_attempts)%Z ->
    (forall i, (i < remaining)%nat -> fails (outcome_at (body args kwargs) i (world s))) ->
    exists s' evs,
      retry_loop max_attempts delay (def name doc ps body) args kwargs
        remaining attempt last s
      = (match remaining with
         | O => fst (raise_object last s)
         | S k => outcome_at (body args kwargs) k (world s)
         end, s')
      /\ out s' = (out s ++ evs)%list
      /\ invocations evs = remaining
      /\ sleeps evs = pred remaining
      /\ world s' = world_after (body args kwargs) remaining (world s).
Proof.
  intros Hd. induction remaining as [| r IH]; intros attempt last s Hm Hfail.
  - exists s, []. simpl. rewrite app_nil_r.
    destruct last; repeat split.
  - rewrite retry_loop_S, call_def.
    destruct (Hfail 0%nat ltac:(lia)) as [e He].
    unfold outcome_at in He. simpl in He. rewrite He.
    destruct (attempt <? max_attempts - 1)%Z eqn:Hlt.
    + apply Z.ltb_lt in Hlt. cbv zeta. rewrite Hd.
      match goal with |- context [retry_loop _ _ _ _ _ r _ _ ?s1] =>
        destruct (IH (attempt + 1)%Z (Some e) s1) as (s' & evs & Hrun & Hout & Hi & Hs & Hw)
      end.
      * lia.
      * intros i Hi. simpl. rewrite <- outcome_at_S. apply Hfail. lia.
      * destruct r as [| r]; [lia|].
        exists s'. eexists. split; [exact Hrun|].
        split; [rewrite Hout; simpl; rewrite <- !app_assoc; reflexivity|].
        rewrite !invocations_app, !sleeps_app, Hi, Hs. simpl.
        repeat split. exact Hw.
    + apply Z.ltb_ge in Hlt.
      assert (r = 0%nat) by lia. subst r.
      simpl. unfold outcome_at. simpl. rewrite He.
      eexists. eexists. split; [reflexivity|].
      split; [simpl; rewrite <- !app_assoc; reflexivity|].
      repeat split.
Qed.

(** C1: under [retry] with [max_attempts] attempts and a delay that is not
    negative, if the wrapped function fails on its first [k - 1] calls and
    returns on the [k]-th, with [k] at most [max_attempts], the wrapped call
    returns that value and the function was called exactly [k] times; if it
    fails on every call, the wrapped call fails and the function was called
    exactly [max_attempts] times. *)
Theorem retry_counts_attempts {W} max_attempts delay name doc ps body args kwargs
    (s : machine W) :
  let f := def name doc ps body in
  let run := body args kwargs in
  (0 <= delay)%Q ->
  (forall k v,
      (1 <= k)%nat -> (Z.of_nat k <= max_attempts)%Z ->
      (forall i, (i < k - 1)%nat -> fails (outcome_at run i (world s))) ->
      outcome_at run (k - 1) (world s) = Return v ->
      exists s' evs,
        call (retry max_attempts delay f) args kwargs s = (Return v, s')
        /\ out s' = (out s ++ evs)%list
        /\ invocations evs = k
        /\ world s' = world_after run k (world s))
  /\ ((0 <= max_attempts)%Z ->
      (forall i, (i < Z.to_nat max_attempts)%nat -> fails (outcome_at run i (world s))) ->
      exists e s' evs,
        call (retry max_attempts delay f) args kwargs s = (Raise e, s')
        /\ out s' = (out s ++ evs)%list
        /\ Z.of_nat (invocations evs) = max_attempts
        /\ world s' = world_after run (Z.to_nat max_attempts) (world s)).
Proof.
  intros f run Hd. apply Qle_bool_iff in Hd. split.
  - intros k v Hk Hm Hfail Hret.
    destruct (retry_loop_returns max_attempts delay name doc ps body args kwargs Hd
                (Z.to_nat max_attempts) (k - 1)%nat 0%Z None s v)
      as (s' & evs & Hrun & Hout & Hi & _ & Hw); try assumption; try lia.
    exists s', evs. replace (S (k - 1)) with k in * by lia.
    repeat split; assumption.
  - intros Hm Hfail.
    destruct (retry_loop_exhausts max_attempts delay name doc ps body args kwargs Hd
                (Z.to_nat max_attempts) 0%Z None s)
      as (s' & evs & Hrun & Hout & Hi & _ & Hw); try assumption; try lia.
    assert (He : exists e,
               match Z.to_nat max_attempts with
               | O => fst (raise_object (A:=value) None s)
               | S k => outcome_at (body args kwargs) k (world s)
               end = Raise e).
    { destruct (Z.to_nat max_attempts) as [| k] eqn:E.
      - eexists. reflexivity.
      - apply Hfail. lia. }
    destruct He as [e He]. rewrite He in Hrun.
    exists e, s', evs. repeat split; try assumption. lia.
Qed.

(** C6, as the code has it: when all [max_attempts] attempts (one at
    least) fail, the wrapped call raises the very error of the last attempt,
    with its class and message; no other error is put around it. *)
Theorem retry_raises_last_error {W} max_attempts delay name doc ps body args kwargs
    (s : machine W) :
  let f := def name doc ps body in
  let run := body args kwargs in
  (1 <= max_attempts)%Z ->
  (0 <= delay)%Q ->
  (forall i, (i < Z.to_nat max_attempts)%nat -> fails (outcome_at run i (world s))) ->
  fails (outcome_at run (Z.to_nat max_attempts - 1) (world s))
  /\ fst (call (retry max_attempts delay f) args kwargs s)
     = outcome_at run (Z.to_nat max_attempts - 1) (world s).
Proof.
  intros f run Hm Hd Hfail. apply Qle_bool_iff in Hd.
  split; [apply Hfail; lia|].
  destruct (retry_loop_exhausts max_attempts delay name doc ps body args kwargs Hd
              (Z.to_nat max_attempts) 0%Z None s)
    as (s' & evs & Hrun & _); try assumption; try lia.
  subst f run. rewrite retry_unfold, Hrun. cbn [fst].
  destruct (Z.to_nat max_attempts) as [| k] eqn:E; [lia|].
  simpl. now rewrite Nat.sub_0_r.
Qed.

(** C6 as stated fails on [unreliable_function] when every draw is below
    0.7: after three attempts the caller gets the [Exception] of the last
    attempt itself, not an error of a class [RetryExhausted] around it. *)
Lemma retry_raises_no_RetryExhausted :
  let (r, s) := call unreliable_function [] []
                  (boot (Rng (fun _ => 0%Q) 0) (fun _ => 0%Q)) in
  r = Raise (Exception "Random failure!")
  /\ invocations (out s) = 3%nat
  /\ ~ exists e, r = Raise e /\ exc_type e = "RetryExhausted".
Proof.
  vm_compute. repeat split.
  intros [e [H1 H2]]. inversion H1; subst. discriminate.
Qed.

(** ** Cache keys *)

(** *** Sorting the keyword arguments *)





Lemma insert_item_Permutation a l : Permutation (insert_item a l) (a :: l).
Proof.
  induction l as [| y l IH]; simpl; [reflexivity|].
  destruct (String.leb (fst a) (fst y)); [reflexivity|].
  rewrite IH. apply perm_swap.
Qed.

Lemma sorted_Permutation l : Permutation (sorted l) l.
Proof.
  induction l as [| a l IH]; simpl; [reflexivity|].
  rewrite insert_item_Permutation. now constructor.
Qed.

(** *** Lengths of the texts *)

Lemma length_append (a b : string) :
  String.length (a ++ b) = (String.length a + String.length b)%nat.
Proof. induction a as [| c a IH]; simpl; [reflexivity | now rewrite IH]. Qed.

Lemma join_length l :
  l <> [] ->
  (String.length (join ", " l) + 2 = sum_len l + 2 * length l)%nat.
Proof.
  induction l as [| p l IH]; [congruence|]. intros _.
  destruct l as [| p' l].
  - simpl. lia.
  - change (join ", " (p :: p' :: l)) with (p ++ ", " ++ join ", " (p' :: l)).
    rewrite !length_append. specialize (IH ltac:(discriminate)).
    simpl in *. lia.
Qed.

Lemma list_text_length l :
  String.length (list_text l)
  = (sum_len l + 2 * length l + match l with [] => 2 | _ => 0 end)%nat.
Proof.
  unfold list_text. rewrite !length_append.
  destruct l as [| p l]; [reflexivity|].
  pose proof (join_length (p :: l) ltac:(discriminate)). simpl in *. lia.
Qed.

Lemma tuple_text_length l :
  (sum_len l + 2 * length l <= String.length (tuple_text l)
   <= sum_len l + 2 * length l + 2)%nat.
Proof.
  destruct l as [| p [| p' l]].
  - simpl. lia.
  - simpl. rewrite !length_append. simpl. lia.
  - unfold tuple_text. rewrite !length_append.
    pose proof (join_length (p :: p' :: l) ltac:(discriminate)). simpl in *. lia.
Qed.

Lemma sum_len_app l1 l2 : sum_len (l1 ++ l2) = (sum_len l1 + sum_len l2)%nat.
Proof. induction l1 as [| p l1 IH]; simpl; [reflexivity | rewrite IH; lia]. Qed.

Lemma sum_len_Permutation l1 l2 : Permutation l1 l2 -> sum_len l1 = sum_len l2.
Proof. induction 1; simpl; lia. Qed.

Lemma repr_str_length s : (2 <= String.length (repr_str s))%nat.
Proof. unfold repr_str. simpl. rewrite length_append. simpl. lia. Qed.

Lemma item_tuple_length p v :
  String.length (repr (item_tuple (p, v)))
  = (String.length (repr_str p) + String.length (repr v) + 4)%nat.
Proof.
  unfold item_tuple. cbn [repr map fst snd]. unfold tuple_text. cbn [join].
  rewrite !length_append. simpl. lia.
Qed.

Lemma cache_key_length args kwargs :
  String.length (cache_key args kwargs)
  = (String.length (tuple_text (map repr args))
     + String.length (list_text (map repr (map item_tuple (sorted kwargs)))))%nat.
Proof. unfold cache_key. now rewrite length_append. Qed.

(** A value passed by keyword makes the key longer than the same value
    passed by position. *)
Lemma cache_key_positional_shorter args p v kwargs kwargs' :
  Permutation kwargs' ((p, v) :: kwargs) ->
  (String.length (cache_key (args ++ [v]) kwargs)
   < String.length (cache_key args kwargs'))%nat.
Proof.
  intros Hp. rewrite !cache_key_length.
  pose proof (tuple_text_length (map repr (args ++ [v]))) as H1.
  pose proof (tuple_text_length (map repr args)) as H2.
  rewrite !list_text_length.
  assert (Hs' : Permutation (map repr (map item_tuple (sorted kwargs')))
                 (repr (item_tuple (p, v)) :: map repr (map item_tuple (sorted kwargs)))).
  { rewrite (sorted_Permutation kwargs'), Hp, (sorted_Permutation kwargs). reflexivity. }
  rewrite (sum_len_Permutation _ _ Hs'), (Permutation_length Hs').
  assert (Hsum : sum_len (map repr (args ++ [v]))
                 = (sum_len (map repr args) + String.length (repr v))%nat)
    by (rewrite map_app, sum_len_app; simpl; lia).
  assert (Hlen : length (map repr (args ++ [v])) = S (length (map repr args)))
    by (rewrite map_app, length_app; simpl; lia).
  rewrite Hsum, Hlen in H1.
  change (sum_len (?x :: ?l)) with (String.length x + sum_len l)%nat.
  rewrite item_tuple_length.
  pose proof (repr_str_length p).
  set (q := String.length (repr_str p)) in *.
  set (t1 := String.length (tuple_text (map repr (args ++ [v])))) in *.
  set (t2 := String.length (tuple_text (map repr args))) in *.
  destruct (map repr (map item_tuple (sorted kwargs'))) eqn:E.
  - apply Permutation_length in Hs'. simpl in Hs'. lia.
  - destruct (map repr (map item_tuple (sorted kwargs))); simpl in *; lia.
Qed.

Local Arguments String.append : simpl nomatch.

(** *** The key tells the arguments *)

Lemma append_assoc (a b c : string) : (a ++ b) ++ c = a ++ (b ++ c).
Proof. induction a as [| x a IH]; simpl; [reflexivity | now rewrite IH]. Qed.

Lemma append_inj_l (a x y : string) : a ++ x = a ++ y -> x = y.
Proof. induction a as [| c a IH]; simpl; intros H; [exact H | inversion H; auto]. Qed.

Lemma token_split p d1 : forall d2 r1 r2,
  string_forall p d1 = true -> string_forall p d2 = true ->
  match r1 with String c _ => p c = false | EmptyString => True end ->
  match r2 with String c _ => p c = false | EmptyString => True end ->
  d1 ++ r1 = d2 ++ r2 -> d1 = d2 /\ r1 = r2.
Proof.
  induction d1 as [| c d1 IH]; intros d2 r1 r2 H1 H2 Hr1 Hr2 H.
  - destruct d2 as [| c2 d2]; simpl in *; [auto|].
    subst r1. apply andb_true_iff in H2. destruct H2. congruence.
  - destruct d2 as [| c2 d2]; simpl in *.
    + subst r2. apply andb_true_iff in H1. destruct H1. congruence.
    + inversion H; subst.
      apply andb_true_iff in H1. apply andb_true_iff in H2.
      destruct (IH d2 r1 r2) as [-> ->]; tauto.
Qed.

Lemma string_of_uint_digits d :
  string_forall is_numchar (NilEmpty.string_of_uint d) = true.
Proof. induction d; simpl; auto. Qed.

Lemma str_of_Z_numchars n : string_forall is_numchar (str_of_Z n) = true.
Proof.
  unfold str_of_Z, NilZero.string_of_int, NilZero.string_of_uint.
  destruct (Z.to_int n) as [d | d]; destruct d; simpl;
    try reflexivity; apply string_of_uint_digits.
Qed.

Lemma str_of_Z_inj n1 n2 : str_of_Z n1 = str_of_Z n2 -> n1 = n2.
Proof.
  unfold str_of_Z. intros H.
  assert (Hnn : forall n, Z.to_int n <> Decimal.Pos Decimal.Nil
                          /\ Z.to_int n <> Decimal.Neg Decimal.Nil).
  { intros [| p | p]; simpl; split; try discriminate;
      intros E; inversion E as [E'];
      apply (DecimalPos.Unsigned.to_uint_nonnil p); exact E'. }
  assert (E : Some (Z.to_int n1) = Some (Z.to_int n2)).
  { rewrite <- (NilZero.isi (Z.to_int n1)) by apply Hnn.
    rewrite <- (NilZero.isi (Z.to_int n2)) by apply Hnn.
    now rewrite H. }
  inversion E as [E'].
  rewrite <- (DecimalZ.of_to n1), <- (DecimalZ.of_to n2). now rewrite E'.
Qed.

Lemma str_of_Z_split n1 n2 r1 r2 :
  stops r1 = true -> stops r2 = true ->
  str_of_Z n1 ++ r1 = str_of_Z n2 ++ r2 -> n1 = n2 /\ r1 = r2.
Proof.
  intros H1 H2 H.
  destruct (token_split is_numchar _ _ r1 r2 (str_of_Z_numchars n1)
              (str_of_Z_numchars n2)) as [Hd Hr]; auto.
  - destruct r1; [exact I|]. simpl in H1. now apply negb_true_iff.
  - destruct r2; [exact I|]. simpl in H2. now apply negb_true_iff.
  - split; [now apply str_of_Z_inj | exact Hr].
Qed.

Lemma in_all_ascii c : In c all_ascii.
Proof.
  unfold all_ascii. rewrite <- (ascii_nat_embedding c).
  apply in_map, in_seq. pose proof (nat_ascii_bounded c). lia.
Qed.

Lemma is_prefix_append a : forall b x y,
  a ++ x = b ++ y -> is_prefix a b = true \/ is_prefix b a = true.
Proof.
  induction a as [| c a IH]; intros b x y H; [left; reflexivity|].
  destruct b as [| d b]; [right; reflexivity|].
  simpl in H. inversion H; subst. simpl. rewrite Ascii.eqb_refl. simpl.
  eapply IH; eassumption.
Qed.

Lemma escapes_apart_squote : escapes_apart squote = true.
Proof. vm_compute. reflexivity. Qed.

Lemma escapes_apart_dquote : escapes_apart dquote = true.
Proof. vm_compute. reflexivity. Qed.

Lemma escapes_quote_free_squote : escapes_quote_free squote = true.
Proof. vm_compute. reflexivity. Qed.

Lemma escapes_quote_free_dquote : escapes_quote_free dquote = true.
Proof. vm_compute. reflexivity. Qed.

Lemma is_prefix_refl a : is_prefix a a = true.
Proof. induction a as [| c a IH]; simpl; [reflexivity|]. now rewrite Ascii.eqb_refl. Qed.

Lemma escape_char_inj q c1 c2 x y :
  q = squote \/ q = dquote ->
  escape_char q c1 ++ x = escape_char q c2 ++ y -> c1 = c2 /\ x = y.
Proof.
  intros Hq H.
  assert (Hap : escapes_apart q = true)
    by (destruct Hq as [-> | ->]; [apply escapes_apart_squote | apply escapes_apart_dquote]).
  assert (Hc : c1 = c2).
  { unfold escapes_apart in Hap. rewrite forallb_forall in Hap.
    pose proof (Hap c1 (in_all_ascii c1)) as H1. rewrite forallb_forall in H1.
    pose proof (H1 c2 (in_all_ascii c2)) as H12.
    pose proof (Hap c2 (in_all_ascii c2)) as H2. rewrite forallb_forall in H2.
    pose proof (H2 c1 (in_all_ascii c1)) as H21.
    destruct (Ascii.eqb_spec c1 c2) as [-> | Hne]; [reflexivity|].
    destruct (Ascii.eqb_spec c2 c1) as [-> | _]; [congruence|].
    simpl in H12, H21. apply negb_true_iff in H12, H21.
    destruct (is_prefix_append _ _ _ _ H); congruence. }
  subst c2. split; [reflexivity|]. eapply append_inj_l; eassumption.
Qed.

Lemma escape_char_head q c :
  q = squote \/ q = dquote ->
  exists h t, escape_char q c = String h t /\ h <> q.
Proof.
  intros Hq.
  assert (Hf : escapes_quote_free q = true)
    by (destruct Hq as [-> | ->];
        [apply escapes_quote_free_squote | apply escapes_quote_free_dquote]).
  unfold escapes_quote_free in Hf. rewrite forallb_forall in Hf.
  specialize (Hf c (in_all_ascii c)).
  destruct (escape_char q c) as [| h t]; [discriminate|].
  exists h, t. split; [reflexivity|].
  apply negb_true_iff in Hf. intros ->. now rewrite Ascii.eqb_refl in Hf.
Qed.

Lemma escape_string_inj q :
  q = squote \/ q = dquote ->
  forall s1 s2 r1 r2,
    escape_string q s1 ++ String q r1 = escape_string q s2 ++ String q r2 ->
    s1 = s2 /\ r1 = r2.
Proof.
  intros Hq. induction s1 as [| c1 s1 IH]; intros s2 r1 r2 H.
  - destruct s2 as [| c2 s2]; simpl in H.
    + inversion H. auto.
    + destruct (escape_char_head q c2 Hq) as (h & t & He & Hh).
      rewrite He in H. simpl in H. inversion H. congruence.
  - destruct s2 as [| c2 s2]; simpl in H.
    + destruct (escape_char_head q c1 Hq) as (h & t & He & Hh).
      rewrite He in H. simpl in H. inversion H. congruence.
    + rewrite !append_assoc in H.
      destruct (escape_char_inj q c1 c2 _ _ Hq H) as [-> H'].
      destruct (IH s2 r1 r2 H') as [-> ->]. auto.
Qed.

Lemma repr_str_quote s :
  exists q, (q = squote \/ q = dquote)
            /\ forall r, repr_str s ++ r = String q (escape_string q s ++ String q r).
Proof.
  unfold repr_str.
  destruct (contains_char squote s && negb (contains_char dquote s));
    [exists dquote | exists squote]; (split; [auto|]); intros r; simpl;
    now rewrite append_assoc.
Qed.

Lemma repr_str_split s1 s2 r1 r2 :
  repr_str s1 ++ r1 = repr_str s2 ++ r2 -> s1 = s2 /\ r1 = r2.
Proof.
  destruct (repr_str_quote s1) as (q1 & Hq1 & E1).
  destruct (repr_str_quote s2) as (q2 & Hq2 & E2).
  rewrite E1, E2. intros H. inversion H; subst.
  eapply escape_string_inj; eassumption.
Qed.



Lemma str_of_Z_head n : exists c t, str_of_Z n = String c t /\ is_numchar c = true.
Proof.
  pose proof (str_of_Z_numchars n) as H.
  destruct (str_of_Z n) as [| c t] eqn:E.
  - exfalso. pose proof (str_of_Z_inj n (n + 1)) as Hinj.
    assert (Hn : forall m, str_of_Z m <> "").
    { intros m. unfold str_of_Z, NilZero.string_of_int, NilZero.string_of_uint.
      destruct (Z.to_int m) as [d | d]; [|discriminate].
      destruct d; simpl; discriminate. }
    now apply (Hn n).
  - simpl in H. apply andb_true_iff in H. exists c, t. tauto.
Qed.

Lemma repr_head v :
  exists c t, repr v = String c t /\ char_kind c = Some (value_kind v).
Proof.
  destruct v as [| [|] | n | s | l | l | l]; simpl;
    try (eexists; eexists; split; [reflexivity | reflexivity]).
  - destruct (str_of_Z_head n) as (c & t & E & Hc). exists c, t.
    split; [exact E|]. unfold char_kind. now rewrite Hc.
  - destruct (repr_str_quote s) as (q & Hq & E). specialize (E "").
    exists q. eexists. split.
    + rewrite <- E. clear. induction (repr_str s); simpl; congruence.
    + destruct Hq as [-> | ->]; reflexivity.
  - unfold tuple_text. destruct (map repr l) as [| p [| p' l']];
      eexists; eexists; split; reflexivity.
Qed.

Lemma repr_kind v1 v2 r1 r2 :
  repr v1 ++ r1 = repr v2 ++ r2 -> value_kind v1 = value_kind v2.
Proof.
  destruct (repr_head v1) as (c1 & t1 & E1 & K1).
  destruct (repr_head v2) as (c2 & t2 & E2 & K2).
  rewrite E1, E2. simpl. intros H. inversion H; subst. congruence.
Qed.

Lemma join_cons_app p l R :
  join ", " (p :: l) ++ R
  = p ++ match l with [] => R | _ => ", " ++ join ", " l ++ R end.
Proof.
  destruct l as [| p' l]; [reflexivity|].
  change (join ", " (p :: p' :: l)) with (p ++ ", " ++ join ", " (p' :: l)).
  now rewrite !append_assoc.
Qed.

Section Items.
Context {A : Type} (f : A -> string) (close : ascii).
Hypothesis close_kind : char_kind close = None.
Hypothesis close_not_comma : close <> ","%char.
Hypothesis f_head : forall x, exists c t, f x = String c t /\ char_kind c <> None.

Lemma close_not_item x t R : String close t <> f x ++ R.
Proof.
  destruct (f_head x) as (c & t' & E & K). rewrite E. simpl.
  intros H. inversion H; subst. congruence.
Qed.

Lemma join_split l1 :
  List.Forall (item_readable f close) l1 ->
  forall l2 r1 r2,
    join ", " (map f l1) ++ String close r1 = join ", " (map f l2) ++ String close r2 ->
    l1 = l2 /\ r1 = r2.
Proof.
  induction 1 as [| x l1 Hx Hl1 IH]; intros l2 r1 r2 H.
  - destruct l2 as [| y l2].
    + simpl in H. inversion H. auto.
    + exfalso. simpl map in H. rewrite join_cons_app in H.
      simpl in H. eapply close_not_item. exact H.
  - destruct l2 as [| y l2].
    + exfalso. simpl map in H. rewrite join_cons_app in H.
      simpl in H. eapply close_not_item. symmetry. exact H.
    + simpl map in H. rewrite !join_cons_app in H.
      assert (Hxy : x = y
                    /\ match map f l1 with
                       | [] => String close r1
                       | _ :: _ => ", " ++ join ", " (map f l1) ++ String close r1
                       end
                       = match map f l2 with
                         | [] => String close r2
                         | _ :: _ => ", " ++ join ", " (map f l2) ++ String close r2
                         end).
      { apply Hx; [| | exact H].
        - destruct (map f l1); eexists; [right | left]; reflexivity.
        - destruct (map f l2); eexists; [right | left]; reflexivity. }
      destruct Hxy as [-> Hrest].
      destruct l1 as [| x1 l1], l2 as [| y1 l2]; simpl map in Hrest.
      * inversion Hrest. auto.
      * exfalso. simpl in Hrest. inversion Hrest. congruence.
      * exfalso. simpl in Hrest. inversion Hrest. congruence.
      * simpl in Hrest. inversion Hrest as [Hrest'].
        destruct (IH (y1 :: l2) r1 r2) as [E ->]; [exact Hrest'|].
        rewrite E. auto.
Qed.
End Items.

Lemma delimited_stops close r :
  is_numchar close = false -> delimited close r -> stops r = true.
Proof. intros Hc [t [-> | ->]]; simpl; [reflexivity | now rewrite Hc]. Qed.

Lemma repr_head_kind x : exists c t, repr x = String c t /\ char_kind c <> None.
Proof.
  destruct (repr_head x) as (c & t & E & K). exists c, t. split; [exact E | congruence].
Qed.

Lemma readable_item close x :
  is_numchar close = false -> readable x -> item_readable repr close x.
Proof.
  intros Hc Hx y r1 r2 D1 D2 H.
  apply Hx; [eapply delimited_stops | eapply delimited_stops |]; eassumption.
Qed.

Lemma tuple_text_single p r :
  tuple_text [p] ++ r = String "(" (p ++ String "," (String ")" r)).
Proof. unfold tuple_text. simpl. now rewrite append_assoc. Qed.

Lemma tuple_text_other l r :
  (forall p, l <> [p]) ->
  tuple_text l ++ r = String "(" (join ", " l ++ String ")" r).
Proof.
  intros H. unfold tuple_text. destruct l as [| p [| p' l]].
  - reflexivity.
  - now destruct (H p).
  - simpl. now rewrite !append_assoc.
Qed.

Lemma list_text_app l r : list_text l ++ r = String "[" (join ", " l ++ String "]" r).
Proof. unfold list_text. simpl. now rewrite append_assoc. Qed.

Lemma tuple_split l1 l2 r1 r2 :
  List.Forall readable l1 ->
  tuple_text (map repr l1) ++ r1 = tuple_text (map repr l2) ++ r2 ->
  l1 = l2 /\ r1 = r2.
Proof.
  intros Hl H.
  assert (Hitems : List.Forall (item_readable repr ")") l1).
  { eapply List.Forall_impl; [|exact Hl]. intros x Hx. now apply readable_item. }
  assert (Hnot : forall x R t, String ")" t <> repr x ++ R).
  { intros x R t.
    apply (close_not_item repr ")" eq_refl ltac:(discriminate) repr_head_kind). }
  assert (Hfirst : forall x, In x l1 -> forall y R1 R2,
             delimited ")" R1 -> delimited ")" R2 ->
             repr x ++ R1 = repr y ++ R2 -> x = y /\ R1 = R2).
  { intros x Hin. rewrite List.Forall_forall in Hitems. apply (Hitems x Hin). }
  assert (H0 : forall r, tuple_text [] ++ r = String "(" (String ")" r))
    by reflexivity.
  assert (H2 : forall p p' l r,
             tuple_text (p :: p' :: l) ++ r
             = String "(" (p ++ match l with
                                | [] => ", " ++ p' ++ String ")" r
                                | _ => ", " ++ join ", " (p' :: l) ++ String ")" r
                                end)).
  { intros p p' l r. rewrite tuple_text_other by discriminate.
    rewrite join_cons_app. destruct l; reflexivity. }
  destruct l1 as [| x [| x' l1]], l2 as [| y [| y' l2]]; cbn [map] in H;
    rewrite ?H0, ?tuple_text_single, ?H2 in H.
  - inversion H. auto.
  - exfalso. injection H as H'. now apply Hnot in H'.
  - exfalso. injection H as H'. now apply Hnot in H'.
  - exfalso. injection H as H'. symmetry in H'. now apply Hnot in H'.
  - injection H as H'.
    apply (Hfirst x (or_introl eq_refl)) in H';
      [| eexists; left; reflexivity | eexists; left; reflexivity].
    destruct H' as [-> Hr]. inversion Hr. auto.
  - exfalso. injection H as H'.
    apply (Hfirst x (or_introl eq_refl)) in H';
      [| eexists; left; reflexivity
       | destruct (map repr l2); eexists; left; reflexivity].
    destruct H' as [_ Hr]. destruct (map repr l2); inversion Hr.
  - exfalso. injection H as H'. symmetry in H'. now apply Hnot in H'.
  - exfalso. injection H as H'.
    apply (Hfirst x (or_introl eq_refl)) in H';
      [| destruct (map repr l1); eexists; left; reflexivity
       | eexists; left; reflexivity].
    destruct H' as [_ Hr]. destruct (map repr l1); inversion Hr.
  - assert (H' : tuple_text (map repr (x :: x' :: l1)) ++ r1
                 = tuple_text (map repr (y :: y' :: l2)) ++ r2).
    { cbn [map]. now rewrite !H2. }
    cbn [map] in H'. rewrite !tuple_text_other in H' by discriminate.
    injection H' as H'.
    apply (join_split repr ")" eq_refl ltac:(discriminate) repr_head_kind
             (x :: x' :: l1) Hitems (y :: y' :: l2) r1 r2 H').
Qed.

Lemma repr_dict l : repr (VDict l) = "{" ++ join ", " (map dict_item l) ++ "}".
Proof. reflexivity. Qed.

Lemma dict_item_readable kv :
  readable (fst kv) /\ readable (snd kv) -> item_readable dict_item "}" kv.
Proof.
  intros [Hk Hv] [k2 v2] r1 r2 D1 D2 H. unfold dict_item in H. simpl fst in H.
  simpl snd in H. rewrite !append_assoc in H.
  apply Hk in H; [| reflexivity | reflexivity].
  destruct H as [Ek H]. injection H as H.
  apply Hv in H; [| eapply delimited_stops; [|eassumption]; reflexivity
                  | eapply delimited_stops; [|eassumption]; reflexivity].
  destruct H as [Ev Hr]. destruct kv as [k v]. simpl in *. subst. auto.
Qed.

Lemma dict_item_head kv :
  exists c t, dict_item kv = String c t /\ char_kind c <> None.
Proof.
  destruct (repr_head_kind (fst kv)) as (c & t & E & K).
  exists c. eexists. unfold dict_item. rewrite E. simpl. split; [reflexivity | exact K].
Qed.

(** Every [repr] can be read back. *)
Theorem repr_readable v : readable v.
Proof.
  induction v as [| b | n | s | l IH | l IH | l IH] using value_nested_ind;
    intros v2 r1 r2 S1 S2 H; pose proof (repr_kind _ _ _ _ H) as K.
  - destruct v2 as [| [|] | | | | |]; try discriminate K.
    simpl in H. injection H as H. auto.
  - destruct b, v2 as [| [|] | | | | |]; try discriminate K;
      simpl in H; injection H as H; auto.
  - destruct v2 as [| [|] | m | | | |]; try discriminate K.
    simpl in H. destruct (str_of_Z_split n m r1 r2 S1 S2 H) as [-> ->]. auto.
  - destruct v2 as [| [|] | | s2 | | |]; try discriminate K.
    simpl in H. destruct (repr_str_split s s2 r1 r2 H) as [-> ->]. auto.
  - destruct v2 as [| [|] | | | l2 | |]; try discriminate K.
    cbn [repr] in H. destruct (tuple_split l l2 r1 r2 IH H) as [-> ->]. auto.
  - destruct v2 as [| [|] | | | | l2 |]; try discriminate K.
    cbn [repr] in H. rewrite !list_text_app in H. injection H as H.
    assert (Hitems : List.Forall (item_readable repr "]") l).
    { eapply List.Forall_impl; [|exact IH]. intros x Hx. now apply readable_item. }
    destruct (join_split repr "]" eq_refl ltac:(discriminate) repr_head_kind
                l Hitems l2 r1 r2 H) as [-> ->]. auto.
  - destruct v2 as [| [|] | | | | | l2]; try discriminate K.
    rewrite !repr_dict in H. rewrite !append_assoc in H. injection H as H.
    assert (Hitems : List.Forall (item_readable dict_item "}") l).
    { eapply List.Forall_impl; [|exact IH]. intros x Hx. now apply dict_item_readable. }
    destruct (join_split dict_item "}" eq_refl ltac:(discriminate) dict_item_head
                l Hitems l2 r1 r2 H) as [-> ->]. auto.
Qed.

Lemma repr_inj v1 v2 : repr v1 = repr v2 -> v1 = v2.
Proof.
  intros H. apply (repr_readable v1 v2 "" ""); try reflexivity.
  now rewrite H.
Qed.

(** On these values, two calls have the same cache key only when their
    positional arguments print the same, item for item, and their keyword
    arguments are the same. *)
Lemma cache_key_inj args1 kwargs1 args2 kwargs2 :
  cache_key args1 kwargs1 = cache_key args2 kwargs2 ->
  args1 = args2 /\ Permutation kwargs1 kwargs2.
Proof.
  unfold cache_key. cbn [str]. intros H.
  apply (repr_readable (VTuple args1)) in H.
  - destruct H as [Ha Hk]. injection Ha as ->. split; [reflexivity|].
    apply repr_inj in Hk. injection Hk as Hk.
    assert (Hs : sorted kwargs1 = sorted kwargs2).
    { clear -Hk. revert Hk. generalize (sorted kwargs1), (sorted kwargs2).
      induction k as [| [k1 v1] l1 IH]; intros [| [k2 v2] l2] H; simpl in H;
        try discriminate; [reflexivity|].
      injection H as -> -> H. f_equal. now apply IH. }
    rewrite <- (sorted_Permutation kwargs1), Hs. apply sorted_Permutation.
  - reflexivity.
  - reflexivity.
Qed.

Lemma keys_of_NoDup cs :
  ForallOrdPairs (fun c1 c2 => ~ same_arguments c1 c2) cs -> List.NoDup (keys_of cs).
Proof.
  induction 1 as [| c cs Hc _ IH]; simpl; constructor; [|exact IH].
  intros Hin. apply in_map_iff in Hin. destruct Hin as (c' & Hkey & Hin').
  rewrite List.Forall_forall in Hc. apply (Hc c' Hin').
  symmetry in Hkey. now apply cache_key_inj in Hkey.
Qed.

Local Arguments String.append : simpl never.

(** ** Memoization *)

Lemma memoize_unfold {W} (func : callable W) args kwargs s :
  call (memoize func) args kwargs s =
  match cache s !! cache_key args kwargs with
  | Some v =>
      (Return v,
       write [Printed [Text ("Cache hit for " ++ __name__ func ++ str (VTuple args))]] s)
  | None =>
      match call func args kwargs
              (write [Printed [Text ("Computing " ++ __name__ func
                                       ++ str (VTuple args))]] s) with
      | (Return v, s2) =>
          (Return v, store_cache (<[cache_key args kwargs := v]> (cache s2)) s2)
      | (Raise e, s2) => (Raise e, s2)
      end
  end.
Proof.
  cbn [call memoize functools_wraps].
  unfold mbind, M_bind, get_cache, set_cache, print, emit, mret, M_ret.
  destruct (cache s !! cache_key args kwargs) as [v |] eqn:E.
  - cbn [cache write]. now rewrite E.
  - destruct (call func args kwargs _) as [[v | e] s2]; [|reflexivity].
    cbn [cache store_cache]. now rewrite lookup_insert_eq.
Qed.


Lemma size_difference_hit (k : string) (X D : gset string) :
  k ∈ D -> size (({[k]} ∪ X) ∖ D) = size (X ∖ D).
Proof. intros H. f_equal. set_solver. Qed.

Lemma size_difference_miss (k : string) (X D : gset string) :
  k ∉ D -> size (({[k]} ∪ X) ∖ D) = S (size (X ∖ ({[k]} ∪ D))).
Proof.
  intros H.
  assert (Heq : ({[k]} ∪ X) ∖ D = {[k]} ∪ (X ∖ ({[k]} ∪ D))).
  { apply set_eq. intros x. destruct (decide (x = k)) as [-> | Hne]; set_solver. }
  rewrite Heq, size_union by set_solver. now rewrite size_singleton.
Qed.

Lemma union_absorb_hit (k : string) (X D : gset string) :
  k ∈ D -> D ∪ X = D ∪ ({[k]} ∪ X).
Proof. set_solver. Qed.

Lemma union_assoc_miss (k : string) (X D : gset string) :
  {[k]} ∪ D ∪ X = D ∪ ({[k]} ∪ X).
Proof. set_solver. Qed.

Lemma memoize_seq_invocations {W} name doc ps (body : list value -> kwargs_t -> W -> _) :
  forall cs (s : machine W),
  returns_on body cs ->
  exists evs,
    out (snd (call_seq (memoize (def name doc ps body)) cs s)) = (out s ++ evs)%list
    /\ invocations evs
       = size ((list_to_set (keys_of cs) : gset string) ∖ dom (cache s))
    /\ dom (cache (snd (call_seq (memoize (def name doc ps body)) cs s)))
       = dom (cache s) ∪ list_to_set (keys_of cs).
Proof.
  induction cs as [| [a k] cs IH]; intros s Htotal.
  - exists []. cbn. rewrite app_nil_r. split; [reflexivity|]. split.
    + replace ((∅ : gset string) ∖ dom (cache s)) with (∅ : gset string)
        by (clear; set_solver).
      reflexivity.
    + clear; set_solver.
  - cbn [call_seq fst snd keys_of map]. fold (keys_of cs).
    rewrite memoize_unfold.
    destruct (cache s !! cache_key a k) as [v0 |] eqn:E.
    + match goal with |- context [call_seq _ cs ?s1] =>
        destruct (IH s1) as (evs & Hout & Hinv & Hdom);
        [intros c Hc; apply Htotal; now right|];
        destruct (call_seq (memoize (def name doc ps body)) cs s1) as [rs s'] eqn:Hrun
      end.
      cbn [snd cache out write] in *.
      assert (Hin : cache_key a k ∈ dom (cache s)) by (apply elem_of_dom; eauto).
      eexists. split; [rewrite Hout, <- app_assoc; reflexivity|].
      rewrite invocations_app, Hinv, Hdom.
      change (list_to_set (cache_key a k :: keys_of cs) : gset string)
        with ({[cache_key a k]} ∪ list_to_set (keys_of cs) : gset string).
      split.
      * rewrite size_difference_hit by exact Hin. reflexivity.
      * now apply union_absorb_hit.
    + rewrite call_def.
      destruct (Htotal (a, k) (or_introl eq_refl) (world s)) as [v Hv].
      cbn [world write fst snd] in Hv |- *. rewrite Hv.
      match goal with |- context [call_seq _ cs ?s1] =>
        destruct (IH s1) as (evs & Hout & Hinv & Hdom);
        [intros c Hc; apply Htotal; now right|];
        destruct (call_seq (memoize (def name doc ps body)) cs s1) as [rs s'] eqn:Hrun
      end.
      cbn [snd cache out write store_cache set_world] in *.
      assert (Hnin : cache_key a k ∉ dom (cache s)) by (now apply not_elem_of_dom).
      eexists. split; [rewrite Hout, <- !app_assoc; reflexivity|].
      rewrite !invocations_app, Hinv, Hdom.
      change (list_to_set (cache_key a k :: keys_of cs) : gset string)
        with ({[cache_key a k]} ∪ list_to_set (keys_of cs) : gset string).
      rewrite dom_insert_L. split.
      * rewrite size_difference_miss by exact Hnin. reflexivity.
      * apply union_assoc_miss.
Qed.







(** C9: the same value given by position and given by keyword makes two
    different cache keys, whatever the other arguments; made one after the
    other on an empty cache, the two calls each enter the wrapped function
    and leave two entries. *)
Theorem positional_and_keyword_keys_differ {W} args p v kwargs kwargs' :
  Permutation kwargs' ((p, v) :: kwargs) ->
  cache_key (args ++ [v]) kwargs <> cache_key args kwargs'
  /\ forall name doc ps body (s : machine W),
      cache s = ∅ ->
      returns_on body [((args ++ [v])%list, kwargs); (args, kwargs')] ->
      exists evs,
        out (snd (call_seq (memoize (def name doc ps body))
                    [((args ++ [v])%list, kwargs); (args, kwargs')] s)) = (out s ++ evs)%list
        /\ invocations evs = 2%nat
        /\ size (cache (snd (call_seq (memoize (def name doc ps body))
                               [((args ++ [v])%list, kwargs); (args, kwargs')] s))) = 2%nat.
Proof.
  intros Hp.
  assert (Hne : cache_key (args ++ [v]) kwargs <> cache_key args kwargs').
  { intros Heq. pose proof (cache_key_positional_shorter args p v kwargs kwargs' Hp) as Hlt.
    rewrite Heq in Hlt. lia. }
  split; [exact Hne|].
  intros name doc ps body s Hc Hret.
  destruct (memoize_seq_invocations name doc ps body _ s Hret)
    as (evs & Hout & Hinv & Hdom).
  assert (Hsz : size ({[cache_key (args ++ [v]) kwargs]}
                        ∪ ({[cache_key args kwargs']} ∪ ∅) : gset string) = 2%nat).
  { rewrite size_union by (clear -Hne; set_solver).
    rewrite union_empty_r_L, !size_singleton. reflexivity. }
  exists evs. split; [exact Hout|]. split.
  - rewrite Hinv, Hc, dom_empty_L, difference_empty_L. exact Hsz.
  - rewrite <- size_dom, Hdom, Hc, dom_empty_L, union_empty_l_L. exact Hsz.
Qed.

(** ** The theorems at concrete inputs *)

Lemma retry_counts_attempts_witness :
  (exists s' evs,
      call (retry 3 (1 # 2) unreliable_function_def) [] [] two_failures
      = (Return (VStr "Success!"), s')
      /\ out s' = (out two_failures ++ evs)%list
      /\ invocations evs = 3%nat
      /\ world s' = Rng flaky_draws 3)
  /\ (exists e s' evs,
         call (retry 3 (1 # 2) unreliable_function_def) [] [] only_failures
         = (Raise e, s')
         /\ out s' = (out only_failures ++ evs)%list
         /\ Z.of_nat (invocations evs) = 3%Z
         /\ world s' = Rng (fun _ => 0%Q) 3).
Proof.
  split.
  - apply (proj1 (retry_counts_attempts 3 (1 # 2) "unreliable_function"
                    (Some "Function that fails randomly") [] unreliable_function_body
                    [] [] two_failures
                    ltac:(vm_compute; discriminate)) 3%nat (VStr "Success!")).
    + lia.
    + lia.
    + intros [| [| i]] Hi; [exists (Exception "Random failure!"); vm_compute; reflexivity | exists (Exception "Random failure!"); vm_compute; reflexivity | lia].
    + vm_compute. reflexivity.
  - apply (proj2 (retry_counts_attempts 3 (1 # 2) "unreliable_function"
                    (Some "Function that fails randomly") [] unreliable_function_body
                    [] [] only_failures
                    ltac:(vm_compute; discriminate))).
    + lia.
    + intros [| [| [| i]]] Hi;
        [exists (Exception "Random failure!"); vm_compute; reflexivity
        | exists (Exception "Random failure!"); vm_compute; reflexivity
        | exists (Exception "Random failure!"); vm_compute; reflexivity
        | simpl in Hi; lia].
Defined.

Lemma stacked_mismatch_witness :
  call (timer (validate_types [("x", TInt); ("y", TInt)] multiply_def))
    [VStr "4"; VInt 5] [] fresh
  = (Raise (TypeError "x must be int, got str"), tick fresh)
  /\ call (timer multiply_def) [VInt 4; VInt 5] [] fresh
     = (Return (VInt 20),
        write [Printed [Text "multiply took "; Float4 (seconds 1 - seconds 0)%Q;
                        Text " seconds to execute"]]
          (tick (write [Invoked "multiply" [VInt 4; VInt 5] []] (tick fresh))))
  /\ exists p t v evs,
      mismatched [("x", TInt); ("y", TInt)] [("x", VStr "4"); ("y", VInt 5)] p t v
      /\ call multiply [VStr "4"; VInt 5] [] fresh
         = (Raise (mismatch_error p t v), write evs (tick fresh))
      /\ In (Logged ERROR ("multiply raised TypeError: " ++ exc_msg (mismatch_error p t v)))
           evs
      /\ invocations evs = 0%nat
      /\ (forall line, ~ In (Printed line) evs).
Proof.
  split; [|split].
  - apply (proj1 (stacked_mismatch_is_logged_but_not_timed
                    (validate_types [("x", TInt); ("y", TInt)] multiply_def)
                    [VStr "4"; VInt 5] [] fresh)).
    reflexivity.
  - apply (proj1 (proj2 (stacked_mismatch_is_logged_but_not_timed
                           multiply_def [VInt 4; VInt 5] [] fresh))).
    reflexivity.
  - apply (proj2 (proj2 (stacked_mismatch_is_logged_but_not_timed
                           multiply_def [VStr "4"; VInt 5] [] fresh))
             [("x", TInt); ("y", TInt)] INFO [("x", VStr "4"); ("y", VInt 5)]).
    + reflexivity.
    + exists "x", TInt, (VStr "4"). split; [left; reflexivity | split; reflexivity].
Defined.

Lemma validate_types_witness :
  (exists p t v,
      mismatched [("name", TStr); ("age", TInt); ("email", TStr)]
        [("name", VStr "John"); ("age", VStr "thirty"); ("email", VStr "x@y.com")] p t v
      /\ call create_user [VStr "John"; VStr "thirty"] [("email", VStr "x@y.com")] fresh
         = (Raise (TypeError (p ++ " must be " ++ type_name t ++ ", got "
                                ++ type_name (type_of v))), fresh))
  /\ call create_user [VStr "John"; VInt 30] [("email", VStr "x@y.com")] fresh
     = call create_user_def [VStr "John"; VInt 30] [("email", VStr "x@y.com")] fresh
  /\ call create_user [VStr "John"] [] fresh
     = (Raise (TypeError "missing a required argument: 'age'"), fresh)
  /\ lookup_kw "email"
       (apply_defaults (Params create_user_params)
          [("name", VStr "John"); ("age", VInt 30); ("email", VStr "x@y.com")])
     = Some (VStr "x@y.com").
Proof.
  pose proof (validate_types_checks_before_calling
                [("name", TStr); ("age", TInt); ("email", TStr)]
                create_user_def [VStr "John"; VStr "thirty"]
                [("email", VStr "x@y.com")] fresh) as (_ & _ & Hbad & _).
  pose proof (validate_types_checks_before_calling
                [("name", TStr); ("age", TInt); ("email", TStr)]
                create_user_def [VStr "John"; VInt 30]
                [("email", VStr "x@y.com")] fresh) as (_ & Hbind & Hgood & _).
  pose proof (validate_types_checks_before_calling
                [("name", TStr); ("age", TInt); ("email", TStr)]
                create_user_def [VStr "John"] [] fresh) as (Hmissing & _).
  split; [|split; [|split]].
  - apply (proj1 (Hbad [("name", VStr "John"); ("age", VStr "thirty");
                        ("email", VStr "x@y.com")] eq_refl)).
    exists "age", TInt, (VStr "thirty").
    split; [right; left; reflexivity | split; reflexivity].
  - apply (proj2 (Hgood [("name", VStr "John"); ("age", VInt 30);
                         ("email", VStr "x@y.com")] eq_refl)).
    intros p t v [H | [H | [H | []]]] Hl; inversion H; subst; simpl in Hl;
      inversion Hl; reflexivity.
  - apply Hmissing. reflexivity.
  - apply (Hbind create_user_params
             [("name", VStr "John"); ("age", VInt 30); ("email", VStr "x@y.com")]
             eq_refl).
    + repeat constructor; simpl; intuition discriminate.
    + reflexivity.
    + reflexivity.
Defined.

Lemma retry_raises_last_error_witness :
  fails (outcome_at (unreliable_function_body [] []) 2 (world only_failures))
  /\ fst (call unreliable_function [] [] only_failures)
     = Raise (Exception "Random failure!").
Proof.
  apply (retry_raises_last_error 3 (1 # 2) "unreliable_function"
           (Some "Function that fails randomly") [] unreliable_function_body
           [] [] only_failures).
  - lia.
  - vm_compute; discriminate.
  - intros [| [| [| i]]] Hi;
      [exists (Exception "Random failure!"); vm_compute; reflexivity
      | exists (Exception "Random failure!"); vm_compute; reflexivity
      | exists (Exception "Random failure!"); vm_compute; reflexivity
      | simpl in Hi; lia].
Defined.



Lemma positional_and_keyword_witness :
  cache_key [VStr "John"; VInt 30] [("email", VStr "x@y.com")]
  <> cache_key [VStr "John"] [("age", VInt 30); ("email", VStr "x@y.com")]
  /\ exists evs,
      out (snd (call_seq (memoize create_user_def)
                  [([VStr "John"; VInt 30], [("email", VStr "x@y.com")]);
                   ([VStr "John"], [("age", VInt 30); ("email", VStr "x@y.com")])]
                  fresh)) = ([] ++ evs)%list
      /\ invocations evs = 2%nat
      /\ size (cache (snd (call_seq (memoize create_user_def)
                             [([VStr "John"; VInt 30], [("email", VStr "x@y.com")]);
                              ([VStr "John"],
                               [("age", VInt 30); ("email", VStr "x@y.com")])]
                             fresh))) = 2%nat.
Proof.
  pose proof (@positional_and_keyword_keys_differ unit [VStr "John"] "age" (VInt 30)
                [("email", VStr "x@y.com")]
                [("age", VInt 30); ("email", VStr "x@y.com")]
                (Permutation_refl _)) as [Hne Hrun].
  split; [exact Hne|].
  apply (Hrun "create_user" (Some "Create a user with validated inputs")
           create_user_params create_user_body fresh eq_refl).
  intros c [<- | [<- | []]] w; eexists; reflexivity.
Defined.

Lemma refused_call_witness :
  exists s',
    call api_call [] [] busy = (Raise (RateLimitExceeded 3 10), s')
    /\ calls s' = prune 3 10 [0%Q; 1%Q; 2%Q]
    /\ (length (calls s') <= 3)%nat
    /\ (forall t, In t (calls s') -> In t [0%Q; 1%Q; 2%Q])
    /\ out s' = [] /\ world s' = tt
    /\ forall later,
        fst (call_seq api_call later s') = fst (call_seq api_call later (tick busy))
        /\ out (snd (call_seq api_call later s'))
           = out (snd (call_seq api_call later (tick busy)))
        /\ world (snd (call_seq api_call later s'))
           = world (snd (call_seq api_call later (tick busy))).
Proof.
  apply (refused_call_consumes_no_quota 3 10 "api_call" (Some "Simulated API call") []
           api_call_body [] [] busy).
  vm_compute. discriminate.
Defined.

(** * Further properties *)

(** ** Repeating a call *)

Lemma repeat_unfold {W} times (func : callable W) args kwargs s :
  call (repeat times func) args kwargs s =
  match repeat_loop func args kwargs (Z.to_nat times) None s with
  | (Return (Some v), s') => (Return v, s')
  | (Return None, s') => (Raise (UnboundLocalError "result"), s')
  | (Raise e, s') => (Raise e, s')
  end.
Proof.
  cbn [call repeat functools_wraps]. unfold mbind, M_bind.
  destruct (repeat_loop func args kwargs (Z.to_nat times) None s) as [[[v |] | e] s'];
    reflexivity.
Qed.

Lemma repeat_loop_S {W} (func : callable W) args kwargs remaining last s :
  repeat_loop func args kwargs (S remaining) last s =
  match call func args kwargs s with
  | (Return v, s1) => repeat_loop func args kwargs remaining (Some v) s1
  | (Raise e, s1) => (Raise e, s1)
  end.
Proof. reflexivity. Qed.

Lemma repeat_Invoked_snoc (ev : event) n :
  (ev :: List.repeat ev n = List.repeat ev n ++ [ev])%list.
Proof. induction n as [| n IH]; simpl; [reflexivity | now rewrite <- IH]. Qed.

(** The loop when every call that is left returns. *)
Lemma repeat_loop_returns {W} name doc ps body args kwargs :
  forall remaining last (s : machine W) v,
    (forall i, (i < remaining)%nat ->
               exists u, outcome_at (body args kwargs) i (world s) = Return u) ->
    match remaining with
    | O => last = Some v
    | S k => outcome_at (body args kwargs) k (world s) = Return v
    end ->
    exists s',
      repeat_loop (def name doc ps body) args kwargs remaining last s
      = (Return (Some v), s')
      /\ out s' = (out s ++ List.repeat (Invoked name args kwargs) remaining)%list
      /\ world s' = world_after (body args kwargs) remaining (world s).
Proof.
  induction remaining as [| r IH]; intros last s v Hret Hlast.
  - subst last. exists s. simpl. now rewrite app_nil_r.
  - rewrite repeat_loop_S, call_def.
    destruct (Hret 0%nat ltac:(lia)) as [u Hu].
    unfold outcome_at in Hu. simpl in Hu. rewrite Hu.
    match goal with |- context [repeat_loop _ _ _ r _ ?s1] =>
      destruct (IH (Some u) s1 v) as (s' & Hrun & Hout & Hw)
    end.
    + intros i Hi. simpl. rewrite <- outcome_at_S. apply Hret. lia.
    + destruct r as [| k].
      * unfold outcome_at in Hlast. simpl in Hlast. congruence.
      * simpl. rewrite <- outcome_at_S. exact Hlast.
    + exists s'. split; [exact Hrun|]. split; [|exact Hw].
      rewrite Hout. simpl. now rewrite <- app_assoc.
Qed.

(** The loop when the [k+1]-th call from here is the first to fail. *)
Lemma repeat_loop_fails {W} name doc ps body args kwargs :
  forall remaining k last (s : machine W) e,
    (k < remaining)%nat ->
    (forall i, (i < k)%nat ->
               exists u, outcome_at (body args kwargs) i (world s) = Return u) ->
    outcome_at (body args kwargs) k (world s) = Raise e ->
    exists s',
      repeat_loop (def name doc ps body) args kwargs remaining last s = (Raise e, s')
      /\ out s' = (out s ++ List.repeat (Invoked name args kwargs) (S k))%list
      /\ world s' = world_after (body args kwargs) (S k) (world s).
Proof.
  induction remaining as [| r IH]; intros k last s e Hk Hret Hfail; [lia|].
  rewrite repeat_loop_S, call_def.
  destruct k as [| k].
  - unfold outcome_at in Hfail. simpl in Hfail. rewrite Hfail.
    eexists. split; [reflexivity|]. split; reflexivity.
  - destruct (Hret 0%nat ltac:(lia)) as [u Hu].
    unfold outcome_at in Hu. simpl in Hu. rewrite Hu.
    match goal with |- context [repeat_loop _ _ _ r _ ?s1] =>
      destruct (IH k (Some u) s1 e) as (s' & Hrun & Hout & Hw)
    end.
    + lia.
    + intros i Hi. simpl. rewrite <- outcome_at_S. apply Hret. lia.
    + simpl. rewrite <- outcome_at_S. exact Hfail.
    + exists s'. split; [exact Hrun|]. split; [|exact Hw].
      rewrite Hout. simpl. now rewrite <- app_assoc.
Qed.

(** X1: [repeat(times)] with [times] at least 1, around a function that returns
    on each of its [times] runs: the wrapped call runs the function exactly
    [times] times, one run after the other on the same arguments, and
    returns what the last run returned. *)
Theorem repeat_runs_times_and_returns_last {W} times name doc ps body args kwargs
    (s : machine W) v :
  let run := body args kwargs in
  (1 <= times)%Z ->
  (forall i, (i < Z.to_nat times)%nat ->
             exists u, outcome_at run i (world s) = Return u) ->
  outcome_at run (Z.to_nat times - 1) (world s) = Return v ->
  exists s',
    call (repeat times (def name doc ps body)) args kwargs s = (Return v, s')
    /\ out s' = (out s ++ List.repeat (Invoked name args kwargs) (Z.to_nat times))%list
    /\ invocations (List.repeat (Invoked name args kwargs) (Z.to_nat times))
       = Z.to_nat times
    /\ world s' = world_after run (Z.to_nat times) (world s).
Proof.
  intros run Ht Hret Hlast.
  destruct (repeat_loop_returns name doc ps body args kwargs (Z.to_nat times) None s v)
    as (s' & Hrun & Hout & Hw).
  - exact Hret.
  - destruct (Z.to_nat times) as [| k] eqn:E; [lia|].
    simpl in Hlast. now rewrite Nat.sub_0_r in Hlast.
  - exists s'. rewrite repeat_unfold, Hrun.
    split; [reflexivity|]. split; [exact Hout|]. split; [|exact Hw].
    clear. induction (Z.to_nat times) as [| n IH]; [reflexivity|].
    simpl. unfold invocations in *. simpl. now rewrite IH.
Qed.

Lemma repeat_runs_times_witness :
  exists s',
    call say_hi [] [] (boot [] (fun _ => 0%Q)) = (Return VNone, s')
    /\ out s' = ([] ++ List.repeat (Invoked "say_hi" [] []) 3)%list
    /\ invocations (List.repeat (Invoked "say_hi" [] []) 3) = 3%nat
    /\ world s' = ["Hi!"; "Hi!"; "Hi!"].
Proof.
  apply (repeat_runs_times_and_returns_last 3 "say_hi" None [] say_hi_body [] []
           (boot [] (fun _ => 0%Q)) VNone).
  - lia.
  - intros [| [| [| i]]] Hi;
      [eexists; reflexivity | eexists; reflexivity | eexists; reflexivity
      | simpl in Hi; lia].
  - reflexivity.
Defined.

(** X2: [repeat(times)] stops at the first run that fails: when the function
    returns on its first [k] runs and fails on the next, with [k] below
    [times], the wrapped call raises that error and the function was run
    [k + 1] times, not [times]. *)
Theorem repeat_stops_at_first_error {W} times name doc ps body args kwargs
    (s : machine W) k e :
  let run := body args kwargs in
  (Z.of_nat k < times)%Z ->
  (forall i, (i < k)%nat -> exists u, outcome_at run i (world s) = Return u) ->
  outcome_at run k (world s) = Raise e ->
  exists s',
    call (repeat times (def name doc ps body)) args kwargs s = (Raise e, s')
    /\ out s' = (out s ++ List.repeat (Invoked name args kwargs) (S k))%list
    /\ world s' = world_after run (S k) (world s).
Proof.
  intros run Hk Hret Hfail.
  destruct (repeat_loop_fails name doc ps body args kwargs (Z.to_nat times) k None s e)
    as (s' & Hrun & Hout & Hw); try assumption; [lia|].
  exists s'. rewrite repeat_unfold, Hrun. repeat split; assumption.
Qed.

Lemma repeat_stops_at_first_error_witness :
  exists s',
    call (repeat 5 unreliable_function_def) [] []
      (boot (Rng (fun n => if (n <? 2)%nat then 1%Q else 0%Q) 0) (fun _ => 0%Q))
    = (Raise (Exception "Random failure!"), s')
    /\ out s' = ([] ++ List.repeat (Invoked "unreliable_function" [] []) 3)%list
    /\ world s' = Rng (fun n => if (n <? 2)%nat then 1%Q else 0%Q) 3.
Proof.
  apply (repeat_stops_at_first_error 5 "unreliable_function"
           (Some "Function that fails randomly") [] unreliable_function_body [] []
           (boot (Rng (fun n => if (n <? 2)%nat then 1%Q else 0%Q) 0) (fun _ => 0%Q))
           2%nat (Exception "Random failure!")).
  - lia.
  - intros [| [| i]] Hi; [exists (VStr "Success!"); vm_compute; reflexivity | exists (VStr "Success!"); vm_compute; reflexivity | lia].
  - vm_compute. reflexivity.
Defined.

(** X3: [repeat(times)] with [times] zero or negative: the loop body never
    runs, so [return result] finds [result] unbound; the wrapped call raises
    an [UnboundLocalError] and the function is not called at all. *)
Theorem repeat_zero_times_raises {W} times (func : callable W) args kwargs
    (s : machine W) :
  (times <= 0)%Z ->
  exists e,
    call (repeat times func) args kwargs s = (Raise e, s)
    /\ exc_type e = "UnboundLocalError".
Proof.
  intros Ht. rewrite repeat_unfold.
  replace (Z.to_nat times) with 0%nat by lia.
  eexists. split; reflexivity.
Qed.

Lemma repeat_zero_times_witness :
  exists e,
    call (repeat 0 say_hi_def) [] [] (boot [] (fun _ => 0%Q))
    = (Raise e, boot [] (fun _ => 0%Q))
    /\ exc_type e = "UnboundLocalError".
Proof.
  apply (repeat_zero_times_raises 0 say_hi_def [] [] (boot [] (fun _ => 0%Q))). lia.
Defined.

(** ** Counting calls *)

Lemma CountCalls_call_unfold {W} args kwargs (self : CountCalls.t W) s :
  CountCalls.__call__ args kwargs self s =
  (fst (call (CountCalls.func self) args kwargs
          (write [Printed [Text ("Call " ++ str_of_Z (CountCalls.count self + 1) ++ " of "
                                   ++ __name__ (CountCalls.func self))]] s)),
   CountCalls.Self (CountCalls.func self) (CountCalls.count self + 1),
   snd (call (CountCalls.func self) args kwargs
          (write [Printed [Text ("Call " ++ str_of_Z (CountCalls.count self + 1) ++ " of "
                                   ++ __name__ (CountCalls.func self))]] s))).
Proof.
  unfold CountCalls.__call__, mbind, MS_bind, get_state, put_state, lift, print, emit.
  cbn [CountCalls.func CountCalls.count].
  now destruct (call (CountCalls.func self) args kwargs _).
Qed.

Lemma calls_in_turn_count {W} cs : forall (self : CountCalls.t W) s,
  CountCalls.count (snd (fst (calls_in_turn CountCalls.__call__ cs self s)))
  = (CountCalls.count self + Z.of_nat (length cs))%Z
  /\ CountCalls.func (snd (fst (calls_in_turn CountCalls.__call__ cs self s)))
     = CountCalls.func self.
Proof.
  induction cs as [| c cs IH]; intros self s.
  - simpl. split; [lia | reflexivity].
  - cbn [calls_in_turn]. rewrite CountCalls_call_unfold.
    match goal with |- context [calls_in_turn _ cs ?self1 ?s1] =>
      destruct (IH self1 s1) as [IHc IHf];
      destruct (calls_in_turn CountCalls.__call__ cs self1 s1) as [[rs self'] s']
    end.
    cbn [fst snd CountCalls.count CountCalls.func] in *.
    split; [rewrite IHc; cbn [length]; lia | exact IHf].
Qed.

(** X4: [CountCalls]: a call adds one to the count, prints the new count and
    then calls the function, whose outcome it hands back; the count is
    raised before the function runs, so a call that fails is counted too.
    After any calls made in turn, [get_count] gives the count before them
    plus their number, whatever their outcomes; counted from [reset_count]
    or from a new instance, that is the number of calls.  Three calls of
    [add_numbers], the second one adding a number and a string, count as
    three. *)
Theorem count_calls_counts_every_call {W} (self : CountCalls.t W) cs (s : machine W) :
  (forall args kwargs,
      CountCalls.__call__ args kwargs self s =
      (fst (call (CountCalls.func self) args kwargs
              (write [Printed [Text ("Call " ++ str_of_Z (CountCalls.count self + 1)
                                       ++ " of " ++ __name__ (CountCalls.func self))]] s)),
       CountCalls.Self (CountCalls.func self) (CountCalls.count self + 1),
       snd (call (CountCalls.func self) args kwargs
              (write [Printed [Text ("Call " ++ str_of_Z (CountCalls.count self + 1)
                                       ++ " of " ++ __name__ (CountCalls.func self))]] s))))
  /\ (let '(rs, self', s') := calls_in_turn CountCalls.__call__ cs self s in
      CountCalls.get_count self' s'
      = (Return (CountCalls.count self + Z.of_nat (length cs))%Z, self', s'))
  /\ (let '(_, self0, s0) := CountCalls.reset_count self s in
      let '(rs, self', s') := calls_in_turn CountCalls.__call__ cs self0 s0 in
      CountCalls.get_count self' s' = (Return (Z.of_nat (length cs)), self', s'))
  /\ (let '(rs, self', s') :=
        calls_in_turn CountCalls.__call__ cs
          (CountCalls.__init__ (CountCalls.func self)) s in
      CountCalls.get_count self' s' = (Return (Z.of_nat (length cs)), self', s'))
  /\ (let '(rs, self', s') :=
        calls_in_turn CountCalls.__call__
          [([VInt 2; VInt 3], []); ([VInt 4; VStr "5"], []); ([VInt 4; VInt 5], [])]
          add_numbers s in
      rs = [Return (VInt 5);
            Raise (TypeError "unsupported operand type(s) for +: 'int' and 'str'");
            Return (VInt 9)]
      /\ CountCalls.count self' = 3%Z).
Proof.
  split; [|split; [|split; [|split]]]; [| | | | split; reflexivity].
  - intros args kwargs. apply CountCalls_call_unfold.
  - pose proof (calls_in_turn_count cs self s) as [Hc _].
    destruct (calls_in_turn CountCalls.__call__ cs self s) as [[rs self'] s'].
    cbn [fst snd] in Hc. unfold CountCalls.get_count, mbind, MS_bind, get_state.
    cbn. now rewrite Hc.
  - unfold CountCalls.reset_count, mbind, MS_bind, get_state, put_state.
    pose proof (calls_in_turn_count cs (CountCalls.Self (CountCalls.func self) 0) s)
      as [Hc _].
    destruct (calls_in_turn CountCalls.__call__ cs _ s) as [[rs self'] s'].
    cbn [fst snd CountCalls.count] in Hc.
    unfold CountCalls.get_count, mbind, MS_bind, get_state. cbn. now rewrite Hc.
  - unfold CountCalls.__init__.
    pose proof (calls_in_turn_count cs (CountCalls.Self (CountCalls.func self) 0) s)
      as [Hc _].
    destruct (calls_in_turn CountCalls.__call__ cs _ s) as [[rs self'] s'].
    cbn [fst snd CountCalls.count] in Hc.
    unfold CountCalls.get_count, mbind, MS_bind, get_state. cbn. now rewrite Hc.
Qed.

(** ** A decorator with statistics *)

Lemma stateful_wrapper_unfold {W} (func : callable W) args kwargs st s :
  stateful_decorator.wrapper func args kwargs st s =
  match call func args kwargs (tick s) with
  | (Raise e, s1) => (Raise e, st, s1)
  | (Return v, s1) =>
      let st' :=
        stateful_decorator.State (stateful_decorator.calls st + 1)
          (stateful_decorator.total_time st
           + (clock s1 (ticks s1) - clock s (ticks s)))%Q in
      match py_truediv (stateful_decorator.total_time st') (stateful_decorator.calls st')
      with
      | Raise e => (Raise e, st', tick s1)
      | Return average =>
          (Return v, st',
           write [Printed [Text ("Call #" ++ str_of_Z (stateful_decorator.calls st')
                                   ++ ", Average time: ");
                           Float4 average; Text "s"]] (tick s1))
      end
  end.
Proof.
  unfold stateful_decorator.wrapper, mbind, MS_bind, get_state, put_state, lift,
    time_time, lift_result, print, emit.
  destruct (call func args kwargs (tick s)) as [[v | e] s1]; [|reflexivity].
  cbn [stateful_decorator.calls stateful_decorator.total_time].
  destruct (py_truediv _ _); reflexivity.
Qed.

(** X5: [stateful_decorator], one call, from statistics whose count is not
    negative.  When the function returns, the wrapper returns its value, the
    count goes up by one and a line with the new count and the average, the
    total time over the count, is printed; the division never fails.  When
    the function raises, the error goes through, the statistics stay as they
    were and nothing is printed: a failed call is not counted. *)
Theorem stateful_decorator_counts_a_returned_call {W} (func : callable W) args kwargs
    st (s : machine W) :
  (0 <= stateful_decorator.calls st)%Z ->
  match call func args kwargs (tick s) with
  | (Return v, s1) =>
      exists st',
        stateful_decorator.wrapper func args kwargs st s
        = (Return v, st',
           write [Printed [Text ("Call #" ++ str_of_Z (stateful_decorator.calls st + 1)
                                   ++ ", Average time: ");
                           Float4 (stateful_decorator.total_time st'
                                   / inject_Z (stateful_decorator.calls st'))%Q;
                           Text "s"]] (tick s1))
        /\ stateful_decorator.calls st' = (stateful_decorator.calls st + 1)%Z
  | (Raise e, s1) =>
      stateful_decorator.wrapper func args kwargs st s = (Raise e, st, s1)
  end.
Proof.
  intros Hc. rewrite stateful_wrapper_unfold.
  destruct (call func args kwargs (tick s)) as [[v | e] s1]; [|reflexivity].
  cbv zeta. unfold py_truediv. cbn [stateful_decorator.calls stateful_decorator.total_time].
  destruct (Z.eqb_spec (stateful_decorator.calls st + 1) 0) as [H0 | _]; [lia|].
  exists (stateful_decorator.State (stateful_decorator.calls st + 1)
            (stateful_decorator.total_time st
             + (clock s1 (ticks s1) - clock s (ticks s)))%Q).
  split; reflexivity.
Qed.

Lemma stateful_decorator_call_witness :
  exists st',
    process_data [VList [VInt 1; VInt 2; VInt 3]] [] stateful_decorator.initial fresh
    = (Return (VInt 3), st',
       write [Printed [Text "Call #1, Average time: ";
                       Float4 (stateful_decorator.total_time st'
                               / inject_Z (stateful_decorator.calls st'))%Q;
                       Text "s"]]
         (tick (write [Invoked "process_data" [VList [VInt 1; VInt 2; VInt 3]] [];
                       Slept (float_literal (1 # 10))] (tick fresh))))
    /\ stateful_decorator.calls st' = 1%Z.
Proof.
  assert (E : call process_data_def [VList [VInt 1; VInt 2; VInt 3]] [] (tick fresh)
              = (Return (VInt 3),
                 write [Invoked "process_data" [VList [VInt 1; VInt 2; VInt 3]] [];
                        Slept (float_literal (1 # 10))] (tick fresh)))
    by (vm_compute; reflexivity).
  pose proof (stateful_decorator_counts_a_returned_call process_data_def
                [VList [VInt 1; VInt 2; VInt 3]] [] stateful_decorator.initial fresh
                ltac:(simpl; lia)) as P.
  rewrite E in P. exact P.
Defined.

(** The number of calls, among those made in turn, that returned. *)
Lemma stateful_calls_in_turn {W} (func : callable W) cs : forall st (s : machine W),
  (0 <= stateful_decorator.calls st)%Z ->
  stateful_decorator.calls
    (snd (fst (calls_in_turn (stateful_decorator.wrapper func) cs st s)))
  = (stateful_decorator.calls st
     + Z.of_nat (length (List.filter is_Return
                           (fst (fst (calls_in_turn (stateful_decorator.wrapper func)
                                        cs st s))))))%Z.
Proof.
  induction cs as [| c cs IH]; intros st s Hc.
  - simpl. lia.
  - cbn [calls_in_turn]. rewrite stateful_wrapper_unfold.
    destruct (call func (fst c) (snd c) (tick s)) as [[v | e] s1].
    + cbv zeta. unfold py_truediv.
      cbn [stateful_decorator.calls stateful_decorator.total_time].
      destruct (Z.eqb_spec (stateful_decorator.calls st + 1) 0) as [H0 | _]; [lia|].
      match goal with |- context [calls_in_turn _ cs ?st1 ?s2] =>
        specialize (IH st1 s2);
        destruct (calls_in_turn (stateful_decorator.wrapper func) cs st1 s2)
          as [[rs st'] s']
      end.
      cbn [fst snd stateful_decorator.calls List.filter is_Return length] in *.
      rewrite IH by lia. lia.
    + specialize (IH st s1 Hc).
      destruct (calls_in_turn (stateful_decorator.wrapper func) cs st s1)
        as [[rs st'] s'].
      cbn [fst snd List.filter is_Return] in *. exact IH.
Qed.

(** X6: [stateful_decorator] over calls made in turn, from statistics whose
    count is not negative (as after [reset_stats] or at the start): the
    count ends as the count before plus the number of calls that returned;
    calls that raised are not in it. *)
Theorem stateful_decorator_counts_returned_calls {W} (func : callable W) cs st
    (s : machine W) :
  (0 <= stateful_decorator.calls st)%Z ->
  let '(rs, st', s') := calls_in_turn (stateful_decorator.wrapper func) cs st s in
  stateful_decorator.get_stats st' s' = (Return st', st', s')
  /\ stateful_decorator.calls st'
     = (stateful_decorator.calls st + Z.of_nat (length (List.filter is_Return rs)))%Z
  /\ (length (List.filter is_Return rs) <= length cs)%nat
  /\ fst (fst (stateful_decorator.reset_stats st' s')) = Return tt
  /\ snd (fst (stateful_decorator.reset_stats st' s')) = stateful_decorator.initial.
Proof.
  intros Hc.
  pose proof (stateful_calls_in_turn func cs st s Hc) as H.
  assert (Hlen : length (fst (fst (calls_in_turn (stateful_decorator.wrapper func)
                                     cs st s))) = length cs).
  { clear. revert st s. induction cs as [| c cs IH]; intros st s; [reflexivity|].
    cbn [calls_in_turn].
    destruct (stateful_decorator.wrapper func (fst c) (snd c) st s) as [[r st1] s1].
    specialize (IH st1 s1).
    destruct (calls_in_turn (stateful_decorator.wrapper func) cs st1 s1)
      as [[rs st'] s'].
    cbn [fst length] in *. now rewrite IH. }
  destruct (calls_in_turn (stateful_decorator.wrapper func) cs st s) as [[rs st'] s'].
  cbn [fst snd] in *.
  split; [reflexivity|]. split; [exact H|]. split; [|split; reflexivity].
  rewrite <- Hlen. apply List.filter_length_le.
Qed.

Lemma stateful_decorator_counts_witness :
  let '(rs, st', s') :=
    calls_in_turn process_data
      [([VList [VInt 1; VInt 2; VInt 3]], []); ([VInt 7], []); ([VStr "ab"], [])]
      stateful_decorator.initial fresh in
  stateful_decorator.get_stats st' s' = (Return st', st', s')
  /\ stateful_decorator.calls st'
     = (0 + Z.of_nat (length (List.filter is_Return rs)))%Z
  /\ (length (List.filter is_Return rs) <= 3)%nat
  /\ fst (fst (stateful_decorator.reset_stats st' s')) = Return tt
  /\ snd (fst (stateful_decorator.reset_stats st' s')) = stateful_decorator.initial.
Proof.
  apply (stateful_decorator_counts_returned_calls process_data_def
           [([VList [VInt 1; VInt 2; VInt 3]], []); ([VInt 7], []); ([VStr "ab"], [])]
           stateful_decorator.initial fresh).
  simpl. lia.
Defined.

(** ** The timing context manager *)

Lemma timer_context_unfold {W A} (block : Q -> M W A) (s : machine W) :
  timer_context block s
  = let (r, s1) := block (clock s (ticks s))
                     (write [Printed [Text "Timer started"]] (tick s)) in
    (r, write [Printed [Text "Timer ended. Elapsed: ";
                        Float4 (clock s1 (ticks s1) - clock s (ticks s))%Q;
                        Text " seconds"]]
          (tick s1)).
Proof.
  unfold timer_context, mbind, M_bind, time_time, print, emit, try_finally.
  destruct (block (clock s (ticks s)) _) as [r s1]. reflexivity.
Qed.

(** X7: A call of a function decorated with [timer], made inside
    [with timer_context():].  When the function returns, the duration that
    [timer] prints comes before the elapsed time of the context manager,
    the clock has been read four times and, on a clock that does not run
    backwards, the duration is at most the elapsed time.  When the function
    raises, [timer] prints nothing and does not read the clock again, but
    the context manager still reads it and prints the elapsed time; the
    error is what the [with] statement raises. *)
Theorem timer_context_reports_when_timer_does_not {W} name doc ps body args kwargs
    (s : machine W) :
  let t i := clock s (i + ticks s)%nat in
  let block (start : Q) := call (timer (def name doc ps body)) args kwargs in
  (t 0%nat <= t 1%nat)%Q -> (t 1%nat <= t 2%nat)%Q -> (t 2%nat <= t 3%nat)%Q ->
  match fst (body args kwargs (world s)) with
  | Return v =>
      exists s',
        timer_context block s = (Return v, s')
        /\ out s' = (out s
                     ++ [Printed [Text "Timer started"];
                         Invoked name args kwargs;
                         Printed [Text (name ++ " took "); Float4 (t 2%nat - t 1%nat)%Q;
                                  Text " seconds to execute"];
                         Printed [Text "Timer ended. Elapsed: ";
                                  Float4 (t 3%nat - t 0%nat)%Q; Text " seconds"]])%list
        /\ ticks s' = (4 + ticks s)%nat
        /\ (0 <= t 2%nat - t 1%nat <= t 3%nat - t 0%nat)%Q
  | Raise e =>
      exists s',
        timer_context block s = (Raise e, s')
        /\ out s' = (out s
                     ++ [Printed [Text "Timer started"];
                         Invoked name args kwargs;
                         Printed [Text "Timer ended. Elapsed: ";
                                  Float4 (t 2%nat - t 0%nat)%Q; Text " seconds"]])%list
        /\ ticks s' = (3 + ticks s)%nat
        /\ (0 <= t 2%nat - t 0%nat)%Q
  end.
Proof.
  intros t block H01 H12 H23.
  rewrite timer_context_unfold. subst block. cbv beta.
  rewrite timer_unfold, call_def.
  cbn [world write tick set_world fst snd clock ticks __name__ def].
  destruct (body args kwargs (world s)) as [[v | e] w]; cbn [fst snd];
    (eexists; split; [reflexivity|]);
    cbn [out write tick set_world ticks clock]; (split; [|split]).
  - rewrite <- !app_assoc. reflexivity.
  - reflexivity.
  - subst t. cbn [Nat.add] in *. lra.
  - rewrite <- !app_assoc. reflexivity.
  - reflexivity.
  - subst t. cbn [Nat.add] in *. lra.
Qed.

Lemma timer_context_reports_witness :
  (exists s',
      timer_context (fun _ => call (timer greet_def) [VStr "Bob"] []) fresh
      = (Return (VStr "Hello, Bob!"), s')
      /\ out s' = ([] ++ [Printed [Text "Timer started"];
                          Invoked "greet" [VStr "Bob"] [];
                          Printed [Text "greet took "; Float4 (seconds 2 - seconds 1)%Q;
                                   Text " seconds to execute"];
                          Printed [Text "Timer ended. Elapsed: ";
                                   Float4 (seconds 3 - seconds 0)%Q; Text " seconds"]])%list
      /\ ticks s' = 4%nat
      /\ (0 <= seconds 2 - seconds 1 <= seconds 3 - seconds 0)%Q)
  /\ (let s := boot (Rng (fun _ => 0%Q) 0) seconds in
      exists s',
        timer_context (fun _ => call (timer unreliable_function_def) [] []) s
        = (Raise (Exception "Random failure!"), s')
        /\ out s' = ([] ++ [Printed [Text "Timer started"];
                            Invoked "unreliable_function" [] [];
                            Printed [Text "Timer ended. Elapsed: ";
                                     Float4 (seconds 2 - seconds 0)%Q;
                                     Text " seconds"]])%list
        /\ ticks s' = 3%nat
        /\ (0 <= seconds 2 - seconds 0)%Q).
Proof.
  split.
  - apply (timer_context_reports_when_timer_does_not "greet"
             (Some "Greets a person by name") [Param "name" None] greet_body
             [VStr "Bob"] [] fresh); vm_compute; discriminate.
  - intros s.
    pose proof (timer_context_reports_when_timer_does_not "unreliable_function"
                  (Some "Function that fails randomly") [] unreliable_function_body
                  [] [] s) as H.
    cbv zeta in H.
    assert (E : fst (unreliable_function_body [] [] (world s))
                = Raise (Exception "Random failure!")) by (vm_compute; reflexivity).
    rewrite E in H.
    apply H; vm_compute; discriminate.
Defined.

(** ** The radius of a circle *)

Lemma radius_setter_spec self v :
  match Circle.radius_setter self v with
  | Return self' => Circle.radius self' = v /\ non_negative v
  | Raise e => ~ non_negative v
  end.
Proof.
  unfold Circle.radius_setter, py_lt_int, non_negative.
  destruct (as_index v) as [n |] eqn:E.
  - destruct (Z.ltb_spec n 0).
    + intros (m & Hm & Hpos). inversion Hm; subst. lia.
    + split; [reflexivity|]. exists n. split; [reflexivity | assumption].
  - intros (m & Hm & _). discriminate.
Qed.

(** X8: The setter of [radius] accepts a value exactly when it is a number
    that is not negative, and the getter then gives that value.  A negative
    number is refused with the ValueError 'Radius cannot be negative', a
    value that is no number with the TypeError of the comparison
    [value < 0]; a refused assignment leaves the circle as it was.  So a
    circle whose radius is not negative keeps a radius that is not negative
    whatever is assigned to it.  (The constructor stores its argument
    unchecked, hence the hypothesis.) *)
Theorem radius_stays_non_negative (self : Circle.t) (vs : list value) :
  non_negative (Circle.radius self) ->
  non_negative (Circle.radius (Circle.assign_all self vs))
  /\ (forall v,
        non_negative v ->
        exists self', Circle.radius_setter self v = Return self'
                      /\ Circle.radius self' = v)
  /\ (forall v self',
        Circle.radius_setter self v = Return self' ->
        non_negative v /\ Circle.radius self' = v)
  /\ (forall v n,
        as_index v = Some n -> (n < 0)%Z ->
        Circle.radius_setter self v = Raise (ValueError "Radius cannot be negative")
        /\ Circle.assign_all self [v] = self)
  /\ (forall v,
        as_index v = None ->
        Circle.radius_setter self v
        = Raise (TypeError ("'<' not supported between instances of '"
                              ++ type_name (type_of v) ++ "' and 'int'"))
        /\ Circle.assign_all self [v] = self)
  /\ (forall v, Circle.radius (Circle.__init__ v) = v).
Proof.
  intros H. split; [|split; [|split; [|split; [|split]]]].
  - revert self H. induction vs as [| v vs IH]; intros self H; [exact H|].
    cbn [Circle.assign_all].
    pose proof (radius_setter_spec self v) as Hs.
    destruct (Circle.radius_setter self v) as [self' | e].
    + apply IH. destruct Hs as [-> Hv]. exact Hv.
    + apply IH. exact H.
  - intros v (n & Hn & Hpos). unfold Circle.radius_setter, py_lt_int. rewrite Hn.
    destruct (Z.ltb_spec n 0); [lia|]. eexists. split; reflexivity.
  - intros v self' Hset. pose proof (radius_setter_spec self v) as Hs.
    rewrite Hset in Hs. destruct Hs as [Hr Hv]. split; assumption.
  - intros v n Hn Hneg. unfold Circle.assign_all, Circle.radius_setter, py_lt_int.
    rewrite Hn. destruct (Z.ltb_spec n 0); [|lia]. split; reflexivity.
  - intros v Hn. unfold Circle.assign_all, Circle.radius_setter, py_lt_int.
    rewrite Hn. split; reflexivity.
  - reflexivity.
Qed.

Lemma radius_stays_non_negative_witness :
  non_negative
    (Circle.radius
       (Circle.assign_all Circle.unit_circle [VInt 5; VInt (-2); VStr "wide"; VInt 0]))
  /\ Circle.radius
       (Circle.assign_all Circle.unit_circle [VInt 5; VInt (-2); VStr "wide"]) = VInt 5
  /\ Circle.radius_setter Circle.unit_circle (VInt (-2))
     = Raise (ValueError "Radius cannot be negative")
  /\ Circle.radius_setter Circle.unit_circle (VStr "wide")
     = Raise (TypeError "'<' not supported between instances of 'str' and 'int'").
Proof.
  assert (Hunit : non_negative (Circle.radius Circle.unit_circle))
    by (exists 1%Z; split; [reflexivity | lia]).
  pose proof (radius_stays_non_negative Circle.unit_circle
                [VInt 5; VInt (-2); VStr "wide"; VInt 0] Hunit)
    as (Hkeep & _ & _ & Hneg & Hstr & _).
  split; [exact Hkeep|]. split; [reflexivity|]. split.
  - apply (Hneg (VInt (-2)) (-2)%Z); [reflexivity | lia].
  - apply (Hstr (VStr "wide")). reflexivity.
Defined.

(** ** Timers around timers *)

(** X9: Two [timer]s stacked on a function that returns: the inner one reads
    the clock after the outer one and again before it, so the inner
    duration is printed first and, on a clock that does not run backwards,
    is at most the outer duration. *)
Theorem nested_timers_report_inner_first {W} name doc ps body args kwargs
    (s : machine W) v :
  let t i := clock s (i + ticks s)%nat in
  fst (body args kwargs (world s)) = Return v ->
  (t 0%nat <= t 1%nat)%Q -> (t 2%nat <= t 3%nat)%Q ->
  exists s',
    call (timer (timer (def name doc ps body))) args kwargs s = (Return v, s')
    /\ out s' = (out s ++ [Invoked name args kwargs;
                           Printed [Text (name ++ " took "); Float4 (t 2%nat - t 1%nat)%Q;
                                    Text " seconds to execute"];
                           Printed [Text (name ++ " took "); Float4 (t 3%nat - t 0%nat)%Q;
                                    Text " seconds to execute"]])%list
    /\ ticks s' = (4 + ticks s)%nat
    /\ (t 2%nat - t 1%nat <= t 3%nat - t 0%nat)%Q.
Proof.
  intros t Hv H01 H23.
  rewrite timer_unfold, timer_unfold, call_def.
  cbn [world write tick set_world fst snd clock ticks __name__ timer functools_wraps def].
  rewrite Hv.
  eexists. split; [reflexivity|].
  cbn [out write tick set_world ticks]. split; [|split].
  - rewrite <- !app_assoc. reflexivity.
  - reflexivity.
  - subst t. cbn [Nat.add] in *. lra.
Qed.

Lemma nested_timers_witness :
  exists s',
    call (timer (timer greet_def)) [VStr "Bob"] [] fresh = (Return (VStr "Hello, Bob!"), s')
    /\ out s' = ([] ++ [Invoked "greet" [VStr "Bob"] [];
                        Printed [Text "greet took "; Float4 (seconds 2 - seconds 1)%Q;
                                 Text " seconds to execute"];
                        Printed [Text "greet took "; Float4 (seconds 3 - seconds 0)%Q;
                                 Text " seconds to execute"]])%list
    /\ ticks s' = 4%nat
    /\ (seconds 2 - seconds 1 <= seconds 3 - seconds 0)%Q.
Proof.
  apply (nested_timers_report_inner_first "greet" (Some "Greets a person by name")
           [Param "name" None] greet_body [VStr "Bob"] [] fresh (VStr "Hello, Bob!")).
  - reflexivity.
  - vm_compute. discriminate.
  - vm_compute. discriminate.
Defined.

(** X10: [conditional_decorator]: the wrapped function returns or raises what
    the function does, with the same effect on the world and the same one
    call of it.  With a false condition the function is left as it is; with
    a true one the clock is read before the call and, only when the call
    returns, read again and the duration printed. *)
Theorem conditional_decorator_only_adds_the_timing {W} (condition : bool)
    name doc ps body args kwargs (s : machine W) :
  let f := def name doc ps body in
  let (r0, s0) := call f args kwargs s in
  let (r, s') := call (conditional_decorator condition f) args kwargs s in
  r = r0
  /\ world s' = world s0
  /\ invocations (out s') = invocations (out s0)
  /\ (condition = false -> s' = s0)
  /\ (condition = true ->
      ticks s' = ((if is_Return r then 2 else 1) + ticks s)%nat
      /\ out s' = (out s0
                   ++ (if is_Return r
                       then [Printed [Text (name ++ " took ");
                                      Float4 (clock s (S (ticks s)) - clock s (ticks s))%Q;
                                      Text " seconds to execute"]]
                       else []))%list).
Proof.
  cbv zeta. destruct condition; cbn [conditional_decorator].
  - rewrite timer_unfold, !call_def.
    cbn [world write tick set_world clock ticks __name__ def].
    destruct (body args kwargs (world s)) as [[v | e] w];
      cbn [fst snd is_Return out world write tick set_world ticks];
      rewrite ?invocations_app, ?app_nil_r;
      repeat split; try reflexivity; try discriminate.
    cbn. lia.
  - destruct (call (def name doc ps body) args kwargs s) as [r0 s0].
    repeat split; try reflexivity; discriminate.
Qed.

(** ** Logging below the logger's level *)

(** X11: [log_calls] with a level below INFO, the level of the logger: the
    records of the call and of its result are dropped, so a call that
    returns leaves no record at all; a call that raises is still recorded,
    once, at ERROR, and the error goes on to the caller. *)
Theorem log_calls_below_INFO_records_only_errors {W} level (func : callable W)
    args kwargs (s : machine W) :
  (level < INFO)%Z ->
  call (log_calls level func) args kwargs s =
  match call func args kwargs s with
  | (Return v, s1) => (Return v, s1)
  | (Raise e, s1) =>
      (Raise e,
       write [Logged ERROR (__name__ func ++ " raised " ++ exc_type e ++ ": "
                              ++ exc_msg e)] s1)
  end.
Proof.
  intros Hl. apply Z.leb_gt in Hl.
  cbn [call log_calls functools_wraps].
  unfold mbind, M_bind, try_except, logger_error, logger_log. rewrite Hl.
  cbn. destruct (call func args kwargs s) as [[v | e] s1]; reflexivity.
Qed.

Lemma log_calls_below_INFO_witness :
  call (log_calls 10 calculate_area_def) [VInt 5; VInt 3] [] fresh
  = (Return (VInt 15), write [Invoked "calculate_area" [VInt 5; VInt 3] []] fresh)
  /\ call (log_calls 10 calculate_area_def) [VNone; VInt 3] [] fresh
     = (Raise (TypeError "unsupported operand type(s) for *: 'NoneType' and 'int'"),
        write [Logged 40 ("calculate_area raised TypeError: "
                            ++ "unsupported operand type(s) for *: 'NoneType' and 'int'")]
          (write [Invoked "calculate_area" [VNone; VInt 3] []] fresh)).
Proof.
  split.
  - apply (log_calls_below_INFO_records_only_errors 10 calculate_area_def
             [VInt 5; VInt 3] [] fresh).
    reflexivity.
  - apply (log_calls_below_INFO_records_only_errors 10 calculate_area_def
             [VNone; VInt 3] [] fresh).
    reflexivity.
Defined.

(** ** More on validation *)

Lemma check_types_first {W} pre p t post arguments v (s : machine W) :
  (forall q u x, In (q, u) pre -> lookup_kw q arguments = Some x ->
                 isinstance x u = true) ->
  lookup_kw p arguments = Some v ->
  isinstance v t = false ->
  check_types (pre ++ (p, t) :: post) arguments s = (Raise (mismatch_error p t v), s).
Proof.
  intros Hpre Hv Hi. induction pre as [| [q u] pre IH]; simpl.
  - now rewrite Hv, Hi.
  - destruct (lookup_kw q arguments) as [x |] eqn:Hx.
    + rewrite (Hpre q u x (or_introl eq_refl) Hx).
      apply IH. intros q' u' x' Hin. apply Hpre. now right.
    + apply IH. intros q' u' x' Hin. apply Hpre. now right.
Qed.

Lemma check_types_unbound {W} expected arguments (s : machine W) :
  (forall p t, In (p, t) expected -> lookup_kw p arguments = None) ->
  check_types expected arguments s = (Return tt, s).
Proof.
  induction expected as [| [p t] rest IH]; intros H; simpl; [reflexivity|].
  rewrite (H p t (or_introl eq_refl)). apply IH.
  intros q u Hin. apply (H q u). now right.
Qed.

Lemma lookup_kw_defaults_of_other ps (A : kwargs_t) name :
  ~ In name (map pname ps) -> lookup_kw name (defaults_of ps A) = None.
Proof.
  induction ps as [| p ps IH]; simpl; intros H; [reflexivity|].
  destruct (lookup_kw (pname p) A); [|destruct (pdefault p)]; simpl;
    try (destruct (String.eqb_spec name (pname p)) as [-> | Hne]; [tauto|]);
    apply IH; tauto.
Qed.

(** X12: When several arguments have the wrong type, the error names the first
    mismatch in the order in which the expected types were given to
    [validate_types], which need not be the order of the parameters. *)
Theorem validate_types_reports_first_configured_mismatch {W} pre p t post
    (func : callable W) args kwargs bound v (s : machine W) :
  sig_bind (__signature__ func) args kwargs = Return bound ->
  let arguments := apply_defaults (__signature__ func) bound in
  (forall q u x, In (q, u) pre -> lookup_kw q arguments = Some x ->
                 isinstance x u = true) ->
  lookup_kw p arguments = Some v ->
  isinstance v t = false ->
  call (validate_types (pre ++ (p, t) :: post) func) args kwargs s
  = (Raise (TypeError (p ++ " must be " ++ type_name t ++ ", got "
                         ++ type_name (type_of v))), s).
Proof.
  intros Hb arguments Hpre Hv Hi.
  rewrite validate_types_unfold, Hb. fold arguments.
  now rewrite (check_types_first pre p t post arguments v s Hpre Hv Hi).
Qed.

Lemma validate_types_first_mismatch_witness :
  call (validate_types [("y", TInt); ("x", TInt)] multiply_def)
    [VStr "4"; VStr "5"] [] fresh
  = (Raise (TypeError "y must be int, got str"), fresh).
Proof.
  apply (validate_types_reports_first_configured_mismatch [] "y" TInt [("x", TInt)]
           multiply_def [VStr "4"; VStr "5"] [] [("x", VStr "4"); ("y", VStr "5")]
           (VStr "5") fresh).
  - reflexivity.
  - intros q u x [].
  - reflexivity.
  - reflexivity.
Defined.

(** X13: An expected type given for a name that is not a parameter of the
    function checks nothing: when none of the names is a parameter, every
    call that binds goes to the function as if it were not decorated. *)
Theorem validate_types_ignores_other_names {W} expected (func : callable W) ps
    args kwargs bound (s : machine W) :
  __signature__ func = Params ps ->
  (forall p t, In (p, t) expected -> ~ In p (map pname ps)) ->
  sig_bind (Params ps) args kwargs = Return bound ->
  call (validate_types expected func) args kwargs s = call func args kwargs s.
Proof.
  intros Hsig Hnames Hb.
  rewrite validate_types_unfold, Hsig, Hb.
  rewrite check_types_unbound; [reflexivity|].
  intros p t Hin. cbn [apply_defaults].
  apply lookup_kw_defaults_of_other. now apply (Hnames p t).
Qed.

Lemma validate_types_ignores_other_names_witness :
  call (validate_types [("nmae", TInt)] greet_def) [VStr "Bob"] [] fresh
  = call greet_def [VStr "Bob"] [] fresh.
Proof.
  apply (validate_types_ignores_other_names [("nmae", TInt)] greet_def
           [Param "name" None] [VStr "Bob"] [] [("name", VStr "Bob")] fresh).
  - reflexivity.
  - intros p t [H | []]. inversion H; subst. simpl. intuition discriminate.
  - reflexivity.
Defined.

(** X14: [validate_types] around a wrapper made without [functools.wraps]
    checks nothing: the signature it inspects is the wrapper's own
    catch-all pair, so no expected name (other than [args] and [kwargs]) is
    ever bound, and every call goes through, whatever the types. *)
Theorem validate_types_around_my_decorator_checks_nothing {W} expected
    (func : callable W) args kwargs (s : machine W) :
  (forall p t, In (p, t) expected -> p <> "args" /\ p <> "kwargs") ->
  call (validate_types expected (my_decorator func)) args kwargs s
  = call (my_decorator func) args kwargs s.
Proof.
  intros Hnames. rewrite validate_types_unfold.
  cbn [__signature__ my_decorator plain_wrapper sig_bind].
  rewrite check_types_unbound; [reflexivity|].
  intros p t Hin. destruct (Hnames p t Hin) as [Ha Hk].
  cbn [apply_defaults lookup_kw].
  destruct (String.eqb_spec p "args"); [contradiction|].
  destruct (String.eqb_spec p "kwargs"); [contradiction|]. reflexivity.
Qed.

Lemma validate_types_around_my_decorator_witness :
  call (validate_types [("x", TInt); ("y", TInt)] (my_decorator multiply_def))
    [VStr "4"; VInt 2] [] fresh
  = call (my_decorator multiply_def) [VStr "4"; VInt 2] [] fresh.
Proof.
  apply (validate_types_around_my_decorator_checks_nothing [("x", TInt); ("y", TInt)]
           multiply_def [VStr "4"; VInt 2] [] fresh).
  intros p t [H | [H | []]]; inversion H; subst; split; discriminate.
Defined.

(** X15: Defaults are checked like given values: when a call leaves out a
    parameter whose default is not of the type expected for it, the call
    raises a [TypeError] and the function is not called. *)
Theorem validate_types_checks_defaults {W} expected (func : callable W) ps
    args kwargs bound i p d t (s : machine W) :
  __signature__ func = Params ps ->
  List.NoDup (map pname ps) ->
  sig_bind (Params ps) args kwargs = Return bound ->
  nth_error ps i = Some p -> (length args <= i)%nat ->
  lookup_kw (pname p) kwargs = None ->
  pdefault p = Some d ->
  In (pname p, t) expected ->
  isinstance d t = false ->
  exists msg,
    call (validate_types expected func) args kwargs s = (Raise (TypeError msg), s).
Proof.
  intros Hsig Hnd Hb Hp Hi Hk Hd Hin Hinst.
  destruct (sig_bind_arguments ps args kwargs bound Hnd Hb) as (_ & _ & _ & Hdef).
  destruct (Hdef i p Hp Hi Hk) as [_ Hl].
  destruct (validate_types_mismatch expected func args kwargs s bound)
    as (q & u & v & _ & Hcall).
  - now rewrite Hsig.
  - exists (pname p), t, d. rewrite Hsig. split; [exact Hin|].
    split; [now rewrite Hl, Hd | exact Hinst].
  - eexists. exact Hcall.
Qed.

Lemma validate_types_checks_defaults_witness :
  exists msg,
    call (validate_types [("greeting", TStr)]
            (def "welcome" None [Param "name" None; Param "greeting" (Some (VInt 0))]
               (fun _ _ (w : unit) => (Return VNone, w))))
      [VStr "Bob"] [] fresh
    = (Raise (TypeError msg), fresh).
Proof.
  apply (validate_types_checks_defaults [("greeting", TStr)]
           (def "welcome" None [Param "name" None; Param "greeting" (Some (VInt 0))]
              (fun _ _ (w : unit) => (Return VNone, w)))
           [Param "name" None; Param "greeting" (Some (VInt 0))]
           [VStr "Bob"] [] [("name", VStr "Bob")] 1%nat
           (Param "greeting" (Some (VInt 0))) (VInt 0) TStr fresh).
  - reflexivity.
  - repeat constructor; simpl; intuition discriminate.
  - reflexivity.
  - reflexivity.
  - simpl. lia.
  - reflexivity.
  - reflexivity.
  - left. reflexivity.
  - reflexivity.
Defined.

(** ** More on retrying *)

(** X16: [retry] with a negative delay and two attempts or more: the first
    failure is announced, [time.sleep] refuses the negative length, and its
    [ValueError] leaves the wrapper at once; the function has been called
    once and is not called again. *)
Theorem retry_negative_delay_fails_at_first_wait {W} max_attempts delay
    (func : callable W) args kwargs (s : machine W) e s1 :
  (delay < 0)%Q ->
  (2 <= max_attempts)%Z ->
  call func args kwargs s = (Raise e, s1) ->
  call (retry max_attempts delay func) args kwargs s
  = (Raise (ValueError "sleep length must be non-negative"),
     write [Printed [Text ("Attempt 1 failed: " ++ exc_msg e ++ ". Retrying in ");
                     Float delay; Text " seconds..."]] s1).
Proof.
  intros Hd Hm Hcall. rewrite retry_unfold.
  destruct (Z.to_nat max_attempts) as [| r] eqn:E; [lia|].
  rewrite retry_loop_S, Hcall.
  assert (Hlt : (0 <? max_attempts - 1)%Z = true) by (apply Z.ltb_lt; lia).
  rewrite Hlt. cbv zeta.
  assert (Hneg : Qle_bool 0 delay = false).
  { destruct (Qle_bool 0 delay) eqn:Eq; [|reflexivity].
    apply Qle_bool_iff in Eq. exfalso. apply (Qlt_not_le _ _ Hd Eq). }
  rewrite Hneg. reflexivity.
Qed.

Lemma retry_negative_delay_witness :
  call (retry 3 (-1 # 2) unreliable_function_def) [] [] only_failures
  = (Raise (ValueError "sleep length must be non-negative"),
     write [Printed [Text ("Attempt 1 failed: " ++ "Random failure!" ++ ". Retrying in ");
                     Float (-1 # 2); Text " seconds..."]]
       (set_world (Rng (fun _ => 0%Q) 1)
          (write [Invoked "unreliable_function" [] []] only_failures))).
Proof.
  apply (retry_negative_delay_fails_at_first_wait 3 (-1 # 2) unreliable_function_def
           [] [] only_failures (Exception "Random failure!")).
  - reflexivity.
  - lia.
  - reflexivity.
Defined.

(** X17: [retry] with no attempt to make ([max_attempts] zero or negative): the
    loop body never runs and [raise last_exception] raises [None], which is
    a [TypeError]; the function is not called and nothing is printed. *)
Theorem retry_without_attempts_raises_TypeError {W} max_attempts delay
    (func : callable W) args kwargs (s : machine W) :
  (max_attempts <= 0)%Z ->
  call (retry max_attempts delay func) args kwargs s
  = (Raise (TypeError "exceptions must derive from BaseException"), s).
Proof.
  intros Hm. rewrite retry_unfold.
  replace (Z.to_nat max_attempts) with 0%nat by lia. reflexivity.
Qed.

Lemma retry_without_attempts_witness :
  call (retry 0 (1 # 2) unreliable_function_def) [] [] two_failures
  = (Raise (TypeError "exceptions must derive from BaseException"), two_failures).
Proof.
  apply (retry_without_attempts_raises_TypeError 0 (1 # 2) unreliable_function_def
           [] [] two_failures).
  lia.
Defined.

(** Every sleep of the loop is of [delay] seconds. *)
Lemma retry_loop_sleeps_of {W} max_attempts delay name doc ps body args kwargs :
  forall remaining attempt last (s : machine W),
  exists evs,
    out (snd (retry_loop max_attempts delay (def name doc ps body) args kwargs
                remaining attempt last s)) = (out s ++ evs)%list
    /\ sleeps_of delay evs.
Proof.
  induction remaining as [| r IH]; intros attempt last s.
  - exists []. destruct last; simpl; rewrite app_nil_r; split; constructor.
  - rewrite retry_loop_S, call_def.
    destruct (fst (body args kwargs (world s))) as [v | e].
    + eexists. split; [reflexivity|].
      constructor; [intros x H; discriminate | constructor].
    + destruct (attempt <? max_attempts - 1)%Z; cbv zeta;
        [destruct (Qle_bool 0 delay)|].
      * match goal with |- context [retry_loop _ _ _ _ _ r _ _ ?s1] =>
          destruct (IH (attempt + 1)%Z (Some e) s1) as (evs & Hout & Hs)
        end.
        eexists. split; [rewrite Hout; simpl; rewrite <- !app_assoc; reflexivity|].
        simpl. repeat constructor; try (intros x H; discriminate); [|exact Hs].
        intros x H. now inversion H.
      * eexists. split; [simpl; rewrite <- !app_assoc; reflexivity|].
        repeat constructor; intros x H; discriminate.
      * match goal with |- context [retry_loop _ _ _ _ _ r _ _ ?s1] =>
          destruct (IH (attempt + 1)%Z (Some e) s1) as (evs & Hout & Hs)
        end.
        eexists. split; [rewrite Hout; simpl; rewrite <- !app_assoc; reflexivity|].
        simpl. repeat constructor; try (intros x H; discriminate). exact Hs.
Qed.

(** X18: [retry] waits between attempts and not after the last one: when the
    [k]-th call is the first to return the wrapper has slept [k - 1] times,
    and when all [max_attempts] calls fail it has slept [max_attempts - 1]
    times; every sleep is of [delay] seconds. *)
Theorem retry_waits_between_attempts {W} max_attempts delay name doc ps body
    args kwargs (s : machine W) :
  let f := def name doc ps body in
  let run := body args kwargs in
  (0 <= delay)%Q ->
  (forall k v,
      (1 <= k)%nat -> (Z.of_nat k <= max_attempts)%Z ->
      (forall i, (i < k - 1)%nat -> fails (outcome_at run i (world s))) ->
      outcome_at run (k - 1) (world s) = Return v ->
      exists s' evs,
        call (retry max_attempts delay f) args kwargs s = (Return v, s')
        /\ out s' = (out s ++ evs)%list
        /\ sleeps evs = (k - 1)%nat
        /\ sleeps_of delay evs)
  /\ ((1 <= max_attempts)%Z ->
      (forall i, (i < Z.to_nat max_attempts)%nat -> fails (outcome_at run i (world s))) ->
      exists e s' evs,
        call (retry max_attempts delay f) args kwargs s = (Raise e, s')
        /\ out s' = (out s ++ evs)%list
        /\ sleeps evs = (Z.to_nat max_attempts - 1)%nat
        /\ sleeps_of delay evs).
Proof.
  intros f run Hd. apply Qle_bool_iff in Hd.
  destruct (retry_loop_sleeps_of max_attempts delay name doc ps body args kwargs
              (Z.to_nat max_attempts) 0%Z None s) as (evs0 & Hout0 & Hs0).
  split.
  - intros k v Hk Hm Hfail Hret.
    destruct (retry_loop_returns max_attempts delay name doc ps body args kwargs Hd
                (Z.to_nat max_attempts) (k - 1)%nat 0%Z None s v)
      as (s' & evs & Hrun & Hout & _ & Hsl & _); try assumption; try lia.
    exists s', evs. subst f. rewrite retry_unfold, Hrun.
    rewrite Hrun in Hout0. cbn [snd] in Hout0.
    rewrite Hout in Hout0. apply app_inv_head in Hout0. subst evs0.
    repeat split; assumption.
  - intros Hm Hfail.
    destruct (retry_loop_exhausts max_attempts delay name doc ps body args kwargs Hd
                (Z.to_nat max_attempts) 0%Z None s)
      as (s' & evs & Hrun & Hout & _ & Hsl & _); try assumption; try lia.
    rewrite Hrun in Hout0. cbn [snd] in Hout0.
    rewrite Hout in Hout0. apply app_inv_head in Hout0. subst evs0.
    destruct (Z.to_nat max_attempts) as [| k] eqn:E; [lia|].
    destruct (Hfail k ltac:(lia)) as [e He].
    cbv iota in Hrun. unfold run in He. rewrite He in Hrun.
    exists e, s', evs. subst f. rewrite retry_unfold, E, Hrun.
    repeat split; try assumption. rewrite Hsl. simpl. lia.
Qed.

Lemma retry_waits_between_attempts_witness :
  (exists s' evs,
      call (retry 3 (1 # 2) unreliable_function_def) [] [] two_failures
      = (Return (VStr "Success!"), s')
      /\ out s' = (out two_failures ++ evs)%list
      /\ sleeps evs = 2%nat
      /\ sleeps_of (1 # 2) evs)
  /\ (exists e s' evs,
         call (retry 3 (1 # 2) unreliable_function_def) [] [] only_failures
         = (Raise e, s')
         /\ out s' = (out only_failures ++ evs)%list
         /\ sleeps evs = 2%nat
         /\ sleeps_of (1 # 2) evs).
Proof.
  split.
  - apply (proj1 (retry_waits_between_attempts 3 (1 # 2) "unreliable_function"
                    (Some "Function that fails randomly") [] unreliable_function_body
                    [] [] two_failures
                    ltac:(vm_compute; discriminate)) 3%nat (VStr "Success!")).
    + lia.
    + lia.
    + intros [| [| i]] Hi; [exists (Exception "Random failure!"); vm_compute; reflexivity | exists (Exception "Random failure!"); vm_compute; reflexivity | lia].
    + vm_compute. reflexivity.
  - apply (proj2 (retry_waits_between_attempts 3 (1 # 2) "unreliable_function"
                    (Some "Function that fails randomly") [] unreliable_function_body
                    [] [] only_failures
                    ltac:(vm_compute; discriminate))).
    + lia.
    + intros [| [| [| i]]] Hi;
        [exists (Exception "Random failure!"); vm_compute; reflexivity
        | exists (Exception "Random failure!"); vm_compute; reflexivity
        | exists (Exception "Random failure!"); vm_compute; reflexivity
        | simpl in Hi; lia].
Defined.

Lemma unreliable_function_runs dr i : forall n,
  outcome_at (unreliable_function_body [] []) i (Rng dr n)
  = (if Qlt_bool (dr (i + n)%nat) (float_literal (7 # 10))
     then Raise (Exception "Random failure!") else Return (VStr "Success!"))
  /\ world_after (unreliable_function_body [] []) i (Rng dr n) = Rng dr (i + n).
Proof.
  assert (Hstep : forall n,
             unreliable_function_body [] [] (Rng dr n)
             = (if Qlt_bool (dr n) (float_literal (7 # 10))
                then Raise (Exception "Random failure!") else Return (VStr "Success!"),
                Rng dr (S n))).
  { intros n. unfold unreliable_function_body, with_locals.
    cbn [sig_bind bind_positional bind_keywords apply_defaults defaults_of app
           draws drawn].
    destruct (Qlt_bool (dr n) (float_literal (7 # 10))); reflexivity. }
  induction i as [| i IH]; intros n.
  - unfold outcome_at. cbn [world_after Nat.add]. rewrite Hstep. split; reflexivity.
  - rewrite outcome_at_S. cbn [world_after]. rewrite Hstep. cbn [snd].
    destruct (IH (S n)) as [Ho Hwa]. rewrite Ho, Hwa.
    replace (i + S n)%nat with (S i + n)%nat by lia. split; reflexivity.
Qed.

(** X19: [unreliable_function] draws a random number at each attempt and makes
    at most three: it returns as soon as a draw is not below the float 0.7,
    having used the draws up to that one, and it raises the error of the
    third attempt, having used three draws and slept twice, exactly when the
    next three draws are all below that float.  The float 0.7 is the double
    3152519739159347 / 2 ^ 52, a little below 7/10. *)
Theorem unreliable_function_needs_one_high_draw (s : machine rng) :
  (float_literal (7 # 10) == 3152519739159347 # 4503599627370496)%Q
  /\ (float_literal (7 # 10) < 7 # 10)%Q
  /\
  let d i := draws (world s) (i + drawn (world s))%nat in
  let low i := (d i < float_literal (7 # 10))%Q in
  let (r, s') := call unreliable_function [] [] s in
  (low 0%nat /\ low 1%nat /\ low 2%nat ->
     r = Raise (Exception "Random failure!")
     /\ drawn (world s') = (3 + drawn (world s))%nat
     /\ sleeps (out s') = (2 + sleeps (out s))%nat)
  /\ (~ (low 0%nat /\ low 1%nat /\ low 2%nat) ->
      r = Return (VStr "Success!")
      /\ (drawn (world s) < drawn (world s') <= 3 + drawn (world s))%nat
      /\ (float_literal (7 # 10) <= draws (world s) (pred (drawn (world s'))))%Q).
Proof.
  split; [vm_compute; reflexivity|]. split; [vm_compute; reflexivity|].
  cbv zeta. unfold unreliable_function, unreliable_function_def.
  rewrite retry_unfold. change (Z.to_nat 3) with 3%nat.
  destruct (world s) as [dr n] eqn:Ew. cbn [draws drawn].
  assert (Hd : Qle_bool 0 (1 # 2) = true) by reflexivity.
  pose proof (fun i => proj1 (unreliable_function_runs dr i n)) as Ho.
  pose proof (fun i => proj2 (unreliable_function_runs dr i n)) as Hwa.
  rewrite <- Ew in Ho, Hwa.
  assert (Hlow : forall i, (dr (i + n)%nat < float_literal (7 # 10))%Q
                           <-> Qlt_bool (dr (i + n)%nat) (float_literal (7 # 10)) = true).
  { intros i. symmetry. apply Qlt_bool_iff. }
  assert (Hret : forall j, (j < 3)%nat ->
            (forall i, (i < j)%nat -> Qlt_bool (dr (i + n)%nat) (float_literal (7 # 10)) = true) ->
            Qlt_bool (dr (j + n)%nat) (float_literal (7 # 10)) = false ->
            exists s',
              retry_loop 3 (1 # 2)
                (def "unreliable_function" (Some "Function that fails randomly") []
                   unreliable_function_body) [] [] 3 0%Z None s
              = (Return (VStr "Success!"), s')
              /\ world s' = Rng dr (S j + n)).
  { intros j Hj Hbefore Hj0.
    destruct (retry_loop_returns 3 (1 # 2) "unreliable_function"
                (Some "Function that fails randomly") [] unreliable_function_body [] []
                Hd 3%nat j 0%Z None s (VStr "Success!"))
      as (s' & evs & Hrun & _ & _ & _ & Hw).
    - reflexivity.
    - exact Hj.
    - intros i Hi. rewrite Ho, (Hbefore i Hi). eexists. reflexivity.
    - now rewrite Ho, Hj0.
    - exists s'. split; [exact Hrun|]. now rewrite Hw, Hwa. }
  destruct (Qlt_bool (dr (0 + n)%nat) (float_literal (7 # 10))) eqn:E0.
  2:{ destruct (Hret 0%nat ltac:(lia) ltac:(intros i Hi; lia) E0) as (s' & Hrun & Hw).
      rewrite Hrun, Hw. cbn [drawn]. split.
      - intros (Hl & _). apply (Hlow 0%nat) in Hl. congruence.
      - intros _. split; [reflexivity|]. split; [lia|].
        cbn [pred Nat.add]. now apply Qlt_bool_false_iff. }
  destruct (Qlt_bool (dr (1 + n)%nat) (float_literal (7 # 10))) eqn:E1.
  2:{ destruct (Hret 1%nat ltac:(lia)) as (s' & Hrun & Hw).
      - intros [| i] Hi; [exact E0 | lia].
      - exact E1.
      - rewrite Hrun, Hw. cbn [drawn]. split.
        + intros (_ & Hl & _). apply (Hlow 1%nat) in Hl. congruence.
        + intros _. split; [reflexivity|]. split; [lia|].
          cbn [pred Nat.add]. now apply Qlt_bool_false_iff. }
  destruct (Qlt_bool (dr (2 + n)%nat) (float_literal (7 # 10))) eqn:E2.
  2:{ destruct (Hret 2%nat ltac:(lia)) as (s' & Hrun & Hw).
      - intros [| [| i]] Hi; [exact E0 | exact E1 | lia].
      - exact E2.
      - rewrite Hrun, Hw. cbn [drawn]. split.
        + intros (_ & _ & Hl). apply (Hlow 2%nat) in Hl. congruence.
        + intros _. split; [reflexivity|]. split; [lia|].
          cbn [pred Nat.add]. now apply Qlt_bool_false_iff. }
  destruct (retry_loop_exhausts 3 (1 # 2) "unreliable_function"
              (Some "Function that fails randomly") [] unreliable_function_body [] []
              Hd 3%nat 0%Z None s)
    as (s' & evs & Hrun & Hout & _ & Hsl & Hw).
  - reflexivity.
  - intros [| [| [| i]]] Hi; [| | | lia]; rewrite Ho;
      [rewrite E0 | rewrite E1 | rewrite E2]; eexists; reflexivity.
  - cbv iota in Hrun. rewrite Ho, E2 in Hrun. rewrite Hrun. split.
    + intros _. split; [reflexivity|]. rewrite Hw, Hwa, Hout, sleeps_app, Hsl.
      cbn [drawn]. split; [reflexivity | cbn; lia].
    + intros Hn. exfalso. apply Hn. repeat split; apply Hlow; assumption.
Qed.

(** ** More on rate limiting *)

(** X20: [rate_limit] with [max_calls] zero or negative lets no call through:
    every call raises the rate-limit error and the function is never
    called. *)
Theorem rate_limit_without_quota_refuses_every_call {W} max_calls time_window
    (func : callable W) args kwargs (s : machine W) :
  (max_calls <= 0)%Z ->
  call (rate_limit max_calls time_window func) args kwargs s
  = (Raise (RateLimitExceeded max_calls time_window),
     store_calls (prune (clock s (ticks s)) time_window (calls s)) (tick s)).
Proof.
  intros Hm. rewrite rate_limit_unfold. cbv zeta.
  assert (H : (max_calls <=? Z.of_nat (length (prune (clock s (ticks s)) time_window
                                                (calls s))))%Z = true)
    by (apply Z.leb_le; lia).
  now rewrite H.
Qed.

Lemma rate_limit_without_quota_witness :
  call (rate_limit 0 10 api_call_def) [] [] fresh
  = (Raise (RateLimitExceeded 0 10), store_calls (prune (seconds 0) 10 []) (tick fresh)).
Proof.
  apply (rate_limit_without_quota_refuses_every_call 0 10 api_call_def [] [] fresh). lia.
Defined.

(** X21: A call that is let through is recorded in the window before the
    function runs, so it uses up quota also when the function then
    raises. *)
Theorem rate_limit_counts_a_call_that_fails {W} max_calls time_window name doc ps body
    args kwargs (s : machine W) e :
  let now := clock s (ticks s) in
  let alive := prune now time_window (calls s) in
  (Z.of_nat (length alive) < max_calls)%Z ->
  fst (body args kwargs (world s)) = Raise e ->
  exists s',
    call (rate_limit max_calls time_window (def name doc ps body)) args kwargs s
    = (Raise e, s')
    /\ calls s' = (alive ++ [now])%list
    /\ length (calls s') = S (length alive)
    /\ out s' = (out s ++ [Invoked name args kwargs])%list.
Proof.
  intros now alive Hlt He.
  rewrite rate_limit_unfold. cbv zeta. fold now. fold alive.
  apply Z.leb_gt in Hlt. rewrite Hlt, call_def.
  cbn [world store_calls tick]. rewrite He.
  eexists. split; [reflexivity|]. cbn [calls set_world write store_calls tick out].
  split; [reflexivity|]. split; [|reflexivity].
  rewrite length_app. simpl. lia.
Qed.

Lemma rate_limit_counts_a_call_that_fails_witness :
  exists s',
    call (rate_limit 3 10 unreliable_function_def) [] [] only_failures
    = (Raise (Exception "Random failure!"), s')
    /\ calls s' = ([] ++ [0%Q])%list
    /\ length (calls s') = 1%nat
    /\ out s' = ([] ++ [Invoked "unreliable_function" [] []])%list.
Proof.
  apply (rate_limit_counts_a_call_that_fails 3 10 "unreliable_function"
           (Some "Function that fails randomly") [] unreliable_function_body [] []
           only_failures (Exception "Random failure!")).
  - vm_compute. reflexivity.
  - reflexivity.
Defined.







(** X23: With a window of zero or negative length nothing recorded stays in
    the window (on a clock that has not run backwards), so a limit of one
    call or more never refuses. *)
Theorem rate_limit_with_empty_window_never_refuses {W} max_calls time_window
    (func : callable W) args kwargs (s : machine W) :
  let now := clock s (ticks s) in
  (time_window <= 0)%Z ->
  (1 <= max_calls)%Z ->
  (forall t, In t (calls s) -> (t <= now)%Q) ->
  call (rate_limit max_calls time_window func) args kwargs s
  = call func args kwargs (store_calls [now] (tick s)).
Proof.
  intros now Hw Hm Hpast. rewrite rate_limit_unfold. cbv zeta. fold now.
  assert (Hnone : prune now time_window (calls s) = []).
  { unfold prune.
    assert (Hall : forall l, (forall t, In t l -> (t <= now)%Q) ->
                             List.filter (fun call_time =>
                                            float_lt_int (float_sub now call_time)
                                              time_window)
                               l = []).
    { induction l as [| x l IH]; intros Hl; [reflexivity|]. cbn [List.filter].
      assert (Hx : float_lt_int (float_sub now x) time_window = false).
      { apply float_lt_int_nonneg; [|exact Hw].
        pose proof (Hl x (or_introl eq_refl)) as Hxn. lra. }
      rewrite Hx. apply IH. intros t Ht. apply Hl. now right. }
    now apply Hall. }
  rewrite Hnone. cbn [length app].
  assert (H : (max_calls <=? Z.of_nat 0)%Z = false) by (apply Z.leb_gt; lia).
  now rewrite H.
Qed.

Lemma rate_limit_with_empty_window_witness :
  call (rate_limit 1 0 api_call_def) [] [] busy
  = call api_call_def [] [] (store_calls [seconds 3] (tick busy)).
Proof.
  apply (rate_limit_with_empty_window_never_refuses 1 0 api_call_def [] [] busy).
  - lia.
  - lia.
  - intros t [<- | [<- | [<- | []]]]; vm_compute; discriminate.
Defined.

(** ** More on memoizing *)

Lemma memoize_keeps_entries {W} name doc ps (body : list value -> kwargs_t -> W -> _) :
  forall cs (s : machine W) k v,
    cache s !! k = Some v ->
    cache (snd (call_seq (memoize (def name doc ps body)) cs s)) !! k = Some v.
Proof.
  induction cs as [| [a kw] cs IH]; intros s k v Hk; [exact Hk|].
  cbn [call_seq fst snd]. rewrite memoize_unfold.
  destruct (cache s !! cache_key a kw) as [v0 |] eqn:E.
  - match goal with |- context [call_seq _ cs ?s1] =>
      specialize (IH s1 k v Hk);
      destruct (call_seq (memoize (def name doc ps body)) cs s1) as [rs s']
    end.
    exact IH.
  - rewrite call_def. cbn [world write].
    destruct (fst (body a kw (world s))) as [v1 | e].
    + match goal with |- context [call_seq _ cs ?s1] =>
        specialize (IH s1 k v);
        destruct (call_seq (memoize (def name doc ps body)) cs s1) as [rs s']
      end.
      apply IH. cbn [cache store_cache set_world write].
      rewrite lookup_insert_ne; [exact Hk|]. intros Heq. congruence.
    + match goal with |- context [call_seq _ cs ?s1] =>
        specialize (IH s1 k v Hk);
        destruct (call_seq (memoize (def name doc ps body)) cs s1) as [rs s']
      end.
      exact IH.
Qed.

(** X24: The cache only grows: whatever calls are made, an entry that is in
    the cache stays in it with the value it has, and the number of entries
    never goes down. *)
Theorem memoize_never_evicts_or_overwrites {W} name doc ps
    (body : list value -> kwargs_t -> W -> result value * W) cs (s : machine W) :
  let s' := snd (call_seq (memoize (def name doc ps body)) cs s) in
  (forall k v, cache s !! k = Some v -> cache s' !! k = Some v)
  /\ (size (cache s) <= size (cache s'))%nat.
Proof.
  intros s'.
  assert (H : forall k v, cache s !! k = Some v -> cache s' !! k = Some v).
  { intros k v. apply memoize_keeps_entries. }
  split; [exact H|].
  rewrite <- !size_dom. apply subseteq_size.
  intros k Hk. apply elem_of_dom in Hk. destruct Hk as [v Hv].
  apply elem_of_dom. exists v. now apply H.
Qed.

(** X25: [cache_clear] forgets every entry: the call that follows it runs the
    function again, whatever its arguments and whatever was cached. *)
Theorem cache_clear_makes_the_next_call_compute {W} name doc ps
    (body : list value -> kwargs_t -> W -> result value * W) args kwargs
    (s : machine W) :
  let s0 := snd (cache_clear s) in
  let (r, s') := call (memoize (def name doc ps body)) args kwargs s0 in
  r = fst (body args kwargs (world s))
  /\ out s' = (out s ++ [Printed [Text ("Computing " ++ name ++ str (VTuple args))];
                         Invoked name args kwargs])%list
  /\ world s' = snd (body args kwargs (world s)).
Proof.
  cbv zeta. rewrite memoize_unfold.
  change (cache (snd (cache_clear s))) with (∅ : gmap string value).
  rewrite lookup_empty, call_def.
  cbn [world write snd cache_clear set_cache store_cache __name__ def].
  destruct (body args kwargs (world s)) as [[v | e] w]; cbn;
    rewrite <- app_assoc; repeat split.
Qed.

(** ** The basic decorator *)

Lemma my_decorator_unfold {W} (func : callable W) args kwargs (s : machine W) :
  call (my_decorator func) args kwargs s
  = match call func args kwargs
            (write [Printed [Text ("Before calling " ++ __name__ func)]] s) with
    | (Return v, s1) =>
        (Return v, write [Printed [Text ("After calling " ++ __name__ func)]] s1)
    | (Raise e, s1) => (Raise e, s1)
    end.
Proof.
  cbn [call my_decorator plain_wrapper]. unfold mbind, M_bind, print, emit.
  destruct (call func args kwargs _) as [[v | e] s1]; reflexivity.
Qed.

(** X26: [my_decorator] applied twice.  The inner wrapper is defined without
    [functools.wraps], so the outer one announces a call of 'wrapper', not
    of the function: its lines enclose those of the inner wrapper, which
    enclose the one call of the function.  When the function raises, neither
    closing line is printed and the error goes on.  Applied to a function
    wrapped by [better_decorator], which keeps the name, [my_decorator]
    names the function. *)
Theorem my_decorator_twice_announces_wrapper {W} name doc ps body args kwargs
    (s : machine W) :
  let f := def name doc ps body in
  __name__ (my_decorator (my_decorator f)) = "wrapper"
  /\ match fst (body args kwargs (world s)) with
     | Return v =>
         exists s',
           call (my_decorator (my_decorator f)) args kwargs s = (Return v, s')
           /\ out s' = (out s
                        ++ [Printed [Text "Before calling wrapper"];
                            Printed [Text ("Before calling " ++ name)];
                            Invoked name args kwargs;
                            Printed [Text ("After calling " ++ name)];
                            Printed [Text "After calling wrapper"]])%list
           /\ world s' = snd (body args kwargs (world s))
     | Raise e =>
         exists s',
           call (my_decorator (my_decorator f)) args kwargs s = (Raise e, s')
           /\ out s' = (out s
                        ++ [Printed [Text "Before calling wrapper"];
                            Printed [Text ("Before calling " ++ name)];
                            Invoked name args kwargs])%list
           /\ world s' = snd (body args kwargs (world s))
     end
  /\ out (snd (call (my_decorator (better_decorator f)) args kwargs s))
     = (out s
        ++ [Printed [Text ("Before calling " ++ name)];
            Printed [Text ("Calling " ++ name)];
            Invoked name args kwargs]
        ++ (if is_Return (fst (body args kwargs (world s)))
            then [Printed [Text ("After calling " ++ name)]]
            else []))%list.
Proof.
  cbv zeta. split; [reflexivity|]. split.
  - rewrite !my_decorator_unfold, call_def.
    cbn [world write set_world fst snd __name__ my_decorator plain_wrapper def].
    destruct (body args kwargs (world s)) as [[v | e] w]; cbn [fst snd];
      (eexists; split; [reflexivity|]);
      cbn [out write set_world world]; (split; [|reflexivity]);
      rewrite <- !app_assoc; reflexivity.
  - rewrite my_decorator_unfold.
    cbn [call better_decorator functools_wraps __name__ def].
    unfold mbind, M_bind, print, emit.
    cbn [world write set_world fst snd].
    destruct (body args kwargs (world s)) as [[v | e] w];
      cbn [fst snd out write set_world is_Return];
      rewrite <- ?app_assoc; reflexivity.
Qed.

(** ** The memoized Fibonacci function *)

Lemma fibonacci_S {W} d n (s : machine W) :
  call (fibonacci (S d)) [VInt n] [] s =
  match cache s !! fib_key n with
  | Some v =>
      (Return v,
       write [Printed [Text ("Cache hit for fibonacci" ++ str (VTuple [VInt n]))]] s)
  | None =>
      let s1 := write [Invoked "fibonacci" [VInt n] []]
                  (write [Printed [Text ("Computing fibonacci"
                                           ++ str (VTuple [VInt n]))]] s) in
      if (n <? 2)%Z
      then (Return (VInt n), store_cache (<[fib_key n := VInt n]> (cache s1)) s1)
      else
        match call (fibonacci d) [VInt (n - 1)] [] s1 with
        | (Raise e, s2) => (Raise e, s2)
        | (Return a, s2) =>
            match call (fibonacci d) [VInt (n - 2)] [] s2 with
            | (Raise e, s3) => (Raise e, s3)
            | (Return b, s3) =>
                match py_add a b with
                | Raise e => (Raise e, s3)
                | Return v => (Return v, store_cache (<[fib_key n := v]> (cache s3)) s3)
                end
            end
        end
  end.
Proof.
  cbn [fibonacci]. rewrite memoize_unfold. fold (fib_key n).
  destruct (cache s !! fib_key n) as [v |]; [reflexivity|].
  cbn [call def_m __name__]. unfold mbind at 1, M_bind at 1, emit at 1.
  unfold with_locals_m. cbn [sig_bind bind_positional bind_keywords lookup_kw app].
  unfold mbind at 1, M_bind at 1, lift_result at 1.
  cbn [apply_defaults defaults_of lookup_kw pname String.eqb Ascii.eqb Bool.eqb local].
  unfold py_lt_int, py_sub_int. cbn [as_index].
  unfold mbind at 1, M_bind at 1, lift_result at 1.
  cbv zeta.
  destruct (n <? 2)%Z; [reflexivity|].
  unfold mbind, M_bind, lift_result.
  destruct (call (fibonacci d) [VInt (n - 1)] [] _) as [[a | e] s2]; [|reflexivity].
  destruct (call (fibonacci d) [VInt (n - 2)] [] s2) as [[b | e] s3]; [|reflexivity].
  destruct (py_add a b); reflexivity.
Qed.

Lemma fib_key_inj k n : fib_key k = fib_key n -> k = n.
Proof.
  intros H. apply cache_key_inj in H. destruct H as [H _]. simpl in H. congruence.
Qed.

Lemma fib_of_nat n : (0 <= n)%Z -> fib n = fib_nat (Z.to_nat n).
Proof.
  intros H. unfold fib. destruct (Z.ltb_spec n 2); [|reflexivity].
  assert (Hn : n = 0%Z \/ n = 1%Z) by lia. destruct Hn as [-> | ->]; reflexivity.
Qed.

Lemma fib_step n : (2 <= n)%Z -> fib n = (fib (n - 1) + fib (n - 2))%Z.
Proof.
  intros H. rewrite !fib_of_nat by lia.
  replace (Z.to_nat n) with (S (S (Z.to_nat (n - 2)))) by lia.
  replace (Z.to_nat (n - 1)) with (S (Z.to_nat (n - 2))) by lia.
  reflexivity.
Qed.

Lemma fib_cache_insert c n :
  fib_cache c -> fib_cache (<[fib_key n := VInt (fib n)]> c).
Proof.
  intros Hc k v. destruct (decide (fib_key n = fib_key k)) as [Heq | Hne].
  - rewrite Heq, lookup_insert_eq. intros Hv. inversion Hv; subst.
    now rewrite (fib_key_inj _ _ Heq).
  - rewrite lookup_insert_ne by exact Hne. apply Hc.
Qed.

Lemma fibonacci_value {W} : forall depth n (s : machine W),
  (0 < Z.of_nat depth)%Z -> (n < Z.of_nat depth)%Z ->
  fib_cache (cache s) ->
  exists s',
    call (fibonacci depth) [VInt n] [] s = (Return (VInt (fib n)), s')
    /\ fib_cache (cache s').
Proof.
  induction depth as [| d IH]; intros n s Hpos Hn Hc; [lia|].
  rewrite fibonacci_S.
  destruct (cache s !! fib_key n) as [v |] eqn:E.
  - rewrite (Hc n v E). eexists. split; [reflexivity | exact Hc].
  - cbv zeta. destruct (Z.ltb_spec n 2) as [Hlt | Hge].
    + eexists. split.
      * unfold fib. apply Z.ltb_lt in Hlt. rewrite Hlt. reflexivity.
      * cbn [cache store_cache write].
        replace (VInt n) with (VInt (fib n))
          by (unfold fib; apply Z.ltb_lt in Hlt; now rewrite Hlt).
        now apply fib_cache_insert.
    + match goal with |- context [call (fibonacci d) [VInt (n - 1)] [] ?s1] =>
        destruct (IH (n - 1)%Z s1) as (s2 & Hr1 & Hc2); [lia | lia | exact Hc |]
      end.
      rewrite Hr1.
      destruct (IH (n - 2)%Z s2) as (s3 & Hr2 & Hc3); [lia | lia | exact Hc2 |].
      rewrite Hr2. cbn [py_add as_index].
      rewrite <- fib_step by exact Hge.
      eexists. split; [reflexivity|].
      cbn [cache store_cache]. now apply fib_cache_insert.
Qed.

(** X27: [fibonacci(n)], called within the recursion limit on a cache whose
    entries are right, returns the [n]-th Fibonacci number ([n] itself for
    [n] below 2, negative numbers included), and the entries of the cache
    are still right afterwards. *)
Theorem fibonacci_returns_the_fibonacci_number {W} depth n (s : machine W) :
  (0 < Z.of_nat depth)%Z ->
  (n < Z.of_nat depth)%Z ->
  fib_cache (cache s) ->
  exists s',
    call (fibonacci depth) [VInt n] [] s = (Return (VInt (fib n)), s')
    /\ fib_cache (cache s')
    /\ ((2 <= n)%Z -> fib n = (fib (n - 1) + fib (n - 2))%Z)
    /\ ((n < 2)%Z -> fib n = n).
Proof.
  intros Hpos Hn Hc.
  destruct (fibonacci_value depth n s Hpos Hn Hc) as (s' & Hr & Hc').
  exists s'. split; [exact Hr|]. split; [exact Hc'|]. split.
  - apply fib_step.
  - intros Hlt. unfold fib. apply Z.ltb_lt in Hlt. now rewrite Hlt.
Qed.

Lemma fibonacci_returns_witness :
  exists s',
    call (fibonacci 11) [VInt 10] [] fresh = (Return (VInt (fib 10)), s')
    /\ fib_cache (cache s')
    /\ ((2 <= 10)%Z -> fib 10 = (fib (10 - 1) + fib (10 - 2))%Z)
    /\ ((10 < 2)%Z -> fib 10 = 10%Z).
Proof.
  apply (fibonacci_returns_the_fibonacci_number 11 10 fresh).
  - lia.
  - lia.
  - intros k v H. cbn in H. rewrite lookup_empty in H. discriminate.
Defined.

(** [fibonacci(m + 1)] on a cache that holds nothing for [fibonacci]. *)
Lemma fibonacci_cold {W} : forall m depth (s : machine W),
  (Z.of_nat m + 1 < Z.of_nat depth)%Z ->
  (forall k, cache s !! fib_key k = None) ->
  let lo := match m with O => 1%Z | S _ => 0%Z end in
  exists s' evs,
    call (fibonacci depth) [VInt (Z.of_nat m + 1)] [] s
    = (Return (VInt (fib (Z.of_nat m + 1))), s')
    /\ out s' = (out s ++ evs)%list
    /\ invocations evs = match m with O => 1%nat | S _ => (m + 2)%nat end
    /\ (forall k, (lo <= k <= Z.of_nat m + 1)%Z ->
                  cache s' !! fib_key k = Some (VInt (fib k)))
    /\ (forall k, (k < lo \/ Z.of_nat m + 1 < k)%Z -> cache s' !! fib_key k = None).
Proof.
  induction m as [| m IH]; intros depth s Hd Hcold lo.
  - destruct depth as [| d]; [lia|].
    change (Z.of_nat 0 + 1)%Z with 1%Z. rewrite fibonacci_S, Hcold. cbv zeta.
    change (1 <? 2)%Z with true. cbv iota.
    eexists. exists [Printed [Text ("Computing fibonacci" ++ str (VTuple [VInt 1]))];
                     Invoked "fibonacci" [VInt 1] []].
    split; [reflexivity|]. cbn [out cache store_cache write].
    split; [now rewrite <- app_assoc|]. split; [reflexivity|]. split.
    + intros k Hk. assert (k = 1%Z) by (subst lo; lia). subst k.
      now rewrite lookup_insert_eq.
    + intros k Hk. rewrite lookup_insert_ne; [apply Hcold|].
      intros Heq. apply fib_key_inj in Heq. subst lo. lia.
  - destruct depth as [| d]; [lia|].
    rewrite fibonacci_S, Hcold. cbv zeta.
    assert (Hge : (Z.of_nat (S m) + 1 <? 2)%Z = false) by (apply Z.ltb_ge; lia).
    rewrite Hge.
    replace (Z.of_nat (S m) + 1 - 1)%Z with (Z.of_nat m + 1)%Z by lia.
    replace (Z.of_nat (S m) + 1 - 2)%Z with (Z.of_nat m) by lia.
    match goal with |- context [call (fibonacci d) [VInt (Z.of_nat m + 1)] [] ?s1] =>
      destruct (IH d s1) as (s2 & evs1 & Hr1 & Hout1 & Hinv1 & Hsome & Hnone);
        [lia | exact Hcold |]
    end.
    rewrite Hr1.
    destruct d as [| d']; [lia|].
    rewrite fibonacci_S.
    destruct m as [| m'].
    + (* n = 2: the call for 0 computes *)
      change (Z.of_nat 0) with 0%Z in *.
      rewrite (Hnone 0%Z) by lia. cbv zeta.
      change (0 <? 2)%Z with true. cbv iota.
      cbn [py_add as_index].
      replace (fib (0 + 1) + 0)%Z with (fib (Z.of_nat 1 + 1)) by reflexivity.
      eexists.
      exists ([Printed [Text ("Computing fibonacci"
                                ++ str (VTuple [VInt (Z.of_nat 1 + 1)]))];
               Invoked "fibonacci" [VInt (Z.of_nat 1 + 1)] []]
              ++ evs1
              ++ [Printed [Text ("Computing fibonacci" ++ str (VTuple [VInt 0]))];
                  Invoked "fibonacci" [VInt 0] []])%list.
      split; [reflexivity|]. split; [|split; [|split]].
      * cbn [out cache store_cache write]. rewrite Hout1.
        cbn [out write]. now rewrite <- !app_assoc.
      * rewrite !invocations_app, Hinv1. reflexivity.
      * intros k Hk. cbn [cache store_cache write].
        assert (Hk3 : k = 0%Z \/ k = 1%Z \/ k = 2%Z) by (subst lo; lia).
        destruct Hk3 as [-> | [-> | ->]].
        -- rewrite lookup_insert_ne by (intros Heq; apply fib_key_inj in Heq; lia).
           now rewrite lookup_insert_eq.
        -- rewrite lookup_insert_ne by (intros Heq; apply fib_key_inj in Heq; lia).
           rewrite lookup_insert_ne by (intros Heq; apply fib_key_inj in Heq; lia).
           apply (Hsome 1%Z). lia.
        -- change (Z.of_nat 1 + 1)%Z with 2%Z. now rewrite lookup_insert_eq.
      * intros k Hk. cbn [cache store_cache write].
        rewrite lookup_insert_ne by (intros Heq; apply fib_key_inj in Heq; subst lo; lia).
        rewrite lookup_insert_ne by (intros Heq; apply fib_key_inj in Heq; subst lo; lia).
        apply Hnone. subst lo. lia.
    + (* n above 2: the call for n - 2 is a hit *)
      rewrite (Hsome (Z.of_nat (S m'))) by lia.
      cbn [py_add as_index].
      replace (fib (Z.of_nat (S m') + 1) + fib (Z.of_nat (S m')))%Z
        with (fib (Z.of_nat (S (S m')) + 1))
        by (rewrite (fib_step (Z.of_nat (S (S m')) + 1)) by lia; f_equal; f_equal; lia).
      eexists.
      exists ([Printed [Text ("Computing fibonacci"
                                ++ str (VTuple [VInt (Z.of_nat (S (S m')) + 1)]))];
               Invoked "fibonacci" [VInt (Z.of_nat (S (S m')) + 1)] []]
              ++ evs1
              ++ [Printed [Text ("Cache hit for fibonacci"
                                   ++ str (VTuple [VInt (Z.of_nat (S m'))]))]])%list.
      split; [reflexivity|]. split; [|split; [|split]].
      * cbn [out cache store_cache write]. rewrite Hout1.
        cbn [out write]. now rewrite <- !app_assoc.
      * rewrite !invocations_app, Hinv1. cbn. lia.
      * intros k Hk. cbn [cache store_cache write].
        destruct (Z.eq_dec k (Z.of_nat (S (S m')) + 1)%Z) as [-> | Hne].
        -- now rewrite lookup_insert_eq.
        -- rewrite lookup_insert_ne by (intros Heq; apply fib_key_inj in Heq; lia).
           apply Hsome. subst lo. lia.
      * intros k Hk. cbn [cache store_cache write].
        rewrite lookup_insert_ne by (intros Heq; apply fib_key_inj in Heq; subst lo; lia).
        apply Hnone. subst lo. lia.
Qed.

(** X28: Memoizing makes [fibonacci] linear: called for [n] at least 2, within
    the recursion limit and with nothing cached for it, the body runs
    exactly [n + 1] times (once for each of 0 .. [n]), the value returned
    is the [n]-th Fibonacci number, and afterwards the cache holds the
    Fibonacci number of each of 0 .. [n]. *)
Theorem fibonacci_runs_its_body_once_per_number {W} depth n (s : machine W) :
  (2 <= n)%Z ->
  (n < Z.of_nat depth)%Z ->
  (forall k, cache s !! fib_key k = None) ->
  exists s' evs,
    call (fibonacci depth) [VInt n] [] s = (Return (VInt (fib n)), s')
    /\ out s' = (out s ++ evs)%list
    /\ Z.of_nat (invocations evs) = (n + 1)%Z
    /\ (forall k, (0 <= k <= n)%Z -> cache s' !! fib_key k = Some (VInt (fib k))).
Proof.
  intros Hn Hd Hcold.
  destruct (fibonacci_cold (Z.to_nat (n - 1)) depth s) as (s' & evs & Hr & Hout & Hinv & Hsome & _).
  - lia.
  - exact Hcold.
  - replace (Z.of_nat (Z.to_nat (n - 1)) + 1)%Z with n in * by lia.
    exists s', evs. split; [exact Hr|]. split; [exact Hout|].
    destruct (Z.to_nat (n - 1)) as [| m] eqn:E; [lia|].
    split; [rewrite Hinv; lia|].
    intros k Hk. apply Hsome. lia.
Qed.

Lemma fibonacci_runs_once_per_number_witness :
  exists s' evs,
    call (fibonacci 11) [VInt 10] [] fresh = (Return (VInt (fib 10)), s')
    /\ out s' = (out fresh ++ evs)%list
    /\ Z.of_nat (invocations evs) = (10 + 1)%Z
    /\ (forall k, (0 <= k <= 10)%Z -> cache s' !! fib_key k = Some (VInt (fib k))).
Proof.
  apply (fibonacci_runs_its_body_once_per_number 11 10 fresh).
  - lia.
  - lia.
  - intros k. apply lookup_empty.
Defined.
